(** * Thomson-problem optimiser: a shallow embedding of
    [src/ThomsonProblem/script.js] and the properties its specification states.

    The program is JavaScript: its numbers are IEEE-754 binary64 values, its
    points are mutable [THREE.Vector3] objects shared by reference, and it
    draws from [Math.random].  The embedding keeps all three:

    - arithmetic goes through the interface [Number]; the instance
      [float_Number] is binary64 (Rocq's primitive floats), so every
      definition below can be evaluated on the very values the script
      computes;
    - the [Vector3] objects held by configurations live in a heap addressed
      by locations, and in-place methods update the heap cell;
    - [Math.random] is an oracle [rnd : nat -> F]: the k-th call returns
      [rnd k]. *)

From Stdlib Require Import ZArith Floats String Ascii DecimalString Sorted.
From Stdlib Require Import Reals Lra Psatz.
From stdpp Require Import base option list.

(** ** Numbers *)

(** The operations of a JavaScript Number that the script uses.  The fields
    named [lit_*] are the numeric literals of the source. *)
Class Number (F : Type) : Type := {
  num_add : F -> F -> F;
  num_sub : F -> F -> F;
  num_mul : F -> F -> F;
  num_div : F -> F -> F;
  num_sqrt : F -> F;                (* Math.sqrt *)
  num_abs : F -> F;                 (* Math.abs *)
  num_floor : F -> F;               (* Math.floor *)
  num_ltb : F -> F -> bool;         (* a < b; a > b is [num_ltb b a] *)
  num_leb : F -> F -> bool;         (* a <= b; a >= b is [num_leb b a] *)
  num_truthy : F -> bool;           (* ToBoolean: false on 0, -0 and NaN *)
  num_of_nat : nat -> F;            (* an array length or a count as a Number *)
  num_index : F -> option nat;      (* a [k] when the Number is the array index k *)
  lit_0 : F;
  lit_1 : F;
  lit_2 : F;
  lit_5 : F;
  lit_0_1 : F;                      (* 0.1 *)
  lit_0_2 : F;                      (* 0.2 *)
  lit_1e_9 : F;                     (* 1e-9 *)
  lit_1e9 : F;                      (* 1e9 *)
  lit_1e_2 : F;                     (* 1e-2 *)
  num_Infinity : F
}.

(** [Math.sin], [Math.cos], [Math.acos] and [Math.PI].  ECMAScript leaves the
    three functions implementation-approximated, so they are an interface of
    their own and every general statement holds for any implementation. *)
Class Trig (F : Type) : Type := {
  Math_sin : F -> F;
  Math_cos : F -> F;
  Math_acos : F -> F;
  Math_PI : F
}.

(** [Number.prototype.toFixed]. *)
Class ToFixed (F : Type) : Type := {
  toFixed : F -> nat -> string
}.

Declare Scope num_scope.
Delimit Scope num_scope with num.
Infix "+." := num_add (at level 50, left associativity) : num_scope.
Infix "-." := num_sub (at level 50, left associativity) : num_scope.
Infix "*." := num_mul (at level 40, left associativity) : num_scope.
Infix "/." := num_div (at level 40, left associativity) : num_scope.
Notation "a <. b" := (num_ltb a b) (at level 70, no associativity) : num_scope.
Notation "a >. b" := (num_ltb b a) (at level 70, no associativity, only parsing) : num_scope.
Notation "a >=. b" := (num_leb b a) (at level 70, no associativity, only parsing) : num_scope.
Local Open Scope num_scope.

(** *** The binary64 instance *)

Module Float64.

Definition of_Z (z : Z) : float :=
  match z with
  | Z0 => 0%float
  | Zpos _ => PrimFloat.of_uint63 (Uint63.of_Z z)
  | Zneg p => PrimFloat.opp (PrimFloat.of_uint63 (Uint63.of_Z (Zpos p)))
  end.

(** [Math.floor]: the value of a finite float is [(-1)^s * m * 2^e]. *)
Definition floor (x : float) : float :=
  match Prim2SF x with
  | S754_finite s m e =>
      if (0 <=? e)%Z then x
      else
        let q := Z.shiftr (Zpos m) (- e) in
        let exact := (Z.shiftl q (- e) =? Zpos m)%Z in
        if exact then x
        else if s then of_Z (- (q + 1)) else of_Z q
  | _ => x
  end.

(** ToBoolean of a Number. *)
Definition truthy (x : float) : bool :=
  match Prim2SF x with
  | S754_zero _ | S754_nan => false
  | _ => true
  end.

(** The array index a Number denotes as a property key: a non-negative
    integer below 2^32 - 1. *)
Definition index (x : float) : option nat :=
  match Prim2SF x with
  | S754_zero _ => Some 0
  | S754_finite false m e =>
      if (0 <=? e)%Z then
        let v := Z.shiftl (Zpos m) e in
        if (v <? 4294967295)%Z then Some (Z.to_nat v) else None
      else
        let q := Z.shiftr (Zpos m) (- e) in
        if (Z.shiftl q (- e) =? Zpos m)%Z then Some (Z.to_nat q) else None
  | _ => None
  end.

Definition of_nat (n : nat) : float := of_Z (Z.of_nat n).

End Float64.

#[export] Instance float_Number : Number float := {|
  num_add := PrimFloat.add;
  num_sub := PrimFloat.sub;
  num_mul := PrimFloat.mul;
  num_div := PrimFloat.div;
  num_sqrt := PrimFloat.sqrt;
  num_abs := PrimFloat.abs;
  num_floor := Float64.floor;
  num_ltb := PrimFloat.ltb;
  num_leb := PrimFloat.leb;
  num_truthy := Float64.truthy;
  num_of_nat := Float64.of_nat;
  num_index := Float64.index;
  lit_0 := 0%float;
  lit_1 := 1%float;
  lit_2 := 2%float;
  lit_5 := 5%float;
  lit_0_1 := 0x1.999999999999ap-4%float;
  lit_0_2 := 0x1.999999999999ap-3%float;
  lit_1e_9 := 0x1.12e0be826d695p-30%float;
  lit_1e9 := 1e9%float;
  lit_1e_2 := 0x1.47ae147ae147bp-7%float;
  num_Infinity := infinity
|}.

(** The values of [Math.sin], [Math.cos] and [Math.acos] at the arguments
    that the worked examples of this file reach: sin 0 = 0, cos 0 = 1,
    acos -1 = pi, sin pi = 1.2246467991473532e-16 and cos pi = -1, where pi
    is the binary64 [Math.PI].  A correctly rounded implementation returns
    exactly these; the table has no other entry (it answers NaN). *)
Definition example_trig : Trig float := {|
  Math_sin x :=
    if PrimFloat.eqb x 0 then 0%float
    else if PrimFloat.eqb x 0x1.921fb54442d18p+1 then 0x1.1a62633145c07p-53%float
    else nan;
  Math_cos x :=
    if PrimFloat.eqb x 0 then 1%float
    else if PrimFloat.eqb x 0x1.921fb54442d18p+1 then (-1)%float
    else nan;
  Math_acos x :=
    if PrimFloat.eqb x (-1) then 0x1.921fb54442d18p+1%float else nan;
  Math_PI := 0x1.921fb54442d18p+1%float
|}.

(** ** Number.prototype.toFixed on binary64

    [x.toFixed(f)] after ECMAScript: the digits of the integer [n] for which
    [n / 10^f] is closest to [x] (the larger one of two), with a point
    before the last [f] digits; a Number of at least [10^21] is written as
    [Number::toString] writes it, in exponent notation with the fewest
    digits that still round to it. *)

Module ToFixed64.
Local Open Scope Z_scope.

(** The decimal digits of a non-negative integer. *)
Definition digits (n : Z) : string :=
  NilZero.string_of_uint (N.to_uint (Z.to_N n)).

Fixpoint zeros (k : nat) : string :=
  match k with
  | O => ""%string
  | S k' => String "0" (zeros k')
  end.

(** The integer [n] for which [n / 10^f] is closest to [m * 2^e], the
    larger one of two. *)
Definition nearest (m : positive) (e : Z) (f : nat) : Z :=
  let scaled := Zpos m * 10 ^ Z.of_nat f in
  if 0 <=? e then scaled * 2 ^ e
  else (2 * scaled + 2 ^ (- e)) / 2 ^ (- e + 1).

(** The digits of [n] with a point before the last [f] of them. *)
Definition fixed (n : Z) (f : nat) : string :=
  let m := digits n in
  match f with
  | O => m
  | S _ =>
      let m := if (String.length m <=? f)%nat
               then (zeros (f + 1 - String.length m) ++ m)%string else m in
      let k := String.length m in
      (substring 0 (k - f) m ++ "." ++ substring (k - f) f m)%string
  end.

Definition at_least_1e21 (m : positive) (e : Z) : bool :=
  10 ^ 21 * 2 ^ Z.max 0 (- e) <=? Zpos m * 2 ^ Z.max 0 e.

(** [v] rounds to the binary64 number [m * 2^e] (of exponent [e >= 2]). *)
Definition rounds_to (m : positive) (e : Z) (v : Z) : bool :=
  let x := Zpos m * 2 ^ e in
  let up := 2 ^ (e - 1) in
  let down := if Zpos m =? 2 ^ 52 then 2 ^ (e - 2) else 2 ^ (e - 1) in
  if Z.even (Zpos m) then (x - down <=? v) && (v <=? x + up)
  else (x - down <? v) && (v <? x + up).

(** The multiple of [10^p] that rounds to [m * 2^e] and is closest to it,
    the one with the even factor of two. *)
Definition candidate (m : positive) (e : Z) (p : Z) : option Z :=
  let x := Zpos m * 2 ^ e in
  let lo := x / 10 ^ p * 10 ^ p in
  let hi := lo + 10 ^ p in
  match rounds_to m e lo, rounds_to m e hi with
  | true, true =>
      if x - lo <? hi - x then Some lo
      else if hi - x <? x - lo then Some hi
      else if Z.even (x / 10 ^ p) then Some lo else Some hi
  | true, false => Some lo
  | false, true => Some hi
  | false, false => None
  end.

(** The fewest digits first: [p] zeros at the end, then [p - 1], ... *)
Fixpoint shortest (m : positive) (e : Z) (p : nat) : Z :=
  match candidate m e (Z.of_nat p) with
  | Some v => v
  | None =>
      match p with
      | O => Zpos m * 2 ^ e
      | S p' => shortest m e p'
      end
  end.

Fixpoint strip_zeros (s : string) : string :=
  match s with
  | EmptyString => EmptyString
  | String c r =>
      let r' := strip_zeros r in
      if (r' =? EmptyString)%string && Ascii.eqb c "0" then EmptyString
      else String c r'
  end.

(** Number::toString of [m * 2^e >= 10^21]: exponent notation. *)
Definition toString_large (m : positive) (e : Z) : string :=
  let d := String.length (digits (Zpos m * 2 ^ e)) in
  let v := digits (shortest m e (d - 1)) in
  let n := String.length v in
  match strip_zeros v with
  | String c EmptyString =>
      (String c EmptyString ++ "e+" ++ digits (Z.of_nat (n - 1)))%string
  | String c r =>
      (String c EmptyString ++ "." ++ r ++ "e+" ++ digits (Z.of_nat (n - 1)))%string
  | EmptyString => EmptyString
  end.

Definition toFixed (x : float) (f : nat) : string :=
  match Prim2SF x with
  | S754_nan => "NaN"%string
  | S754_infinity s => if s then "-Infinity"%string else "Infinity"%string
  | S754_zero _ => fixed 0 f
  | S754_finite s m e =>
      ((if s then "-" else EmptyString)
       ++ (if at_least_1e21 m e then toString_large m e
           else fixed (nearest m e f) f))%string
  end.

End ToFixed64.

#[export] Instance float_ToFixed : ToFixed float := {| toFixed := ToFixed64.toFixed |}.

(** ** THREE.Vector3

    The class comes from three.js, which is not part of the repository; the
    methods the script calls are written after three.js's
    [src/math/Vector3.js].  A [Vector3] below is the value of such an object
    (its three fields); the objects themselves are heap cells. *)

Section Vector3.
Context {F : Type} `{Number F}.

Record Vector3 : Type := mkVector3 { vx : F; vy : F; vz : F }.

(* new THREE.Vector3() *)
Definition v_zero : Vector3 := mkVector3 lit_0 lit_0 lit_0.

Definition v_add (a b : Vector3) : Vector3 :=
  mkVector3 (vx a +. vx b) (vy a +. vy b) (vz a +. vz b).

Definition v_sub (a b : Vector3) : Vector3 :=
  mkVector3 (vx a -. vx b) (vy a -. vy b) (vz a -. vz b).

(* subVectors(a, b) *)
Definition v_subVectors (a b : Vector3) : Vector3 := v_sub a b.

Definition v_multiplyScalar (a : Vector3) (s : F) : Vector3 :=
  mkVector3 (vx a *. s) (vy a *. s) (vz a *. s).

(* this.x += v.x * s; ... *)
Definition v_addScaledVector (a v : Vector3) (s : F) : Vector3 :=
  mkVector3 (vx a +. vx v *. s) (vy a +. vy v *. s) (vz a +. vz v *. s).

Definition v_dot (a b : Vector3) : F :=
  vx a *. vx b +. vy a *. vy b +. vz a *. vz b.

Definition v_lengthSq (a : Vector3) : F :=
  vx a *. vx a +. vy a *. vy a +. vz a *. vz a.

Definition v_length (a : Vector3) : F := num_sqrt (v_lengthSq a).

Definition v_distanceToSquared (a b : Vector3) : F :=
  let dx := vx a -. vx b in
  let dy := vy a -. vy b in
  let dz := vz a -. vz b in
  dx *. dx +. dy *. dy +. dz *. dz.

Definition v_distanceTo (a b : Vector3) : F :=
  num_sqrt (v_distanceToSquared a b).

(* divideScalar(s) is multiplyScalar(1 / s) *)
Definition v_divideScalar (a : Vector3) (s : F) : Vector3 :=
  v_multiplyScalar a (lit_1 /. s).

(* normalize() is divideScalar(this.length() || 1) *)
Definition v_normalize (a : Vector3) : Vector3 :=
  let l := v_length a in
  v_divideScalar a (if num_truthy l then l else lit_1).

End Vector3.

Arguments Vector3 F : clear implicits.

(** ** The store, [Math.random] and the effects of the script *)

(** A location names one [THREE.Vector3] object.  Arrays of points are lists
    of locations: two arrays that hold the same location share the object. *)
Abbreviation loc := nat.

Section Effects.
Context {F : Type} `{Number F}.

(** [rnd k] is what the k-th call of [Math.random] returns. *)
Variable rnd : nat -> F.

Record World : Type := mkWorld {
  heap : list (Vector3 F);     (* the Vector3 objects allocated so far *)
  draws : nat                  (* calls of Math.random so far *)
}.

(** A call returns normally, throws (a TypeError on [undefined]), or its
    loop is cut by the fuel it was given. *)
Inductive Outcome (A : Type) : Type :=
| Done (a : A) (w : World)
| Throw
| OutOfFuel.
Arguments Done {A} a w.
Arguments Throw {A}.
Arguments OutOfFuel {A}.

Definition M (A : Type) : Type := World -> Outcome A.

(** What a call returned, when it returned. *)
Definition result_of {A} (o : Outcome A) : option A :=
  match o with
  | Done a _ => Some a
  | _ => None
  end.

Definition ret {A} (a : A) : M A := fun w => Done a w.

Definition bind {A B} (m : M A) (k : A -> M B) : M B :=
  fun w => match m w with
           | Done a w' => k a w'
           | Throw => Throw
           | OutOfFuel => OutOfFuel
           end.

Definition throw {A} : M A := fun _ => Throw.

Definition Math_random : M F :=
  fun w => Done (rnd (draws w)) (mkWorld (heap w) (S (draws w))).

(* new THREE.Vector3(x, y, z), and clone() *)
Definition new_Vector3 (v : Vector3 F) : M loc :=
  fun w => Done (length (heap w)) (mkWorld (heap w ++ [v]) (draws w)).

Definition read (l : loc) : M (Vector3 F) :=
  fun w => match heap w !! l with
           | Some v => Done v w
           | None => Throw
           end.

(* an in-place method of the object at l *)
Definition modify (l : loc) (f : Vector3 F -> Vector3 F) : M unit :=
  fun w => match heap w !! l with
           | Some v => Done tt (mkWorld (<[l := f v]> (heap w)) (draws w))
           | None => Throw
           end.

(* arr[i], used at once as an object *)
Definition at_index {A} (arr : list A) (i : nat) : M A :=
  match arr !! i with
  | Some a => ret a
  | None => throw
  end.

(* arr[x] for a Number x; [None] is undefined *)
Definition get_number {A} (arr : list A) (x : F) : option A :=
  match num_index x with
  | Some i => arr !! i
  | None => None
  end.

(* arr[x] for a Number x, used at once as an object *)
Definition at_number {A} (arr : list A) (x : F) : M A :=
  match num_index x with
  | Some i => at_index arr i
  | None => throw
  end.

End Effects.

Arguments Done {F A} a w.
Arguments Throw {F A}.
Arguments OutOfFuel {F A}.
Arguments result_of {F A} o.
Arguments M F A : clear implicits.
Arguments World F : clear implicits.

Notation "'do' x <- m ; k" := (bind m (fun x => k))
  (at level 10, x pattern, m at level 100, k at level 200).
Notation "m ;; k" := (bind m (fun _ => k))
  (at level 100, k at level 200, right associativity).

Section Loops.
Context {F : Type}.

(** [for (x of xs) body], threading the variables the body assigns. *)
Fixpoint for_each {A St : Type} (xs : list A) (body : A -> St -> M F St) (s : St) : M F St :=
  match xs with
  | [] => ret s
  | x :: xs' => do s' <- body x s; for_each xs' body s'
  end.

(** [for (let i = lo; i < hi; i++) body]. *)
Definition for_range {St : Type} (lo hi : nat) (body : nat -> St -> M F St) (s : St) : M F St :=
  for_each (seq lo (hi - lo)) body s.

(** [while (cond) body].  The condition is tested first; a loop that still
    wants to run when the fuel is spent ends in [OutOfFuel]. *)
Fixpoint while {St : Type} (fuel : nat) (cond : St -> bool) (body : St -> M F St) (s : St) : M F St :=
  if cond s then
    match fuel with
    | 0 => fun _ => OutOfFuel
    | S k => do s' <- body s; while k cond body s'
    end
  else ret s.

End Loops.

(** ** Array.prototype.sort

    Both sorts of the script pass a comparator [(a, b) => a.key - b.key].
    The sort is stable and its algorithm is left to the implementation; it
    is written here as a stable insertion sort, which moves [a] behind [b]
    exactly when the comparator is positive (a NaN result counts as 0). *)

Section Sort.
Context {F : Type} `{Number F} {A : Type}.
Variable key : A -> F.

Definition comparator (a b : A) : F := key a -. key b.

Fixpoint sort_insert (a : A) (l : list A) : list A :=
  match l with
  | [] => [a]
  | b :: l' =>
      if comparator a b >. lit_0 then b :: sort_insert a l'
      else a :: b :: l'
  end.

Definition sort_by (l : list A) : list A := foldr sort_insert [] l.

End Sort.

(** ** class ThomsonSimulation *)

Section ThomsonSimulation.
Context {F : Type} `{Number F} `{Trig F}.
Variable rnd : nat -> F.

Local Abbreviation M := (M F).
Local Abbreviation Math_random := (Math_random rnd).

(** The module-level [let] variables the class reads.  The page's event
    handlers assign them between two calls of [step], never during one. *)
Record Globals : Type := mkGlobals {
  g_populationSize : nat;
  g_mutationRate : F;
  g_learningRate : F;
  g_convergenceThreshold : F
}.

(** An element of [this.population]: [{ points, energy }]. *)
Record Individual : Type := mkIndividual {
  points : list loc;
  energy : F
}.

Record ThomsonSimulation : Type := mkSimulation {
  n : nat;
  populationSize : nat;
  population : list Individual;
  bestConfig : option (list loc);      (* null until the first updateBest *)
  bestEnergy : F
}.

(* points[i], dereferenced *)
Definition point_at (pts : list loc) (i : nat) : M (Vector3 F) :=
  do l <- at_index pts i; read l.

Definition randomPointOnSphere : M (Vector3 F) :=
  do u <- Math_random;
  do v <- Math_random;
  let theta := lit_2 *. Math_PI *. u in
  let phi := Math_acos (lit_2 *. v -. lit_1) in
  let x := Math_sin phi *. Math_cos theta in
  let y := Math_sin phi *. Math_sin theta in
  let z := Math_cos phi in
  ret (mkVector3 x y z).

Definition createRandomConfig (n : nat) : M (list loc) :=
  for_range 0 n (fun _ pts =>
    do p <- randomPointOnSphere;
    do l <- new_Vector3 p;
    ret (pts ++ [l])) [].

Definition calculateEnergy (pts : list loc) : M F :=
  for_range 0 (length pts) (fun i energy =>
    for_range (i + 1) (length pts) (fun j energy =>
      do pi <- point_at pts i;
      do pj <- point_at pts j;
      let dist := v_distanceTo pi pj in
      if dist >. lit_1e_9 then ret (energy +. lit_1 /. dist)
      else ret (energy +. lit_1e9)) energy) lit_0.

(** *** gradientDescent *)

Definition maxIter : nat := Z.to_nat 10000.

(** The variables of the [while] loop; [gd_energies] is a ghost history of
    the values [calculateEnergy] returned, oldest first. *)
Record GDState : Type := mkGDState {
  gd_iter : nat;
  gd_deltaEnergy : F;
  gd_currentEnergy : F;
  gd_energies : list F
}.

(** The first pair of loops of an iteration: the force accumulators.
    [forces], [diff] and [force] are objects local to the iteration, so
    they are kept as values. *)
Definition accumulateForces (pts : list loc) : M (list (Vector3 F)) :=
  for_range 0 (length pts) (fun i forces =>
    for_range (i + 1) (length pts) (fun j forces =>
      do pi <- point_at pts i;
      do pj <- point_at pts j;
      let diff := v_subVectors pi pj in
      let distSq := v_lengthSq diff in
      let dist := num_sqrt distSq in
      if dist >. lit_1e_9 then
        let forceMag := lit_1 /. (distSq *. dist) in
        let force := v_multiplyScalar diff forceMag in
        ret (alter (fun f => v_sub f force) j
               (alter (fun f => v_add f force) i forces))
      else ret forces) forces)
    (replicate (length pts) v_zero).

(** The second loop: project each force on the tangent plane, move the
    point and put it back on the sphere. *)
Definition movePoints (pts : list loc) (lr : F) (forces : list (Vector3 F)) : M unit :=
  for_range 0 (length pts) (fun i (_ : unit) =>
    do l <- at_index pts i;
    do normal <- read l;                          (* points[i].clone() *)
    do fi <- at_index forces i;
    let dot := v_dot fi normal in
    let fi' := v_sub fi (v_multiplyScalar normal dot) in
    modify l (fun p => v_addScaledVector p fi' lr);;
    modify l v_normalize) tt.

Definition gdIteration (pts : list loc) (lr : F) (st : GDState) : M GDState :=
  do forces <- accumulateForces pts;
  movePoints pts lr forces;;
  do newEnergy <- calculateEnergy pts;
  ret (mkGDState (S (gd_iter st))
         (num_abs (gd_currentEnergy st -. newEnergy))
         newEnergy
         (gd_energies st ++ [newEnergy])).

Definition gdContinue (g : Globals) (st : GDState) : bool :=
  (gd_deltaEnergy st >. g_convergenceThreshold g) && (gd_iter st <? maxIter)%nat.

(** The loop of [gradientDescent], with its final variables. *)
Definition gradientDescent_loop (fuel : nat) (g : Globals) (pts : list loc) (lr : F) : M GDState :=
  do currentEnergy <- calculateEnergy pts;
  while fuel (gdContinue g) (gdIteration pts lr)
    (mkGDState 0 num_Infinity currentEnergy [currentEnergy]).

Definition gradientDescent (g : Globals) (pts : list loc) (lr : F) : M unit :=
  gradientDescent_loop maxIter g pts lr;; ret tt.

(** *** updateBest *)

(* this.population.sort((a, b) => a.energy - b.energy) *)
Definition sort_by_energy (l : list Individual) : list Individual :=
  sort_by energy l.

(* points.map(p => p.clone()) *)
Definition clone_points (pts : list loc) : M (list loc) :=
  for_each pts (fun l acc =>
    do v <- read l;
    do l' <- new_Vector3 v;
    ret (acc ++ [l'])) [].

Definition updateBest (sim : ThomsonSimulation) : M ThomsonSimulation :=
  let sorted := sort_by_energy (population sim) in
  do first <- at_index sorted 0;
  if energy first <. bestEnergy sim then
    do copy <- clone_points (points first);
    ret (mkSimulation (n sim) (populationSize sim) sorted (Some copy) (energy first))
  else
    ret (mkSimulation (n sim) (populationSize sim) sorted (bestConfig sim) (bestEnergy sim)).

(** *** tournamentSelect, crossover, mutate *)

(** [best] is [null] or [undefined] (both [None]) or an individual, and
    [ind] is [undefined] when the index is no index of the array:
    [!best || ind.energy < best.energy] reads [ind.energy] only when [best]
    is an individual.  Both callers read [.points] of the result before
    anything else happens, which throws on [undefined]. *)
Definition tournamentSelect (sim : ThomsonSimulation) : M Individual :=
  do best <- for_range 0 3 (fun _ (best : option Individual) =>
    do r <- Math_random;
    let ind := get_number (population sim)
                 (num_floor (r *. num_of_nat (length (population sim)))) in
    match best, ind with
    | None, _ => ret ind
    | Some b, Some i => if energy i <. energy b then ret ind else ret best
    | Some _, None => throw
    end) None;
  match best with
  | Some b => ret b
  | None => throw
  end.

(** The scan of the trimming loop: the running minimum and [removeIdx]
    ([None] for -1). *)
Definition closestScan (child : list loc) : M (F * option nat) :=
  for_range 0 (length child) (fun i acc =>
    for_range (i + 1) (length child) (fun j '(minDist, removeIdx) =>
      do ci <- point_at child i;
      do cj <- point_at child j;
      let d := v_distanceTo ci cj in
      if d <. minDist then ret (d, Some i) else ret (minDist, removeIdx)) acc)
    (num_Infinity, None).

Definition trimStep (child : list loc) : M (list loc) :=
  do scan <- closestScan child;
  match snd scan with
  | Some i => ret (delete i child)                    (* splice(removeIdx, 1) *)
  | None => ret (take (length child - 1) child)       (* pop() *)
  end.

Definition padStep (child : list loc) : M (list loc) :=
  do p <- randomPointOnSphere;
  do l <- new_Vector3 p;
  ret (child ++ [l]).

(** The two [for ... of] loops of [crossover]. *)
Definition inheritFrom (keep : F -> bool) (normal : Vector3 F) (parent child : list loc)
  : M (list loc) :=
  for_each parent (fun l child =>
    do p <- read l;
    if keep (v_dot p normal) then
      do l' <- new_Vector3 p;                         (* p.clone() *)
      ret (child ++ [l'])
    else ret child) child.

Definition crossover (sim : ThomsonSimulation) (parentA parentB : list loc) : M (list loc) :=
  do normal <- randomPointOnSphere;
  do child <- inheritFrom (fun d => d >=. lit_0) normal parentA [];
  do child <- inheritFrom (fun d => d <. lit_0) normal parentB child;
  do child <- while (n sim - length child)
                (fun c => (length c <? n sim)%nat) padStep child;
  while (length child - n sim) (fun c => (n sim <? length c)%nat) trimStep child.

Definition mutate (g : Globals) (pts : list loc) : M unit :=
  do r <- Math_random;
  if r <. g_mutationRate g then
    do r' <- Math_random;
    let idx := num_floor (r' *. num_of_nat (length pts)) in
    do q <- randomPointOnSphere;
    let perturbation := v_multiplyScalar q lit_0_2 in
    do l <- at_number pts idx;
    modify l (fun p => v_add p perturbation);;
    modify l v_normalize
  else ret tt.

(** *** step *)

Definition with_population (sim : ThomsonSimulation) (pop : list Individual)
  : ThomsonSimulation :=
  mkSimulation (n sim) (populationSize sim) pop (bestConfig sim) (bestEnergy sim).

(** [arr[i] = a].  Writing at [arr.length] appends; a write further out
    would leave holes in the array, which a list cannot hold, so it is an
    error here.  [this.population.length] equals [this.populationSize]
    from the constructor on, and the index written is below it. *)
Definition array_set {A} (arr : list A) (i : nat) (a : A) : M (list A) :=
  if (i <? length arr)%nat then ret (<[i := a]> arr)
  else if (i =? length arr)%nat then ret (arr ++ [a])
  else throw.

(** The first loop of [step]: [gradientDescent] on every individual, then
    [ind.energy = calculateEnergy(ind.points)]. *)
Definition refineAll (g : Globals) (pop : list Individual) : M (list Individual) :=
  for_each pop (fun ind done =>
    gradientDescent g (points ind) (g_learningRate g);;
    do e <- calculateEnergy (points ind);
    ret (done ++ [mkIndividual (points ind) e])) [].

(** One round of the replacement loop.  Besides the simulation it returns
    the two parents [p1] and [p2] it selected (a ghost result). *)
Definition recombineOnce (g : Globals) (i : nat) (sim : ThomsonSimulation)
  : M (Individual * Individual * ThomsonSimulation) :=
  do p1 <- tournamentSelect sim;
  do p2 <- tournamentSelect sim;
  do childPoints <- crossover sim (points p1) (points p2);
  mutate g childPoints;;
  gradientDescent g childPoints (g_learningRate g *. lit_5);;
  do childEnergy <- calculateEnergy childPoints;
  let replaceIdx := (populationSize sim - 1 - i)%nat in
  do pop <- array_set (population sim) replaceIdx (mkIndividual childPoints childEnergy);
  ret (p1, p2, with_population sim pop).

(** The replacement loop, with the ghost log of the parents of each round. *)
Definition recombination (g : Globals) (sim : ThomsonSimulation)
  : M (ThomsonSimulation * list (Individual * Individual)) :=
  let numToReplace := (populationSize sim / 2)%nat in
  for_range 0 numToReplace (fun i '(sim, parents) =>
    do r <- recombineOnce g i sim;
    ret (snd r, parents ++ [(fst (fst r), snd (fst r))])) (sim, []).

Definition step (g : Globals) (sim : ThomsonSimulation) : M (F * ThomsonSimulation) :=
  let initialBestEnergy := bestEnergy sim in
  do pop <- refineAll g (population sim);
  do sim <- updateBest (with_population sim pop);
  do r <- recombination g sim;
  do sim <- updateBest (fst r);
  ret (num_abs (initialBestEnergy -. bestEnergy sim), sim).

(** *** The constructor *)

Definition initPopulation (g : Globals) (sim : ThomsonSimulation) : M ThomsonSimulation :=
  do pop <- for_range 0 (populationSize sim) (fun _ pop =>
    do config <- createRandomConfig (n sim);
    gradientDescent g config lit_0_1;;
    do e <- calculateEnergy config;
    ret (pop ++ [mkIndividual config e])) [];
  updateBest (with_population sim pop).

(* new ThomsonSimulation(n) *)
Definition new_ThomsonSimulation (g : Globals) (n : nat) : M ThomsonSimulation :=
  initPopulation g (mkSimulation n (g_populationSize g) [] None num_Infinity).

End ThomsonSimulation.

Arguments Globals F : clear implicits.
Arguments Individual F : clear implicits.
Arguments ThomsonSimulation F : clear implicits.
Arguments GDState F : clear implicits.

(** ** calculateEdgeGroups *)

Section EdgeGroups.
Context {F : Type} `{Number F} `{ToFixed F}.

(** [THREE.ConvexGeometry] is an add-on of three.js that the page may or
    may not have loaded: [None] when it is absent, otherwise the call
    [new THREE.ConvexGeometry(points)] followed by the read of
    [geometry.attributes.position.array], the flat array of the coordinates
    of the hull's triangles.  The constructor is code of the library: it
    calls [Math.random] (three.js gives every geometry a uuid) and it may
    throw on points it cannot build a hull from; what it returns and what it
    does to the world is left to the parameter. *)
Variable ConvexGeometry : option (list (Vector3 F) -> M F (list F)).

Record Edge : Type := mkEdge {
  e_start : Vector3 F;
  e_end : Vector3 F;
  e_len : F
}.

Record EdgeGroup : Type := mkEdgeGroup {
  g_len : F;
  g_edges : list Edge
}.

(* `${v.x.toFixed(4)},${v.y.toFixed(4)},${v.z.toFixed(4)}` *)
Definition getVertexKey (v : Vector3 F) : string :=
  (toFixed (vx v) 4 ++ "," ++ toFixed (vy v) 4 ++ "," ++ toFixed (vz v) 4)%string.

(** [uniqueEdges] is a [Map]: it keeps its entries in insertion order. *)
Definition map_has (m : list (string * Edge)) (k : string) : bool :=
  existsb (fun kv => String.eqb (fst kv) k) m.

Definition edgeKey (a b : Vector3 F) : string :=
  let ka := getVertexKey a in
  let kb := getVertexKey b in
  if String.ltb ka kb then (ka ++ "|" ++ kb)%string else (kb ++ "|" ++ ka)%string.

Definition processEdge (a b : Vector3 F) (uniqueEdges : list (string * Edge))
  : list (string * Edge) :=
  let ka := getVertexKey a in
  let kb := getVertexKey b in
  if String.eqb ka kb then uniqueEdges
  else
    let key := edgeKey a b in
    if map_has uniqueEdges key then uniqueEdges
    else uniqueEdges ++ [(key, mkEdge a b (v_distanceTo a b))].

(** [vertices[k]]; a read past the end is [undefined], which the
    constructor of [THREE.Vector3] replaces by its default 0. *)
Definition coordinate (vertices : list F) (k : nat) : F :=
  default lit_0 (vertices !! k).

Definition vertex_at (vertices : list F) (k : nat) : Vector3 F :=
  mkVector3 (coordinate vertices k) (coordinate vertices (k + 1))
    (coordinate vertices (k + 2)).

(** The body of [for (let i = 0; i < vertices.length; i += 9)]. *)
Definition processTriangle (vertices : list F) (i : nat)
    (uniqueEdges : list (string * Edge)) : list (string * Edge) :=
  let v1 := vertex_at vertices i in
  let v2 := vertex_at vertices (i + 3) in
  let v3 := vertex_at vertices (i + 6) in
  processEdge v3 v1 (processEdge v2 v3 (processEdge v1 v2 uniqueEdges)).

(** The values of [i] the loop takes: 0, 9, 18, ... below the length. *)
Definition triangleStarts (len : nat) : list nat :=
  map (fun k => 9 * k) (seq 0 ((len + 8) / 9)).

Definition collectEdges (vertices : list F) : list (string * Edge) :=
  fold_left (fun m i => processTriangle vertices i m)
    (triangleStarts (length vertices)) [].

(** The body of [edges.forEach]: first fit, else a new group. *)
Fixpoint addToGroup (edge : Edge) (groups : list EdgeGroup) : list EdgeGroup :=
  match groups with
  | [] => [mkEdgeGroup (e_len edge) [edge]]
  | g :: rest =>
      if num_abs (g_len g -. e_len edge) <. lit_1e_2
      then mkEdgeGroup (g_len g) (g_edges g ++ [edge]) :: rest
      else g :: addToGroup edge rest
  end.

Definition groupEdges (edges : list Edge) : list EdgeGroup :=
  fold_left (fun groups edge => addToGroup edge groups) edges [].

(* if (points.length < 4 || !THREE.ConvexGeometry) return []; *)
Definition calculateEdgeGroups (pts : list loc) : M F (list EdgeGroup) :=
  match (length pts <? 4)%nat, ConvexGeometry with
  | false, Some hull =>
      do values <- for_each pts (fun l acc => do v <- read l; ret (acc ++ [v])) [];
      do vertices <- hull values;
      let edges := map snd (collectEdges vertices) in
      ret (sort_by g_len (groupEdges edges))
  | _, _ => ret []
  end.

End EdgeGroups.

Arguments Edge F : clear implicits.
Arguments EdgeGroup F : clear implicits.

(** ** The page: animate *)

Section Page.
Context {F : Type} `{Number F} `{Trig F} `{ToFixed F}.
Variable ConvexGeometry : option (list (Vector3 F) -> M F (list F)).
Variable rnd : nat -> F.

(** The calls into three.js that build and draw the scene.  They are code
    of the library: its constructors call [Math.random] (every geometry,
    material and mesh gets a uuid) and may throw.  What a call does to the
    world is left to the parameter [three]; which meshes are built also
    depends on the visibility toggles and the line width, which the
    parameter stands for as well. *)
Inductive ThreeCall : Type :=
| point_meshes (points : list (Vector3 F))
    (* new SphereGeometry, new MeshPhongMaterial, and for each point
       new Mesh, mesh.position.copy(p), scene.add(mesh) *)
| hull_meshes (groups : list (EdgeGroup F))
    (* new Group, and for each visible group a material and for each of its
       edges new CylinderGeometry and new Mesh; scene.add(hullMesh) *)
| render_frame.
    (* controls.update(); renderer.render(scene, camera) *)

Variable three : ThreeCall -> M F unit.

(** What a frame writes to the document, in order.  The page reads none of
    it back, so it is kept as a log.  [edge_list] is the list that
    [renderEdgeList] fills, one item for each group. *)
Inductive Shown : Type :=
| frame_requested                          (* requestAnimationFrame(animate) *)
| energy_display (textContent : string)
| status_display (textContent : string)
| autoRotate (on : bool)                   (* controls.autoRotate = on *)
| edge_list (groups : list (EdgeGroup F))
| edge_list_container (display : string).

(** The globals [isRunning] and [simulation]. *)
Record Page : Type := mkPage {
  isRunning : bool;
  simulation : option (ThomsonSimulation F)
}.

(* if (!simulation || !simulation.bestConfig) return; *)
Definition updateVisualization (simulation : option (ThomsonSimulation F))
  : M F unit :=
  match simulation with
  | Some sim =>
      match bestConfig sim with
      | Some points =>
          do values <- for_each points (fun l acc => do v <- read l; ret (acc ++ [v])) [];
          three (point_meshes values);;
          do groups <- calculateEdgeGroups ConvexGeometry points;
          (* if (groups.length > 0) *)
          match groups with
          | [] => ret tt
          | _ :: _ => three (hull_meshes groups)
          end
      | None => ret tt
      end
  | None => ret tt
  end.

Definition renderEdgeList (simulation : option (ThomsonSimulation F))
  : M F (list Shown) :=
  match simulation with
  | Some sim =>
      match bestConfig sim with
      | Some points =>
          do groups <- calculateEdgeGroups ConvexGeometry points;
          ret [edge_list groups]
      | None => ret [edge_list []]
      end
  | None => ret [edge_list []]
  end.

(** One call of [animate], with the globals as they are at that frame. *)
Definition animate (g : Globals F) (page : Page) : M F (Page * list Shown) :=
  match isRunning page, simulation page with
  | true, Some sim =>
      do r <- step rnd g sim;
      let delta := fst r in
      let sim := snd r in
      updateVisualization (Some sim);;
      let shown := [frame_requested; energy_display (toFixed (bestEnergy sim) 6)] in
      if delta <. g_convergenceThreshold g then
        do list <- renderEdgeList (Some sim);
        three render_frame;;
        ret (mkPage false (Some sim),
             shown ++ [status_display "Converged"; autoRotate true] ++ list
             ++ [edge_list_container "block"])
      else
        three render_frame;;
        ret (mkPage true (Some sim), shown)
  | _, _ =>
      three render_frame;;
      ret (page, [frame_requested])
  end.

End Page.

Arguments ThreeCall F : clear implicits.
Arguments Shown F : clear implicits.
Arguments Page F : clear implicits.

(** * Reasoning about the effects *)

Section WP.
Context {F : Type}.
Local Abbreviation M := (M F).
Local Abbreviation World := (World F).

(** [wp m Q w]: run from [w], [m] returns normally with a result and a
    world that satisfy [Q]. *)
Definition wp {A} (m : M A) (Q : A -> World -> Prop) (w : World) : Prop :=
  match m w with
  | Done a w' => Q a w'
  | _ => False
  end.

Lemma wp_ret {A} (a : A) (Q : A -> World -> Prop) w : Q a w -> wp (ret a) Q w.
Proof. done. Qed.

Lemma wp_bind {A B} (m : M A) (k : A -> M B) (Q : B -> World -> Prop) w :
  wp m (fun a w' => wp (k a) Q w') w -> wp (bind m k) Q w.
Proof. unfold wp, bind. by destruct (m w). Qed.

Lemma wp_bind_inv {A B} (m : M A) (k : A -> M B) (Q : B -> World -> Prop) w :
  wp (bind m k) Q w -> wp m (fun a w' => wp (k a) Q w') w.
Proof. unfold wp, bind. by destruct (m w). Qed.

Lemma wp_mono {A} (m : M A) (P Q : A -> World -> Prop) w :
  wp m P w -> (forall a w', P a w' -> Q a w') -> wp m Q w.
Proof. unfold wp. destruct (m w); auto. Qed.

Lemma wp_done {A} (m : M A) (Q : A -> World -> Prop) w a w' :
  m w = Done a w' -> Q a w' -> wp m Q w.
Proof. unfold wp. by intros ->. Qed.

Lemma wp_elim {A} (m : M A) (Q : A -> World -> Prop) w :
  wp m Q w -> exists a w', m w = Done a w' /\ Q a w'.
Proof. unfold wp. destruct (m w); [eauto | done | done]. Qed.

Lemma wp_conj {A} (m : M A) (P Q : A -> World -> Prop) w :
  wp m P w -> wp m Q w -> wp m (fun a w' => P a w' /\ Q a w') w.
Proof. unfold wp. destruct (m w); auto. Qed.

(** The rule of [for ... of]: the invariant speaks of the elements
    already visited. *)
Lemma wp_for_each {A St} (I : list A -> St -> World -> Prop)
    (xs : list A) (body : A -> St -> M St) s w :
  I [] s w ->
  (forall visited x rest s w,
      xs = visited ++ x :: rest -> I visited s w ->
      wp (body x s) (I (visited ++ [x])) w) ->
  wp (for_each xs body s) (I xs) w.
Proof.
  intros H0 Hstep.
  enough (Hgen : forall rest visited s w,
             xs = visited ++ rest -> I visited s w ->
             wp (for_each rest body s) (I xs) w).
  { by apply (Hgen xs []). }
  clear s w H0. induction rest as [|x rest IH]; intros visited s w Hxs HI.
  - rewrite app_nil_r in Hxs. subst. by apply wp_ret.
  - simpl. apply wp_bind.
    eapply wp_mono; [by eapply Hstep|].
    intros s' w' HI'. apply (IH (visited ++ [x])); [|done].
    by rewrite <- app_assoc.
Qed.

(** The same rule for a counting loop. *)
Lemma wp_for_range {St} (I : nat -> St -> World -> Prop)
    (lo hi : nat) (body : nat -> St -> M St) s w :
  lo <= hi ->
  I lo s w ->
  (forall i s w, lo <= i < hi -> I i s w -> wp (body i s) (I (S i)) w) ->
  wp (for_range lo hi body s) (I hi) w.
Proof.
  intros Hle H0 Hstep. unfold for_range.
  eapply wp_mono.
  - apply (wp_for_each (fun visited s w => I (lo + length visited) s w)).
    + simpl. by rewrite Nat.add_0_r.
    + intros visited x rest s' w' Hseq HI.
      assert (x = lo + length visited) as ->.
      { assert (Hx : seq lo (hi - lo) !! length visited = Some x).
        { rewrite Hseq. by rewrite list_lookup_middle. }
        apply lookup_seq in Hx. lia. }
      assert (length visited < hi - lo).
      { apply (f_equal length) in Hseq.
        rewrite length_seq, length_app in Hseq. simpl in Hseq. lia. }
      rewrite length_app. simpl.
      replace (lo + (length visited + 1)) with (S (lo + length visited)) by lia.
      apply Hstep; [lia | done].
  - intros s' w'. simpl. rewrite length_seq.
    by replace (lo + (hi - lo)) with hi by lia.
Qed.

(** The rule of [while]: an invariant and a variant the fuel covers. *)
Lemma wp_while {St} (I : St -> World -> Prop) (variant : St -> nat)
    (cond : St -> bool) (body : St -> M St) fuel s w :
  I s w ->
  variant s <= fuel ->
  (forall s w, I s w -> cond s = true ->
     wp (body s) (fun s' w' => I s' w' /\ variant s' < variant s) w) ->
  wp (while fuel cond body s) (fun s' w' => I s' w' /\ cond s' = false) w.
Proof.
  intros HI Hfuel Hbody. revert s w HI Hfuel.
  induction fuel as [|fuel IH]; intros s w HI Hfuel; simpl.
  - destruct (cond s) eqn:Hc.
    + specialize (Hbody s w HI Hc). apply wp_elim in Hbody as (?&?&?&?&?). lia.
    + by apply wp_ret.
  - destruct (cond s) eqn:Hc; [|by apply wp_ret].
    apply wp_bind. eapply wp_mono; [by apply Hbody|].
    intros s' w' [HI' Hlt]. apply IH; [done | lia].
Qed.

End WP.

(** ** Loops that only read *)

Section PureLoops.
Context {F : Type}.
Local Abbreviation M := (M F).
Local Abbreviation World := (World F).

Lemma for_each_pure {A St} (xs : list A) (body : A -> St -> M St)
    (f : A -> St -> St) (w : World) s :
  (forall x s, x ∈ xs -> body x s w = Done (f x s) w) ->
  for_each xs body s w = Done (fold_left (fun s x => f x s) xs s) w.
Proof.
  revert s. induction xs as [|x xs IH]; intros s Hbody; [done|].
  simpl. unfold bind. rewrite Hbody by left.
  apply IH. intros y s' Hy. apply Hbody. by right.
Qed.

Lemma for_range_pure {St} (lo hi : nat) (body : nat -> St -> M St)
    (f : nat -> St -> St) (w : World) s :
  (forall i s, lo <= i < hi -> body i s w = Done (f i s) w) ->
  for_range lo hi body s w
  = Done (fold_left (fun s i => f i s) (seq lo (hi - lo)) s) w.
Proof.
  intros Hbody. apply for_each_pure. intros i s' Hi.
  apply elem_of_seq in Hi. apply Hbody. lia.
Qed.

(** The index pairs [(i, j)], [i < j < n], in the order in which the
    script's nested loops visit them. *)
Definition index_pairs (n : nat) : list (nat * nat) :=
  flat_map (fun i => map (pair i) (seq (i + 1) (n - (i + 1)))) (seq 0 n).

Lemma fold_left_flat_map {A B St} (g : A -> list B) (f : St -> B -> St) xs s :
  fold_left f (flat_map g xs) s
  = fold_left (fun s x => fold_left f (g x) s) xs s.
Proof.
  revert s. induction xs as [|x xs IH]; intros s; [done|].
  simpl. by rewrite fold_left_app, IH.
Qed.

Lemma fold_left_fmap {A B St} (g : A -> B) (f : St -> B -> St) xs s :
  fold_left f (map g xs) s = fold_left (fun s x => f s (g x)) xs s.
Proof. revert s. induction xs as [|x xs IH]; intros s; simpl; auto. Qed.

Lemma fold_left_ext_in {A St} (f g : St -> A -> St) xs s :
  (forall s x, x ∈ xs -> f s x = g s x) ->
  fold_left f xs s = fold_left g xs s.
Proof.
  revert s. induction xs as [|x xs IH]; intros s Hfg; [done|].
  simpl. rewrite Hfg by left. apply IH. intros. apply Hfg. by right.
Qed.

(** A body that only reads turns the nested loops over [i < j] into a
    fold over [index_pairs]. *)
Lemma pair_loops_pure {St} (n : nat) (body : nat -> nat -> St -> M St)
    (f : nat -> nat -> St -> St) (w : World) s :
  (forall i j s, i < j < n -> body i j s w = Done (f i j s) w) ->
  for_range 0 n (fun i s => for_range (i + 1) n (fun j s => body i j s) s) s w
  = Done (fold_left (fun s ij => f (fst ij) (snd ij) s) (index_pairs n) s) w.
Proof.
  intros Hbody.
  rewrite (for_range_pure 0 n _
    (fun i s => fold_left (fun s j => f i j s) (seq (i + 1) (n - (i + 1))) s)).
  - rewrite Nat.sub_0_r. unfold index_pairs. rewrite fold_left_flat_map.
    f_equal. apply fold_left_ext_in. intros s' i _.
    by rewrite fold_left_fmap.
  - intros i s' Hi. apply for_range_pure. intros j s'' Hj. apply Hbody. lia.
Qed.

Lemma flat_map_fmap {A B C} (g : A -> B) (h : B -> list C) xs :
  flat_map h (map g xs) = flat_map (fun x => h (g x)) xs.
Proof. induction xs as [|x xs IH]; simpl; [done | by rewrite IH]. Qed.

Lemma fmap_flat_map {A B C} (g : A -> list B) (h : B -> C) xs :
  map h (flat_map g xs) = flat_map (fun x => map h (g x)) xs.
Proof. induction xs as [|x xs IH]; simpl; [done | by rewrite map_app, IH]. Qed.

Lemma index_pairs_S (n : nat) :
  index_pairs (S n)
  = map (pair 0) (seq 1 n) ++ map (fun ij => (S (fst ij), S (snd ij))) (index_pairs n).
Proof.
  unfold index_pairs. rewrite <- cons_seq. simpl flat_map.
  rewrite Nat.sub_0_r. f_equal.
  rewrite <- seq_shift, flat_map_fmap, fmap_flat_map.
  apply flat_map_ext. intros i.
  rewrite map_map. simpl.
  by rewrite <- seq_shift, map_map.
Qed.

Lemma elem_of_index_pairs (n i j : nat) :
  (i, j) ∈ index_pairs n <-> i < j < n.
Proof.
  unfold index_pairs. rewrite list_elem_of_In, in_flat_map. split.
  - intros (i' & Hi' & Hin). apply in_map_iff in Hin as (j' & [= <- <-] & Hj').
    apply in_seq in Hi', Hj'. lia.
  - intros Hij. exists i. split; [apply in_seq; lia|].
    apply in_map_iff. exists j. split; [done|]. apply in_seq. lia.
Qed.

(** All unordered pairs of a list, the earlier element first. *)
Fixpoint unordered_pairs {A} (l : list A) : list (A * A) :=
  match l with
  | [] => []
  | a :: l' => map (pair a) l' ++ unordered_pairs l'
  end.

Lemma index_pairs_lookup {A} (d : A) (l : list A) :
  map (fun ij => (nth (fst ij) l d, nth (snd ij) l d)) (index_pairs (length l))
  = unordered_pairs l.
Proof.
  induction l as [|a l IH]; [done|].
  simpl length. rewrite index_pairs_S, map_app, !map_map. simpl. f_equal.
  - rewrite <- seq_shift, map_map. simpl.
    rewrite <- (map_map (fun j => nth j l d) (pair a)). f_equal.
    apply nth_ext with (d := d) (d' := d).
    + by rewrite length_map, length_seq.
    + intros k Hk. rewrite length_map, length_seq in Hk.
      rewrite (nth_indep _ d (nth 0 l d)) by (by rewrite length_map, length_seq).
      by rewrite (map_nth (fun j => nth j l d)), seq_nth.
  - exact IH.
Qed.

End PureLoops.

(** * The energy model *)

Section Energy.
Context {F : Type} `{Number F}.
Local Abbreviation World := (World F).

(** [stores w pts vals]: in [w] the objects named by [pts] have the
    values [vals], in order. *)
Definition stores (w : World) (pts : list loc) (vals : list (Vector3 F)) : Prop :=
  Forall2 (fun l v => heap w !! l = Some v) pts vals.

Lemma stores_length w pts vals : stores w pts vals -> length pts = length vals.
Proof. apply Forall2_length. Qed.

Lemma point_at_stores w pts vals i :
  stores w pts vals -> i < length pts ->
  point_at pts i w = Done (nth i vals v_zero) w.
Proof.
  intros Hst Hi. unfold point_at, at_index, bind.
  destruct (lookup_lt_is_Some_2 pts i Hi) as [l Hl]. rewrite Hl. simpl.
  destruct (Forall2_lookup_l _ _ _ _ _ Hst Hl) as (v & Hv & Hlv).
  unfold read. rewrite Hlv. f_equal.
  symmetry. apply nth_lookup_Some with (d := v_zero) in Hv. done.
Qed.

(** The specification's energy: what one pair contributes, and the sum over
    all unordered pairs, added up from 0 in the order of the pairs. *)
Definition pair_energy (p q : Vector3 F) : F :=
  let dist := v_distanceTo p q in
  if dist >. lit_1e_9 then lit_1 /. dist else lit_1e9.

Definition energy_sum (vals : list (Vector3 F)) : F :=
  fold_left (fun e pq => e +. pair_energy (fst pq) (snd pq))
    (unordered_pairs vals) lit_0.

Lemma calculateEnergy_energy_sum w pts vals :
  stores w pts vals -> calculateEnergy pts w = Done (energy_sum vals) w.
Proof.
  intros Hst. unfold calculateEnergy.
  rewrite (pair_loops_pure _ _
    (fun i j e => e +. pair_energy (nth i vals v_zero) (nth j vals v_zero))).
  - f_equal. unfold energy_sum.
    rewrite <- (index_pairs_lookup v_zero vals), fold_left_fmap.
    by rewrite (stores_length _ _ _ Hst).
  - intros i j e Hij. unfold bind.
    rewrite (point_at_stores w pts vals i), (point_at_stores w pts vals j)
      by (done || lia).
    unfold pair_energy. by destruct (_ <. _).
Qed.

End Energy.

(** * Facts about binary64 *)

Section Binary64.
Local Open Scope float_scope.

Lemma float_add_0_l (x : float) :
  Prim2SF x <> S754_zero true -> 0 + x = x.
Proof.
  intros Hx. apply Prim2SF_inj. rewrite add_spec.
  change (Prim2SF 0) with (S754_zero false).
  destruct (Prim2SF x) as [[]| | |]; try done.
Qed.

Lemma binary_round_aux_not_negzero mx ex lx :
  SpecFloat.binary_round_aux prec emax false mx ex lx <> S754_zero true.
Proof.
  unfold binary_round_aux.
  destruct (shr_fexp prec emax mx ex lx) as [mrs' e'].
  destruct (shr_fexp _ _ _ _ _) as [mrs'' e''].
  destruct (shr_m mrs''); try done.
  by destruct (_ <=? _)%Z.
Qed.

(** The inverse of a distance above 1e-9 is not the negative zero. *)
Lemma float_inverse_not_negzero (d : float) :
  (lit_1e_9 <? d) = true -> Prim2SF (1 / d) <> S754_zero true.
Proof.
  rewrite ltb_spec, div_spec.
  change (Prim2SF 1) with (S754_finite false 4503599627370496 (-52)).
  change (Prim2SF lit_1e_9) with (S754_finite false 4835703278458517 (-82)).
  unfold SFltb, SF64div, SFdiv.
  destruct (Prim2SF d) as [s|s|  |s m e]; simpl; try done.
  - by destruct s.
  - destruct s; [done|]. intros _.
    destruct (SFdiv_core_binary _ _ _ _ _ _) as [[mz ez] lz].
    apply binary_round_aux_not_negzero.
Qed.

(** [<] on binary64 is irreflexive and transitive (NaN included: it is
    below nothing and nothing is below it). *)
Definition lex_lt (e1 : Z) (m1 : positive) (e2 : Z) (m2 : positive) : Prop :=
  (e1 < e2)%Z \/ (e1 = e2 /\ (m1 < m2)%positive).

Lemma lex_compare_Lt e1 m1 e2 m2 :
  match (e1 ?= e2)%Z with
  | Lt => Lt
  | Gt => Gt
  | Eq => PosDef.Pos.compare_cont Eq m1 m2
  end = Lt <-> lex_lt e1 m1 e2 m2.
Proof.
  unfold lex_lt. change (PosDef.Pos.compare_cont Eq m1 m2) with (m1 ?= m2)%positive.
  destruct (Z.compare_spec e1 e2) as [->|?|?].
  - rewrite Pos.compare_lt_iff. split; [by right | intros [?|[_ ?]]; [lia | done]].
  - split; [by left | done].
  - split; [done | intros [?|[? _]]; lia].
Qed.

Lemma lex_compare_Gt e1 m1 e2 m2 :
  match (e1 ?= e2)%Z with
  | Lt => Gt
  | Gt => Lt
  | Eq => CompOpp (PosDef.Pos.compare_cont Eq m1 m2)
  end = Lt <-> lex_lt e2 m2 e1 m1.
Proof.
  unfold lex_lt. change (PosDef.Pos.compare_cont Eq m1 m2) with (m1 ?= m2)%positive.
  destruct (Z.compare_spec e1 e2) as [->|?|?].
  - destruct (Pos.compare_spec m1 m2) as [->|?|?]; simpl.
    + split; [done | intros [?|[_ ?]]; lia].
    + split; [done | intros [?|[_ ?]]; lia].
    + split; [by right | done].
  - split; [done | intros [?|[? _]]; lia].
  - split; [by left | done].
Qed.

Lemma lex_lt_trans e1 m1 e2 m2 e3 m3 :
  lex_lt e1 m1 e2 m2 -> lex_lt e2 m2 e3 m3 -> lex_lt e1 m1 e3 m3.
Proof. unfold lex_lt. lia. Qed.

Lemma lex_lt_irrefl e m : ~ lex_lt e m e m.
Proof. unfold lex_lt. lia. Qed.

Lemma SFltb_irrefl x : SFltb x x = false.
Proof.
  unfold SFltb. destruct x as [s|s| |s m e]; simpl; [by destruct s | by destruct s | done |].
  destruct s.
  - destruct (match (e ?= e)%Z with Lt => Gt | Gt => Lt | Eq => _ end) eqn:Hc; try done.
    apply lex_compare_Gt in Hc. by apply lex_lt_irrefl in Hc.
  - destruct (match (e ?= e)%Z with Lt => Lt | Gt => Gt | Eq => _ end) eqn:Hc; try done.
    apply lex_compare_Lt in Hc. by apply lex_lt_irrefl in Hc.
Qed.

Lemma SFltb_finite s1 m1 e1 s2 m2 e2 :
  SFltb (S754_finite s1 m1 e1) (S754_finite s2 m2 e2) = true <->
  match s1, s2 with
  | true, false => True
  | false, true => False
  | false, false => lex_lt e1 m1 e2 m2
  | true, true => lex_lt e2 m2 e1 m1
  end.
Proof.
  unfold SFltb. simpl. destruct s1, s2; try done.
  - rewrite <- lex_compare_Gt.
    destruct (match (e1 ?= e2)%Z with Lt => Gt | Gt => Lt | Eq => _ end); naive_solver.
  - rewrite <- lex_compare_Lt.
    destruct (match (e1 ?= e2)%Z with Lt => Lt | Gt => Gt | Eq => _ end); naive_solver.
Qed.

Lemma SFltb_trans x y z :
  SFltb x y = true -> SFltb y z = true -> SFltb x z = true.
Proof.
  destruct x as [sx|sx| |sx mx ex], y as [sy|sy| |sy my ey], z as [sz|sz| |sz mz ez];
    try (unfold SFltb; simpl; repeat match goal with s : bool |- _ => destruct s end;
         simpl; congruence).
  rewrite !SFltb_finite. destruct sx, sy, sz; try done; eauto using lex_lt_trans.
Qed.

Lemma float_ltb_irrefl (x : float) : (x <? x) = false.
Proof. rewrite ltb_spec. apply SFltb_irrefl. Qed.

Lemma float_ltb_trans (x y z : float) :
  (x <? y) = true -> (y <? z) = true -> (x <? z) = true.
Proof. rewrite !ltb_spec. apply SFltb_trans. Qed.

End Binary64.

(** * Rounding of binary64 differences

    The comparator of the script's sorts is a subtraction; that its sign
    agrees with [<] rests on the fact that rounding never takes a non-zero
    difference of two binary64 numbers to zero. *)

Section Rounding.
Local Open Scope Z_scope.

Lemma lex_lt_total e1 m1 e2 m2 :
  lex_lt e1 m1 e2 m2 \/ (e1 = e2 /\ m1 = m2) \/ lex_lt e2 m2 e1 m1.
Proof. unfold lex_lt. lia. Qed.

Lemma lex_lt_le_trans e1 m1 e2 m2 e3 m3 :
  lex_lt e1 m1 e2 m2 -> ~ lex_lt e3 m3 e2 m2 -> lex_lt e1 m1 e3 m3.
Proof. unfold lex_lt. lia. Qed.

Lemma lex_le_lt_trans e1 m1 e2 m2 e3 m3 :
  ~ lex_lt e2 m2 e1 m1 -> lex_lt e2 m2 e3 m3 -> lex_lt e1 m1 e3 m3.
Proof. unfold lex_lt. lia. Qed.

Lemma SFltb_finite_false s1 m1 e1 s2 m2 e2 :
  SFltb (S754_finite s1 m1 e1) (S754_finite s2 m2 e2) = false <->
  ~ match s1, s2 with
    | true, false => True
    | false, true => False
    | false, false => lex_lt e1 m1 e2 m2
    | true, true => lex_lt e2 m2 e1 m1
    end.
Proof.
  rewrite <- SFltb_finite. by destruct (SFltb _ _).
Qed.

(** [x < a] and not [b < a], [b] not a NaN, give [x < b]. *)
Lemma SFltb_lt_le_trans x a b :
  b <> S754_nan ->
  SFltb x a = true -> SFltb b a = false -> SFltb x b = true.
Proof.
  intros Hb.
  destruct x as [sx|sx| |sx mx ex], a as [sa|sa| |sa ma ea], b as [sb|sb| |sb mb eb];
    try done;
    try (unfold SFltb; simpl; repeat match goal with s : bool |- _ => destruct s end;
         simpl; congruence).
  rewrite !SFltb_finite, SFltb_finite_false.
  destruct sx, sa, sb; try done; try tauto.
  - intros H1 H2. eapply lex_le_lt_trans; eauto.
  - intros H1 H2. eapply lex_lt_le_trans; eauto.
Qed.


Lemma digits2_pos_bounds (m : positive) :
  2 ^ (Zpos (digits2_pos m) - 1) <= Zpos m < 2 ^ Zpos (digits2_pos m).
Proof.
  induction m as [m IH | m IH |]; simpl digits2_pos.
  - rewrite Pos2Z.inj_succ, (Pos2Z.inj_xI m).
    replace (Z.succ (Zpos (digits2_pos m)) - 1) with (Z.succ (Zpos (digits2_pos m) - 1)) by lia.
    rewrite !Z.pow_succ_r by lia. destruct IH as [H1 H2]. revert H1 H2.
    generalize (2 ^ (Zpos (digits2_pos m) - 1)) (2 ^ Zpos (digits2_pos m)).
    intros; lia.
  - rewrite Pos2Z.inj_succ, (Pos2Z.inj_xO m).
    replace (Z.succ (Zpos (digits2_pos m)) - 1) with (Z.succ (Zpos (digits2_pos m) - 1)) by lia.
    rewrite !Z.pow_succ_r by lia. destruct IH as [H1 H2]. revert H1 H2.
    generalize (2 ^ (Zpos (digits2_pos m) - 1)) (2 ^ Zpos (digits2_pos m)).
    intros; lia.
  - simpl. lia.
Qed.

Lemma shr_1_m mrs : 0 <= shr_m mrs -> shr_m (shr_1 mrs) = shr_m mrs / 2.
Proof.
  destruct mrs as [m r s]. simpl. intros Hm.
  destruct m as [|p|p]; [done | | lia].
  destruct p as [p|p|]; simpl shr_m.
  - rewrite (Pos2Z.inj_xI p). apply Z.div_unique with (r := 1); lia.
  - rewrite (Pos2Z.inj_xO p). apply Z.div_unique with (r := 0); lia.
  - done.
Qed.

Lemma iter_shr_1_m p : forall mrs,
  0 <= shr_m mrs -> shr_m (SpecFloat.iter_pos shr_1 p mrs) = shr_m mrs / 2 ^ Zpos p.
Proof.
  induction p as [p IH | p IH |]; intros mrs Hm; simpl SpecFloat.iter_pos.
  - assert (H1 : 0 <= shr_m (shr_1 mrs)).
    { rewrite shr_1_m by done. apply Z.div_pos; lia. }
    assert (H2 : 0 <= shr_m (SpecFloat.iter_pos shr_1 p (shr_1 mrs))).
    { rewrite IH by done. apply Z.div_pos; [done|]. apply Z.pow_pos_nonneg; lia. }
    rewrite IH, IH, shr_1_m by done.
    rewrite !Z.div_div by (try apply Z.pow_pos_nonneg; lia).
    f_equal. rewrite (Pos2Z.inj_xI p).
    replace (2 * Zpos p + 1) with (1 + Zpos p + Zpos p) by lia.
    rewrite !Z.pow_add_r by lia. lia.
  - assert (H2 : 0 <= shr_m (SpecFloat.iter_pos shr_1 p mrs)).
    { rewrite IH by done. apply Z.div_pos; [done|]. apply Z.pow_pos_nonneg; lia. }
    rewrite IH, IH by done.
    rewrite !Z.div_div by (try apply Z.pow_pos_nonneg; lia).
    f_equal. rewrite (Pos2Z.inj_xO p).
    replace (2 * Zpos p) with (Zpos p + Zpos p) by lia.
    rewrite !Z.pow_add_r by lia. lia.
  - rewrite shr_1_m by done. done.
Qed.

Lemma shr_record_of_loc_m m l : shr_m (shr_record_of_loc m l) = m.
Proof. by destruct l as [|[]]. Qed.

Lemma shr_fexp_pos m e l :
  0 < m -> emin <= e ->
  0 < shr_m (fst (shr_fexp prec emax m e l)) /\ emin <= snd (shr_fexp prec emax m e l).
Proof.
  intros Hm He. unfold shr_fexp, shr.
  destruct m as [|p|p]; [lia | | lia]. simpl Zdigits2.
  destruct (fexp prec emax (Zpos (digits2_pos p) + e) - e) as [|n|n] eqn:Hn; simpl;
    rewrite ?shr_record_of_loc_m; try (split; lia).
  unfold fexp in Hn. change (SpecFloat.emin prec emax) with emin in Hn.
  assert (Hd : Zpos n = Zpos (digits2_pos p) - prec) by lia.
  rewrite iter_shr_1_m by (rewrite shr_record_of_loc_m; lia).
  rewrite shr_record_of_loc_m. split; [|lia].
  apply Z.div_str_pos. split; [apply Z.pow_pos_nonneg; lia|].
  pose proof (digits2_pos_bounds p) as [Hlo _].
  etrans; [|exact Hlo]. apply Z.pow_le_mono_r; [lia|].
  rewrite Hd. change prec with 53. lia.
Qed.

Lemma round_nearest_even_ge mx lx : mx <= round_nearest_even mx lx.
Proof.
  destruct lx as [|[]]; simpl; try lia. destruct (Z.even mx); lia.
Qed.

Lemma binary_round_aux_positive mx ex lx :
  0 < mx -> emin <= ex ->
  SFltb (S754_zero false) (binary_round_aux prec emax false mx ex lx) = true.
Proof.
  intros Hm He. unfold binary_round_aux.
  pose proof (shr_fexp_pos mx ex lx Hm He) as [Hm1 He1].
  destruct (shr_fexp prec emax mx ex lx) as [mrs' e']. simpl in Hm1, He1.
  pose proof (round_nearest_even_ge (shr_m mrs') (loc_of_shr_record mrs')) as Hr.
  pose proof (shr_fexp_pos (round_nearest_even (shr_m mrs') (loc_of_shr_record mrs'))
                e' loc_Exact) as Hm2.
  destruct (shr_fexp prec emax _ e' loc_Exact) as [mrs'' e''].
  destruct Hm2 as [Hm2 _]; [lia | done |]. simpl in Hm2.
  destruct (shr_m mrs''); [lia | | lia].
  by destruct (_ <=? _).
Qed.

Lemma binary_round_aux_negative mx ex lx :
  SFltb (S754_zero false) (binary_round_aux prec emax true mx ex lx) = false.
Proof.
  unfold binary_round_aux.
  destruct (shr_fexp prec emax mx ex lx) as [mrs' e'].
  destruct (shr_fexp prec emax _ e' loc_Exact) as [mrs'' e''].
  destruct (shr_m mrs''); try done. by destruct (_ <=? _).
Qed.

Lemma shl_align_fexp_emin m e :
  emin <= e ->
  emin <= snd (shl_align m e (fexp prec emax (Zpos (digits2_pos m) + e))).
Proof.
  intros He. unfold shl_align.
  destruct (fexp prec emax _ - e) eqn:Hd; simpl; try done.
  unfold fexp. change (SpecFloat.emin prec emax) with emin. lia.
Qed.

Lemma binary_normalize_sign d e :
  emin <= e ->
  SFltb (S754_zero false) (binary_normalize prec emax d e false) = (0 <? d).
Proof.
  intros He. destruct d as [|p|p]; simpl binary_normalize; [done | |].
  - unfold binary_round.
    pose proof (shl_align_fexp_emin p e He) as Hz.
    destruct (shl_align p e _) as [mz ez]. simpl in Hz.
    by rewrite binary_round_aux_positive.
  - unfold binary_round. destruct (shl_align p e _) as [mz ez].
    by rewrite binary_round_aux_negative.
Qed.

Lemma shl_align_value m e e' :
  e' <= e -> Zpos (fst (shl_align m e e')) = Zpos m * 2 ^ (e - e').
Proof.
  intros He. unfold shl_align.
  destruct (e' - e) as [|d|d] eqn:Hd; simpl fst.
  - replace (e - e') with 0 by lia. lia.
  - lia.
  - replace (e - e') with (Zpos d) by lia.
    change (PosDef.Pos.iter xO m d) with (shift_pos d m).
    rewrite shift_pos_correct, Zpower_pos_powerRZ || rewrite shift_pos_correct.
    rewrite Z.mul_comm. f_equal.
Qed.

Lemma canonical_facts m e :
  canonical_mantissa prec emax m e = true ->
  emin <= e /\ Zpos (digits2_pos m) <= prec
  /\ (emin < e -> Zpos (digits2_pos m) = prec).
Proof.
  unfold canonical_mantissa, fexp. change (SpecFloat.emin prec emax) with emin.
  intros Hc%Z.eqb_eq. lia.
Qed.

(** On canonical mantissas the lexicographic order of (exponent, mantissa)
    is the order of the values. *)
Lemma canonical_lex mx ex my ey :
  canonical_mantissa prec emax mx ex = true ->
  canonical_mantissa prec emax my ey = true ->
  lex_lt ey my ex mx <->
  Zpos my * 2 ^ (ey - Z.min ex ey) < Zpos mx * 2 ^ (ex - Z.min ex ey).
Proof.
  intros (Hex & Hdx & Hnx)%canonical_facts (Hey & Hdy & Hny)%canonical_facts.
  pose proof (digits2_pos_bounds mx) as [Hxlo Hxhi].
  pose proof (digits2_pos_bounds my) as [Hylo Hyhi].
  assert (Hmono : forall a b, 0 <= a <= b -> 2 ^ a <= 2 ^ b)
    by (intros; apply Z.pow_le_mono_r; lia).
  assert (Hstep : forall a b m m' : positive,
            Zpos (digits2_pos m) = prec -> Zpos (digits2_pos m') <= prec ->
            2 ^ (Zpos (digits2_pos m) - 1) <= Zpos m ->
            Zpos m' < 2 ^ Zpos (digits2_pos m') ->
            forall k, 1 <= k -> Zpos m' < Zpos m * 2 ^ k).
  { intros _ _ m m' Hd Hd' Hlo Hhi k Hk.
    assert (2 ^ Zpos (digits2_pos m') <= 2 ^ prec) by (apply Hmono; lia).
    assert (2 ^ 1 <= 2 ^ k) by (apply Hmono; lia).
    assert (Hp : 2 ^ prec = 2 ^ (prec - 1) * 2 ^ 1).
    { change prec with 53. reflexivity. }
    rewrite Hd in Hlo.
    assert (2 ^ (prec - 1) * 2 ^ 1 <= Zpos m * 2 ^ k).
    { apply Z.mul_le_mono_nonneg; try lia; apply Z.pow_nonneg; lia. }
    lia. }
  unfold lex_lt. destruct (Z.lt_trichotomy ey ex) as [Hlt | [Heq | Hgt]].
  - rewrite Z.min_r by lia. rewrite Z.sub_diag. simpl (2 ^ 0). rewrite Z.mul_1_r.
    split; [intros _ | by left].
    apply (Hstep xH xH mx my); try done; [apply Hnx|]; lia.
  - subst. rewrite Z.min_id, Z.sub_diag. simpl (2 ^ 0). rewrite !Z.mul_1_r.
    split; [intros [? | [_ ?]]; lia | intros ?; right; split; [done|lia]].
  - rewrite Z.min_l by lia. rewrite Z.sub_diag. simpl (2 ^ 0). rewrite Z.mul_1_r.
    assert (Zpos mx < Zpos my * 2 ^ (ey - ex)).
    { apply (Hstep xH xH my mx); try done; [apply Hny|]; lia. }
    split; [intros [? | [? _]]; lia | lia].
Qed.

Lemma valid_finite s m e :
  valid_binary (S754_finite s m e) = true -> canonical_mantissa prec emax m e = true.
Proof. simpl. unfold bounded. by intros [? _]%andb_prop. Qed.

Lemma SFsub_positive A B :
  valid_binary A = true -> valid_binary B = true ->
  SFltb (S754_zero false) (SFsub prec emax A B) = SFltb B A.
Proof.
  intros HA HB.
  destruct A as [sa|sa| |sa ma ea], B as [sb|sb| |sb mb eb];
    try (unfold SFltb; simpl; repeat match goal with s : bool |- _ => destruct s end;
         reflexivity).
  apply valid_finite in HA, HB.
  pose proof (canonical_facts _ _ HA) as (Hea & _).
  pose proof (canonical_facts _ _ HB) as (Heb & _).
  unfold SFsub. rewrite binary_normalize_sign by lia.
  rewrite !shl_align_value by lia.
  pose proof (canonical_lex ma ea mb eb HA HB) as Hab.
  pose proof (canonical_lex mb eb ma ea HB HA) as Hba.
  rewrite (Z.min_comm eb ea) in Hba.
  assert (Hpa : 0 < Zpos ma * 2 ^ (ea - Z.min ea eb))
    by (apply Z.mul_pos_pos; [lia | apply Z.pow_pos_nonneg; lia]).
  assert (Hpb : 0 < Zpos mb * 2 ^ (eb - Z.min ea eb))
    by (apply Z.mul_pos_pos; [lia | apply Z.pow_pos_nonneg; lia]).
  revert Hab Hba Hpa Hpb.
  generalize (Zpos ma * 2 ^ (ea - Z.min ea eb)) (Zpos mb * 2 ^ (eb - Z.min ea eb)).
  intros X Y Hab Hba Hpa Hpb.
  destruct (SFltb (S754_finite sb mb eb) (S754_finite sa ma ea)) eqn:Hlt.
  - apply SFltb_finite in Hlt. apply Z.ltb_lt.
    destruct sa, sb; simpl cond_Zopp; try done; try lia.
    + apply Hba in Hlt. lia.
    + apply Hab in Hlt. lia.
  - apply SFltb_finite_false in Hlt. apply Z.ltb_ge.
    destruct sa, sb; simpl cond_Zopp; try tauto; try lia.
    + rewrite Hba in Hlt. lia.
    + rewrite Hab in Hlt. lia.
Qed.

Lemma SFcompare_antisym a b :
  SFcompare b a = option_map CompOpp (SFcompare a b).
Proof.
  destruct a as [sa|sa| |sa ma ea], b as [sb|sb| |sb mb eb]; simpl;
    repeat match goal with s : bool |- _ => destruct s end; try reflexivity.
  all: rewrite (Z.compare_antisym ea eb); destruct (ea ?= eb)%Z; simpl; try reflexivity.
  all: change (PosDef.Pos.compare_cont Eq mb ma) with (mb ?= ma)%positive;
    change (PosDef.Pos.compare_cont Eq ma mb) with (ma ?= mb)%positive;
    rewrite (Pos.compare_antisym ma mb); by destruct (ma ?= mb)%positive.
Qed.

Lemma SFleb_not_ltb a b :
  a <> S754_nan -> b <> S754_nan -> SFltb b a = false -> SFleb a b = true.
Proof.
  intros Ha Hb. unfold SFltb, SFleb. rewrite (SFcompare_antisym a b).
  destruct (SFcompare a b) as [[]|] eqn:Hc; simpl; try done.
  destruct a, b; simpl in Hc; try done;
    repeat match goal with s : bool |- _ => destruct s end; done.
Qed.

End Rounding.

Section Binary64Order.
Local Open Scope float_scope.

(** [a - b > 0] exactly when [b < a]: the comparator of the script's sorts
    orders two Numbers as [<] does. *)
Lemma float_sub_positive (a b : float) : (0 <? a - b) = (b <? a).
Proof.
  rewrite !ltb_spec, sub_spec. change (Prim2SF 0) with (S754_zero false).
  apply SFsub_positive; apply Prim2SF_valid.
Qed.

Lemma float_not_nan (b : float) : (b <=? b) = true -> Prim2SF b <> S754_nan.
Proof. rewrite leb_spec. intros Hle Hn. by rewrite Hn in Hle. Qed.

Lemma float_lt_le_trans (x a b : float) :
  (b <=? b) = true -> (x <? a) = true -> (b <? a) = false -> (x <? b) = true.
Proof.
  intros Hb%float_not_nan. rewrite !ltb_spec. by apply SFltb_lt_le_trans.
Qed.

Lemma float_leb_not_ltb (a b : float) :
  (a <=? a) = true -> (b <=? b) = true -> (b <? a) = false -> (a <=? b) = true.
Proof.
  intros Ha%float_not_nan Hb%float_not_nan. rewrite ltb_spec, leb_spec.
  by apply SFleb_not_ltb.
Qed.

End Binary64Order.

(** C1.  On binary64, [calculateEnergy] returns the sum over all unordered
    pairs [i < j] of [1 / distance], a pair whose distance does not exceed
    1e-9 contributing 1e9 instead; it returns 0 for no point or one point,
    and for two points exactly what their pair contributes: [1 / distance]
    when the distance exceeds 1e-9, the penalty 1e9 otherwise. *)
Theorem calculateEnergy_pair_sum (w : World float) (pts : list loc)
    (vals : list (Vector3 float)) :
  stores w pts vals ->
  calculateEnergy pts w = Done (energy_sum vals) w
  /\ (length vals <= 1 -> energy_sum vals = 0%float)
  /\ (forall p0 p1, vals = [p0; p1] ->
        energy_sum vals =
          if PrimFloat.ltb lit_1e_9 (v_distanceTo p0 p1)
          then PrimFloat.div 1 (v_distanceTo p0 p1)
          else 1e9%float).
Proof.
  intros Hst. split; [by apply calculateEnergy_energy_sum|]. split.
  - intros Hlen. destruct vals as [|p [|q vals]]; simpl in Hlen; [done | done | lia].
  - intros p0 p1 ->. unfold energy_sum, pair_energy. simpl.
    destruct (PrimFloat.ltb _ _) eqn:Hd.
    + apply float_add_0_l. by apply float_inverse_not_negzero.
    + reflexivity.
Qed.

Lemma calculateEnergy_pair_sum_witness :
  calculateEnergy [0; 1]
    (mkWorld [mkVector3 1 0 0; mkVector3 0 1 0]%float 0)
  = Done (energy_sum [mkVector3 1 0 0; mkVector3 0 1 0]%float)
      (mkWorld [mkVector3 1 0 0; mkVector3 0 1 0]%float 0).
Proof.
  apply (calculateEnergy_pair_sum
           (mkWorld [mkVector3 1 0 0; mkVector3 0 1 0]%float 0) [0; 1]
           [mkVector3 1 0 0; mkVector3 0 1 0]%float).
  repeat constructor.
Defined.

(** * The local optimizer *)

Section GradientDescent.
Context {F : Type} `{Number F}.
Local Abbreviation World := (World F).
Local Abbreviation M := (M F).

(** Every location of [pts] names an allocated object. *)
Definition valid (w : World) (pts : list loc) : Prop :=
  Forall (fun l => l < length (heap w)) pts.

Lemma valid_stores w pts : valid w pts -> exists vals, stores w pts vals.
Proof.
  induction 1 as [|l pts Hl _ [vals IH]]; [exists []; constructor|].
  destruct (lookup_lt_is_Some_2 _ _ Hl) as [v Hv].
  exists (v :: vals). by constructor.
Qed.

Lemma stores_valid w pts vals : stores w pts vals -> valid w pts.
Proof.
  induction 1 as [|l v pts vals Hl _ IH]; constructor; [|done].
  by eapply lookup_lt_Some.
Qed.

(** [updates pts w w']: from [w] to [w'] no object was allocated, no random
    number drawn, and only objects of [pts] may have changed. *)
Definition updates (pts : list loc) (w w' : World) : Prop :=
  length (heap w') = length (heap w)
  /\ draws w' = draws w
  /\ forall l, l ∉ pts -> heap w' !! l = heap w !! l.

Lemma updates_refl pts w : updates pts w w.
Proof. by repeat split. Qed.

Lemma updates_trans pts w1 w2 w3 :
  updates pts w1 w2 -> updates pts w2 w3 -> updates pts w1 w3.
Proof.
  intros (Hl1 & Hd1 & Hf1) (Hl2 & Hd2 & Hf2).
  split; [congruence|]. split; [congruence|].
  intros l Hl. by rewrite Hf2, Hf1.
Qed.

Lemma updates_valid pts pts' w w' : updates pts w w' -> valid w pts' -> valid w' pts'.
Proof. intros (Hl & _) Hv. unfold valid. by rewrite Hl. Qed.

Lemma wp_modify (l : loc) (f : Vector3 F -> Vector3 F) pts w :
  l ∈ pts -> l < length (heap w) ->
  wp (modify l f)
    (fun _ w' => updates pts w w'
                 /\ heap w' !! l = f <$> heap w !! l) w.
Proof.
  intros Hin Hl. unfold wp, modify.
  destruct (lookup_lt_is_Some_2 _ _ Hl) as [v Hv]. rewrite Hv.
  unfold updates. simpl.
  split; [split; [|split]|].
  - by rewrite length_insert.
  - done.
  - intros l' Hl'. rewrite list_lookup_insert_ne; [done|]. by intros ->.
  - by rewrite list_lookup_insert_eq.
Qed.

Lemma calculateEnergy_total w pts :
  valid w pts -> exists e, calculateEnergy pts w = Done e w.
Proof.
  intros Hv. destruct (valid_stores _ _ Hv) as [vals Hst].
  eexists. by apply calculateEnergy_energy_sum.
Qed.

(** What one pair adds to the force accumulators. *)
Definition force_step (vals : list (Vector3 F)) (i j : nat)
    (forces : list (Vector3 F)) : list (Vector3 F) :=
  let diff := v_subVectors (nth i vals v_zero) (nth j vals v_zero) in
  let distSq := v_lengthSq diff in
  let dist := num_sqrt distSq in
  if dist >. lit_1e_9 then
    let forceMag := lit_1 /. (distSq *. dist) in
    let force := v_multiplyScalar diff forceMag in
    alter (fun f => v_sub f force) j (alter (fun f => v_add f force) i forces)
  else forces.

Definition forces_of (vals : list (Vector3 F)) : list (Vector3 F) :=
  fold_left (fun fs ij => force_step vals (fst ij) (snd ij) fs)
    (index_pairs (length vals)) (replicate (length vals) v_zero).

Lemma accumulateForces_forces_of w pts vals :
  stores w pts vals -> accumulateForces pts w = Done (forces_of vals) w.
Proof.
  intros Hst. unfold accumulateForces.
  rewrite (pair_loops_pure _ _ (fun i j fs => force_step vals i j fs)).
  - unfold forces_of. by rewrite (stores_length _ _ _ Hst).
  - intros i j fs Hij. unfold bind.
    rewrite (point_at_stores w pts vals i), (point_at_stores w pts vals j)
      by (done || lia).
    unfold force_step. by destruct (_ <. _).
Qed.

Lemma force_step_length vals i j fs : length (force_step vals i j fs) = length fs.
Proof.
  unfold force_step. destruct (_ <. _); [|done]. by rewrite !length_alter.
Qed.

Lemma forces_of_length vals : length (forces_of vals) = length vals.
Proof.
  unfold forces_of.
  generalize (index_pairs (length vals)) as ps.
  assert (Hr : length (replicate (length vals) (@v_zero F _)) = length vals)
    by apply length_replicate.
  revert Hr. generalize (replicate (length vals) (@v_zero F _)) as fs.
  intros fs Hr ps. revert fs Hr.
  induction ps as [|p ps IH]; intros fs Hr; [done|].
  simpl. apply IH. by rewrite force_step_length.
Qed.

Lemma movePoints_updates w pts lr forces :
  valid w pts -> length forces = length pts ->
  wp (movePoints pts lr forces) (fun _ w' => updates pts w w') w.
Proof.
  intros Hv Hlen. unfold movePoints.
  apply (wp_for_range (fun _ _ w' => updates pts w w')); [lia | apply updates_refl |].
  intros i [] w1 Hi Hup.
  destruct (lookup_lt_is_Some_2 pts i) as [l Hl]; [lia|].
  destruct (lookup_lt_is_Some_2 forces i) as [fi Hfi]; [lia|].
  assert (Hin : l ∈ pts) by (by eapply list_elem_of_lookup_2).
  assert (Hl1 : l < length (heap w1)).
  { apply (updates_valid _ _ _ _ Hup) in Hv.
    by apply (proj1 (Forall_forall _ _) Hv). }
  apply wp_bind. unfold at_index at 1. rewrite Hl. apply wp_ret.
  apply wp_bind. unfold wp at 1, read.
  destruct (lookup_lt_is_Some_2 _ _ Hl1) as [p Hp]. rewrite Hp.
  apply wp_bind. unfold at_index. rewrite Hfi. apply wp_ret.
  apply wp_bind. eapply wp_mono; [by apply (wp_modify l _ pts)|].
  intros [] w2 [Hup2 _].
  eapply wp_mono; [apply (wp_modify l _ pts); [done|]|].
  - destruct Hup2 as (-> & _). done.
  - intros [] w3 [Hup3 _]. eauto using updates_trans.
Qed.

Lemma wp_calculateEnergy w pts (Q : F -> World -> Prop) :
  valid w pts ->
  (forall e, calculateEnergy pts w = Done e w -> Q e w) ->
  wp (calculateEnergy pts) Q w.
Proof.
  intros Hv HQ. destruct (calculateEnergy_total _ _ Hv) as [e He].
  eapply wp_done; eauto.
Qed.

(** One iteration moves only the points it was given and appends the
    energy it evaluates to the history. *)
Lemma wp_gdIteration w pts lr st :
  valid w pts ->
  wp (gdIteration pts lr st)
    (fun st' w' =>
       updates pts w w'
       /\ exists e, calculateEnergy pts w' = Done e w'
          /\ st' = mkGDState (S (gd_iter st))
                     (num_abs (gd_currentEnergy st -. e)) e
                     (gd_energies st ++ [e])) w.
Proof.
  intros Hv. unfold gdIteration.
  destruct (valid_stores _ _ Hv) as [vals Hst].
  apply wp_bind. eapply wp_done; [by apply accumulateForces_forces_of|].
  apply wp_bind. eapply wp_mono.
  { apply movePoints_updates; [done|].
    by rewrite forces_of_length, (stores_length _ _ _ Hst). }
  intros [] w1 Hup. apply wp_bind.
  apply wp_calculateEnergy; [by eapply updates_valid|].
  intros e He. apply wp_ret. eauto.
Qed.

(** The absolute energy change that ended iteration [k], read from the
    history of evaluations; before the first iteration the variable
    [deltaEnergy] holds [Infinity]. *)
Definition delta_at (energies : list F) (k : nat) : F :=
  match k with
  | 0 => num_Infinity
  | S k' => num_abs (nth k' energies lit_0 -. nth k energies lit_0)
  end.

Lemma delta_at_app energies e k :
  k < length energies -> delta_at (energies ++ [e]) k = delta_at energies k.
Proof.
  intros Hk. destruct k as [|k]; [done|]. simpl.
  by rewrite !app_nth1 by lia.
Qed.

(** What the loop maintains. *)
Record gd_invariant (g : Globals F) (st : GDState F) : Prop := {
  gd_inv_length : length (gd_energies st) = S (gd_iter st);
  gd_inv_iter : gd_iter st <= maxIter;
  gd_inv_current : gd_currentEnergy st = nth (gd_iter st) (gd_energies st) lit_0;
  gd_inv_delta : gd_deltaEnergy st = delta_at (gd_energies st) (gd_iter st);
  gd_inv_before : forall k, k < gd_iter st ->
    (delta_at (gd_energies st) k >. g_convergenceThreshold g) = true
}.

Lemma gd_invariant_init g e : gd_invariant g (mkGDState 0 num_Infinity e [e]).
Proof. split; simpl; [done | lia | done | done | lia]. Qed.

Lemma gd_invariant_step g st e :
  gd_invariant g st -> gdContinue g st = true ->
  gd_invariant g (mkGDState (S (gd_iter st))
                    (num_abs (gd_currentEnergy st -. e)) e (gd_energies st ++ [e])).
Proof.
  intros [Hlen Hiter Hcur Hdelta Hbefore] Hc.
  apply andb_prop in Hc as [Hthr Hlt]. apply Nat.ltb_lt in Hlt.
  split; simpl.
  - rewrite length_app. simpl. lia.
  - lia.
  - rewrite app_nth2 by lia. by rewrite Hlen, Nat.sub_diag.
  - rewrite app_nth1 by lia. rewrite app_nth2 by lia.
    by rewrite Hlen, Nat.sub_diag, Hcur.
  - intros k Hk. rewrite delta_at_app by lia.
    destruct (decide (k = gd_iter st)) as [->|]; [by rewrite <- Hdelta|].
    apply Hbefore. lia.
Qed.

Lemma wp_gradientDescent_loop g pts lr w :
  valid w pts ->
  wp (gradientDescent_loop maxIter g pts lr)
    (fun st w' => updates pts w w' /\ gd_invariant g st
                  /\ calculateEnergy pts w' = Done (gd_currentEnergy st) w'
                  /\ gdContinue g st = false) w.
Proof.
  intros Hv. unfold gradientDescent_loop.
  apply wp_bind, wp_calculateEnergy; [done|]. intros e0 He0.
  eapply wp_mono.
  - apply (wp_while
             (fun st w' => updates pts w w' /\ gd_invariant g st
                /\ calculateEnergy pts w' = Done (gd_currentEnergy st) w')
             (fun st => maxIter - gd_iter st)).
    + split; [apply updates_refl | split; [apply gd_invariant_init | done]].
    + cbn [gd_iter]. lia.
    + intros st w1 (Hup & Hinv & _) Hc.
      eapply wp_mono; [apply wp_gdIteration; by eapply updates_valid|].
      intros st' w2 (Hup2 & e & He & ->). cbn [gd_iter gd_currentEnergy].
      split; [split; [|split]|].
      * by eapply updates_trans.
      * by apply gd_invariant_step.
      * done.
      * apply andb_prop in Hc as [_ Hlt]. apply Nat.ltb_lt in Hlt. lia.
  - intros st w' [(Hup & Hinv & He) Hc]. done.
Qed.

End GradientDescent.

(** C9.  Every call of [gradientDescent] on allocated points returns
    normally.  Its loop runs at most 10000 iterations; every iteration that
    ran was entered with an absolute energy change above the convergence
    threshold, and the loop stopped at the first change that was not above
    it, or else at the cap, which is a normal return like any other: the
    points stay as the last iteration left them. *)
Theorem gradientDescent_terminates {F : Type} `{Number F}
    (g : Globals F) (pts : list loc) (lr : F) (w : World F) :
  valid w pts ->
  exists st w',
    gradientDescent_loop maxIter g pts lr w = Done st w'
    /\ gradientDescent g pts lr w = Done tt w'
    /\ gd_iter st <= Z.to_nat 10000
    /\ length (gd_energies st) = S (gd_iter st)
    /\ (forall k, k < gd_iter st ->
          (delta_at (gd_energies st) k >. g_convergenceThreshold g) = true)
    /\ (gd_iter st = Z.to_nat 10000
        \/ (delta_at (gd_energies st) (gd_iter st) >. g_convergenceThreshold g) = false)
    /\ updates pts w w'.
Proof.
  intros Hv.
  destruct (wp_elim _ _ _ (wp_gradientDescent_loop g pts lr w Hv))
    as (st & w' & Hrun & Hup & Hinv & _ & Hc).
  exists st, w'. destruct Hinv as [Hlen Hiter Hcur Hdelta Hbefore].
  split; [done|]. split.
  { unfold gradientDescent, bind. by rewrite Hrun. }
  split; [done|]. split; [done|]. split; [done|]. split; [|done].
  unfold gdContinue in Hc. apply andb_false_iff in Hc as [Hc|Hc].
  - right. by rewrite <- Hdelta.
  - left. apply Nat.ltb_ge in Hc. unfold maxIter in Hiter, Hc. lia.
Qed.

Lemma gradientDescent_terminates_witness :
  exists st w',
    gradientDescent_loop maxIter (mkGlobals 20 0.5 0.5 0.5)%float [0] 0.5%float
      (mkWorld [mkVector3 1 0 0]%float 0) = Done st w'
    /\ gd_iter st <= Z.to_nat 10000.
Proof.
  destruct (gradientDescent_terminates (mkGlobals 20 0.5 0.5 0.5)%float [0] 0.5%float
              (mkWorld [mkVector3 1 0 0]%float 0)) as (st & w' & Hrun & _ & Hiter & _).
  - repeat constructor.
  - by exists st, w'.
Defined.

(** C5, as the code has it.  The step of [gradientDescent] has a fixed size
    and the loop looks only at the absolute value of the energy change, so
    successive evaluations may rise as well as fall.  What holds: the energy
    changes by more than the threshold, in absolute value, in every
    iteration but the last, and the last evaluation is the energy of the
    points as the call leaves them. *)
Theorem gradientDescent_energy_changes {F : Type} `{Number F}
    (g : Globals F) (pts : list loc) (lr : F) (w : World F) :
  valid w pts ->
  exists st w',
    gradientDescent_loop maxIter g pts lr w = Done st w'
    /\ length (gd_energies st) = S (gd_iter st)
    /\ (forall k, S k < gd_iter st ->
          (num_abs (nth k (gd_energies st) lit_0 -. nth (S k) (gd_energies st) lit_0)
             >. g_convergenceThreshold g) = true)
    /\ calculateEnergy pts w' = Done (nth (gd_iter st) (gd_energies st) lit_0) w'.
Proof.
  intros Hv.
  destruct (wp_elim _ _ _ (wp_gradientDescent_loop g pts lr w Hv))
    as (st & w' & Hrun & Hup & Hinv & He & Hc).
  exists st, w'. destruct Hinv as [Hlen Hiter Hcur Hdelta Hbefore].
  split; [done|]. split; [done|]. split.
  - intros k Hk. apply (Hbefore (S k) Hk).
  - by rewrite <- Hcur.
Qed.

(** Five points of the unit circle in the plane [z = 0], the default
    globals of the script, and the learning rate 0.1 of [initPopulation]:
    the call makes 35 iterations. *)
Definition example_five : list (Vector3 float) :=
  [mkVector3 1 0 0; mkVector3 0 (-1) 0;
   mkVector3 0x1.3333333333333p-1 0x1.999999999999ap-1 0;
   mkVector3 0x1.999999999999ap-1 0x1.3333333333333p-1 0;
   mkVector3 (-0x1.3333333333333p-1) 0x1.999999999999ap-1 0]%float.

Definition default_globals : Globals float :=
  mkGlobals 20 lit_0_2 lit_1e_2 0x1.5798ee2308c3ap-27%float.

Lemma gradientDescent_energy_changes_witness :
  exists st w',
    gradientDescent_loop maxIter default_globals [0; 1; 2; 3; 4] lit_0_1
      (mkWorld example_five 0) = Done st w'
    /\ gd_iter st = 35
    /\ (num_abs (nth 1 (gd_energies st) lit_0 -. nth 2 (gd_energies st) lit_0)
          >. g_convergenceThreshold default_globals) = true
    /\ calculateEnergy [0; 1; 2; 3; 4] w' = Done 0x1.b871350611e07p+2%float w'.
Proof.
  destruct (gradientDescent_energy_changes default_globals [0; 1; 2; 3; 4] lit_0_1
              (mkWorld example_five 0))
    as (st & w' & Hrun & Hlen & Hbig & Hlast).
  - repeat constructor.
  - assert (Hiter : gd_iter st = 35).
    { assert (Hsome : gd_iter <$> result_of
                (gradientDescent_loop maxIter default_globals [0; 1; 2; 3; 4] lit_0_1
                   (mkWorld example_five 0)) = Some 35) by (vm_compute; reflexivity).
      rewrite Hrun in Hsome. by injection Hsome. }
    assert (Hfinal : nth 35 (gd_energies st) lit_0 = 0x1.b871350611e07p+2%float).
    { assert (Hsome : (fun s => nth 35 (gd_energies s) lit_0) <$> result_of
                (gradientDescent_loop maxIter default_globals [0; 1; 2; 3; 4] lit_0_1
                   (mkWorld example_five 0)) = Some 0x1.b871350611e07p+2%float)
        by (vm_compute; reflexivity).
      rewrite Hrun in Hsome. by injection Hsome. }
    exists st, w'. split; [exact Hrun|]. split; [exact Hiter|]. split.
    + apply Hbig. rewrite Hiter. lia.
    + rewrite Hiter, Hfinal in Hlast. exact Hlast.
Defined.

(** C5 as stated fails.  In that run the energy evaluated after the first
    iteration is 13.0955... and the energy evaluated after the second
    iteration is 21.1633...: the sequence of the evaluations taken after
    each iteration rises.  (The evaluation before the loop is 10.6543....) *)
Lemma gradientDescent_energy_rises :
  (fun st => (gd_iter st, take 3 (gd_energies st))) <$> result_of
     (gradientDescent_loop maxIter default_globals [0; 1; 2; 3; 4] lit_0_1
        (mkWorld example_five 0))
  = Some (35, [0x1.54f0aeaab2504p+3; 0x1.a30e7c1587defp+3; 0x1.529d2adfe3d24p+4]%float)
  /\ PrimFloat.ltb 0x1.a30e7c1587defp+3 0x1.529d2adfe3d24p+4 = true.
Proof. split; vm_compute; reflexivity. Qed.


(** * Crossover *)

Section Crossover.
Context {F : Type} `{Number F} `{Trig F}.
Variable rnd : nat -> F.
Local Abbreviation World := (World F).

(** The point [randomPointOnSphere] builds from the two numbers it draws. *)
Definition sphere_point (u v : F) : Vector3 F :=
  let theta := lit_2 *. Math_PI *. u in
  let phi := Math_acos (lit_2 *. v -. lit_1) in
  mkVector3 (Math_sin phi *. Math_cos theta) (Math_sin phi *. Math_sin theta)
    (Math_cos phi).

Lemma randomPointOnSphere_run (w : World) :
  randomPointOnSphere rnd w
  = Done (sphere_point (rnd (draws w)) (rnd (S (draws w))))
      (mkWorld (heap w) (S (S (draws w)))).
Proof. reflexivity. Qed.

(** The [k] points drawn in a row from the [d]-th call of [Math.random] on. *)
Definition samples (d k : nat) : list (Vector3 F) :=
  map (fun i => sphere_point (rnd (d + 2 * i)) (rnd (S (d + 2 * i)))) (seq 0 k).

Lemma samples_S d k : samples d (S k) = sphere_point (rnd d) (rnd (S d)) :: samples (S (S d)) k.
Proof.
  unfold samples. rewrite <- cons_seq. simpl. rewrite Nat.add_0_r. f_equal.
  rewrite <- seq_shift, map_map. apply map_ext. intros i.
  f_equal; f_equal; lia.
Qed.

Lemma samples_length d k : length (samples d k) = k.
Proof. unfold samples. by rewrite length_map, length_seq. Qed.

Lemma stores_extend (w : World) pts vals added d :
  stores w pts vals -> stores (mkWorld (heap w ++ added) d) pts vals.
Proof.
  intros Hst. eapply Forall2_impl; [exact Hst|].
  intros l v Hl. simpl. by apply lookup_app_l_Some.
Qed.

Lemma stores_same_heap (w w' : World) pts vals :
  heap w = heap w' -> stores w pts vals -> stores w' pts vals.
Proof. unfold stores. by intros ->. Qed.

Lemma stores_fresh (h : list (Vector3 F)) vals d :
  stores (mkWorld (h ++ vals) d) (seq (length h) (length vals)) vals.
Proof.
  apply Forall2_same_length_lookup_2.
  - by rewrite length_seq.
  - intros i l v Hl Hv. apply lookup_seq in Hl as [-> _]. simpl.
    by rewrite lookup_app_r, Nat.add_comm, Nat.add_sub by lia.
Qed.

Lemma stores_app (w : World) pts1 pts2 vals1 vals2 :
  stores w pts1 vals1 -> stores w pts2 vals2 -> stores w (pts1 ++ pts2) (vals1 ++ vals2).
Proof. apply Forall2_app. Qed.

(** *** The two inheritance loops *)

Definition inherited (keep : F -> bool) (normal : Vector3 F) (vals : list (Vector3 F))
  : list (Vector3 F) :=
  List.filter (fun v => keep (v_dot v normal)) vals.

Lemma inheritFrom_run keep normal parent vals child (w : World) :
  stores w parent vals ->
  inheritFrom keep normal parent child w
  = Done (child ++ seq (length (heap w)) (length (inherited keep normal vals)))
      (mkWorld (heap w ++ inherited keep normal vals) (draws w)).
Proof.
  unfold inheritFrom. revert vals child w.
  induction parent as [|l parent IH]; intros vals child w Hst.
  - apply Forall2_nil_inv_l in Hst as ->. simpl. rewrite !app_nil_r. by destruct w.
  - apply Forall2_cons_inv_l in Hst as (v & vals' & Hl & Hst & ->).
    cbn [for_each]. unfold bind at 1. unfold bind at 1, read. rewrite Hl.
    unfold inherited. cbn [List.filter].
    destruct (keep (v_dot v normal)) eqn:Hk.
    + unfold bind at 1, new_Vector3. unfold bind at 1, ret.
      rewrite (IH vals') by (by apply stores_extend).
      cbn [heap draws length]. f_equal.
      * rewrite <- app_assoc. f_equal. rewrite length_app. simpl.
        by rewrite Nat.add_1_r.
      * f_equal. by rewrite <- app_assoc.
    + unfold ret. by rewrite (IH vals').
Qed.


(** *** Padding *)

Lemma padStep_run child (w : World) :
  padStep rnd child w
  = Done (child ++ [length (heap w)])
      (mkWorld (heap w ++ [sphere_point (rnd (draws w)) (rnd (S (draws w)))])
         (S (S (draws w)))).
Proof. reflexivity. Qed.

Lemma pad_run n child (w : World) :
  while (n - length child) (fun c => (length c <? n)%nat) (padStep rnd) child w
  = Done (child ++ seq (length (heap w)) (n - length child))
      (mkWorld (heap w ++ samples (draws w) (n - length child))
         (draws w + 2 * (n - length child))).
Proof.
  remember (n - length child) as k eqn:Hk. revert child w Hk.
  induction k as [|k IH]; intros child w Hk.
  - simpl. replace (length child <? n)%nat with false
      by (symmetry; apply Nat.ltb_ge; lia).
    unfold ret. rewrite !app_nil_r, Nat.add_0_r. by destruct w.
  - cbn [while]. replace (length child <? n)%nat with true
      by (symmetry; apply Nat.ltb_lt; lia).
    unfold bind. rewrite padStep_run.
    rewrite IH by (rewrite length_app; simpl; lia).
    cbn [heap draws]. rewrite samples_S, <- !app_assoc, length_app. simpl.
    f_equal.
    + by rewrite Nat.add_1_r.
    + f_equal. lia.
Qed.

(** *** Trimming *)

(** The body of the scan as a function of the values of the points. *)
Definition closest_step (vals : list (Vector3 F)) (i j : nat)
    (acc : F * option nat) : F * option nat :=
  let d := v_distanceTo (nth i vals v_zero) (nth j vals v_zero) in
  if d <. fst acc then (d, Some i) else acc.

Definition closest_scan (vals : list (Vector3 F)) : F * option nat :=
  fold_left (fun acc ij => closest_step vals (fst ij) (snd ij) acc)
    (index_pairs (length vals)) (num_Infinity, None).

Lemma closestScan_closest_scan (w : World) child vals :
  stores w child vals -> closestScan child w = Done (closest_scan vals) w.
Proof.
  intros Hst. unfold closestScan.
  rewrite (pair_loops_pure _ _ (fun i j acc => closest_step vals i j acc)).
  - unfold closest_scan. by rewrite (stores_length _ _ _ Hst).
  - intros i j [minDist removeIdx] Hij. unfold bind.
    rewrite (point_at_stores w child vals i), (point_at_stores w child vals j)
      by (done || lia).
    unfold closest_step. simpl. by destruct (_ <. _).
Qed.

(** The index [trimStep] removes: [removeIdx], or the last one for [pop()]. *)
Definition trim_index (vals : list (Vector3 F)) : nat :=
  match snd (closest_scan vals) with
  | Some i => i
  | None => length vals - 1
  end.

Definition trim_once (vals : list (Vector3 F)) : list (Vector3 F) :=
  delete (trim_index vals) vals.

Lemma take_pred_delete {A} (l : list A) : take (length l - 1) l = delete (length l - 1) l.
Proof.
  destruct l as [|a l]; [done|]. simpl. rewrite Nat.sub_0_r.
  revert a. induction l as [|b l IH]; intros a; [done|].
  simpl. f_equal. apply IH.
Qed.

Lemma trimStep_run (w : World) child vals :
  stores w child vals ->
  trimStep child w = Done (delete (trim_index vals) child) w.
Proof.
  intros Hst. unfold trimStep, bind.
  rewrite (closestScan_closest_scan w child vals Hst).
  unfold trim_index. destruct (snd (closest_scan vals)) as [i|]; [done|].
  unfold ret. by rewrite take_pred_delete, (stores_length _ _ _ Hst).
Qed.

Lemma closest_scan_bound vals i :
  snd (closest_scan vals) = Some i -> i < length vals.
Proof.
  unfold closest_scan.
  assert (Hgen : forall ps acc,
    (forall p, p ∈ ps -> fst p < length vals) ->
    (forall k, snd acc = Some k -> k < length vals) ->
    forall k, snd (fold_left (fun acc ij => closest_step vals (fst ij) (snd ij) acc)
                     ps acc) = Some k -> k < length vals).
  { induction ps as [|p ps IH]; intros acc Hps Hacc k; [by apply Hacc|].
    simpl. apply IH.
    - intros q Hq. apply Hps. by right.
    - intros k'. unfold closest_step. destruct (_ <. _); [|by apply Hacc].
      simpl. intros [= <-]. apply Hps. by left. }
  apply Hgen; [|done].
  intros [a b] Hab. apply elem_of_index_pairs in Hab. simpl. lia.
Qed.

Lemma trim_index_bound vals : 0 < length vals -> trim_index vals < length vals.
Proof.
  intros Hlen. unfold trim_index.
  destruct (snd (closest_scan vals)) as [i|] eqn:Hi; [|lia].
  by apply closest_scan_bound.
Qed.

Lemma trim_once_length vals : 0 < length vals -> length (trim_once vals) = length vals - 1.
Proof.
  intros Hlen. unfold trim_once.
  apply length_delete. apply lookup_lt_is_Some_2. by apply trim_index_bound.
Qed.

Lemma trim_run n (w : World) child vals :
  stores w child vals ->
  exists child',
    while (length child - n) (fun c => (n <? length c)%nat) trimStep child w
    = Done child' w
    /\ stores w child' (Nat.iter (length vals - n) trim_once vals)
    /\ child' `sublist_of` child
    /\ length child' = Nat.min (length child) n.
Proof.
  remember (length child - n) as k eqn:Hk. revert child vals Hk.
  induction k as [|k IH]; intros child vals Hk Hst.
  - exists child. pose proof (stores_length _ _ _ Hst) as Hlen.
    simpl. replace (n <? length child)%nat with false
      by (symmetry; apply Nat.ltb_ge; lia).
    replace (length vals - n) with 0 by lia. simpl.
    repeat split; [done | done | lia].
  - pose proof (stores_length _ _ _ Hst) as Hlen.
    cbn [while]. replace (n <? length child)%nat with true
      by (symmetry; apply Nat.ltb_lt; lia).
    unfold bind. rewrite (trimStep_run w child vals Hst).
    assert (Hlen' : length (trim_once vals) = length vals - 1)
      by (apply trim_once_length; lia).
    assert (Hst' : stores w (delete (trim_index vals) child) (trim_once vals))
      by (by apply Forall2_delete).
    pose proof (stores_length _ _ _ Hst') as Hlenc.
    destruct (IH (delete (trim_index vals) child) (trim_once vals))
      as (child' & Hrun & Hst'' & HP & Hlen''); [lia | done |].
    exists child'. split; [done|]. split; [|split].
    + replace (length vals - n) with (S (length (trim_once vals) - n)) by lia.
      by rewrite Nat.iter_succ_r.
    + etrans; [exact HP | apply sublist_delete].
    + lia.
Qed.

(** *** What the scan finds *)

Definition pair_distance (vals : list (Vector3 F)) (i j : nat) : F :=
  v_distanceTo (nth i vals v_zero) (nth j vals v_zero).

(** [(i, j)] is a closest pair of [vals]: no pair is strictly closer. *)
Definition closest_pair (vals : list (Vector3 F)) (i j : nat) : Prop :=
  i < j < length vals
  /\ forall i' j', i' < j' < length vals ->
       (pair_distance vals i' j' <. pair_distance vals i j) = false.

(** Every two points are at a distance below [Infinity]. *)
Definition finite_distances (vals : list (Vector3 F)) : Prop :=
  Forall (fun p => Forall (fun q => (v_distanceTo p q <. num_Infinity) = true) vals) vals.

Lemma finite_distances_delete vals i :
  finite_distances vals -> finite_distances (delete i vals).
Proof.
  intros Hfin. apply Forall_delete. eapply Forall_impl; [exact Hfin|].
  intros p Hp. by apply Forall_delete.
Qed.

Lemma finite_distances_pair vals i j :
  finite_distances vals -> i < length vals -> j < length vals ->
  (pair_distance vals i j <. num_Infinity) = true.
Proof.
  intros Hfin Hi Hj. unfold finite_distances in Hfin.
  rewrite Forall_forall in Hfin.
  assert (Hp : nth i vals v_zero ∈ vals) by (apply list_elem_of_In, nth_In; lia).
  assert (Hq : nth j vals v_zero ∈ vals) by (apply list_elem_of_In, nth_In; lia).
  specialize (Hfin _ Hp). rewrite Forall_forall in Hfin. by apply Hfin.
Qed.

Section ScanOrder.
(** The scan needs only that [<] on Numbers is irreflexive and transitive,
    which binary64 satisfies with its NaN included. *)
Hypothesis lt_irrefl : forall x : F, (x <. x) = false.
Hypothesis lt_trans : forall x y z : F,
  (x <. y) = true -> (y <. z) = true -> (x <. z) = true.

Definition scan_invariant (vals : list (Vector3 F)) (visited : list (nat * nat))
    (acc : F * option nat) : Prop :=
  (forall p, p ∈ visited ->
     (pair_distance vals (fst p) (snd p) <. fst acc) = false)
  /\ match snd acc with
     | Some i => exists j, (i, j) ∈ visited /\ fst acc = pair_distance vals i j
     | None => fst acc = num_Infinity
     end.

Lemma scan_invariant_step vals visited acc p :
  scan_invariant vals visited acc ->
  scan_invariant vals (visited ++ [p]) (closest_step vals (fst p) (snd p) acc).
Proof.
  intros [Hmin Hidx]. unfold closest_step.
  fold (pair_distance vals (fst p) (snd p)).
  destruct (pair_distance vals (fst p) (snd p) <. fst acc) eqn:Hlt; split; simpl.
  - intros q [Hq | ->%list_elem_of_singleton]%elem_of_app; [|apply lt_irrefl].
    destruct (pair_distance vals (fst q) (snd q)
              <. pair_distance vals (fst p) (snd p)) eqn:Hq'; [|done].
    pose proof (lt_trans _ _ _ Hq' Hlt) as Ht. by rewrite (Hmin q Hq) in Ht.
  - exists (snd p). split; [|done]. apply elem_of_app. right.
    destruct p. by apply list_elem_of_singleton.
  - intros q [Hq | ->%list_elem_of_singleton]%elem_of_app; [by apply Hmin | done].
  - destruct (snd acc) as [i|]; [|done].
    destruct Hidx as (j & Hj & Hd). exists j. split; [|done].
    apply elem_of_app. by left.
Qed.

Lemma scan_invariant_fold vals ps visited acc :
  scan_invariant vals visited acc ->
  scan_invariant vals (visited ++ ps)
    (fold_left (fun acc ij => closest_step vals (fst ij) (snd ij) acc) ps acc).
Proof.
  revert visited acc. induction ps as [|p ps IH]; intros visited acc Hinv.
  - by rewrite app_nil_r.
  - simpl. replace (visited ++ p :: ps) with ((visited ++ [p]) ++ ps)
      by (by rewrite <- app_assoc).
    apply IH. by apply scan_invariant_step.
Qed.

Lemma closest_scan_invariant vals :
  scan_invariant vals (index_pairs (length vals)) (closest_scan vals).
Proof.
  apply (scan_invariant_fold vals _ []). split; [|done].
  intros p Hp. by apply elem_of_nil in Hp.
Qed.

(** With finite distances and at least two points, the index removed is the
    lower index of a closest pair. *)
Lemma trim_index_closest vals :
  finite_distances vals -> 2 <= length vals ->
  exists j, closest_pair vals (trim_index vals) j.
Proof.
  intros Hfin Hlen.
  destruct (closest_scan_invariant vals) as [Hmin Hidx].
  unfold trim_index. destruct (snd (closest_scan vals)) as [i|].
  - destruct Hidx as (j & Hij & Hd). exists j.
    apply elem_of_index_pairs in Hij. split; [done|].
    intros i' j' Hij'. rewrite <- Hd.
    apply (Hmin (i', j')). by apply elem_of_index_pairs.
  - assert (H01 : (0, 1) ∈ index_pairs (length vals))
      by (apply elem_of_index_pairs; lia).
    specialize (Hmin _ H01). rewrite Hidx in Hmin. simpl in Hmin.
    rewrite finite_distances_pair in Hmin by (done || lia). done.
Qed.

(** [trimmed n vals vals']: [vals'] is what remains of [vals] after removing,
    as long as more than [n] points are left, the lower-indexed point of a
    closest pair. *)
Inductive trimmed (n : nat) : list (Vector3 F) -> list (Vector3 F) -> Prop :=
| trimmed_done vals : length vals = n -> trimmed n vals vals
| trimmed_remove vals vals' i j :
    n < length vals -> closest_pair vals i j ->
    trimmed n (delete i vals) vals' -> trimmed n vals vals'.

Lemma trim_once_trimmed n vals :
  1 <= n -> n <= length vals -> finite_distances vals ->
  trimmed n vals (Nat.iter (length vals - n) trim_once vals).
Proof.
  intros Hn. remember (length vals - n) as m eqn:Hm. revert vals Hm.
  induction m as [|m IH]; intros vals Hm Hlen Hfin.
  - simpl. apply trimmed_done. lia.
  - rewrite Nat.iter_succ_r.
    destruct (trim_index_closest vals Hfin) as [j Hj]; [lia|].
    apply (trimmed_remove n vals _ (trim_index vals) j); [lia | done |].
    assert (Hlen' : length (trim_once vals) = length vals - 1)
      by (apply trim_once_length; lia).
    apply IH; [lia | lia |]. by apply finite_distances_delete.
Qed.

End ScanOrder.

(** *** The whole of [crossover] *)

Definition inherited_points (normal : Vector3 F) (valsA valsB : list (Vector3 F))
  : list (Vector3 F) :=
  inherited (fun d => d >=. lit_0) normal valsA
  ++ inherited (fun d => d <. lit_0) normal valsB.

Lemma crossover_run sim parentA parentB valsA valsB (w : World) :
  stores w parentA valsA -> stores w parentB valsB ->
  let normal := sphere_point (rnd (draws w)) (rnd (S (draws w))) in
  let base := inherited_points normal valsA valsB in
  let k := n sim - length base in
  let w' := mkWorld (heap w ++ base ++ samples (S (S (draws w))) k)
              (S (S (draws w)) + 2 * k) in
  exists child,
    crossover rnd sim parentA parentB w = Done child w'
    /\ stores w' child
         (Nat.iter (length base - n sim) trim_once
            (base ++ samples (S (S (draws w))) k))
    /\ child `sublist_of` seq (length (heap w)) (length base + k)
    /\ length child = n sim.
Proof.
  intros HA HB normal base k w'.
  unfold crossover, bind at 1. rewrite randomPointOnSphere_run.
  unfold bind at 1.
  rewrite (inheritFrom_run _ normal parentA valsA)
    by (by apply (stores_same_heap w)).
  unfold bind at 1. cbn [heap draws app].
  rewrite (inheritFrom_run _ normal parentB valsB)
    by (by apply (stores_extend w _ _ _ _)).
  cbn [heap draws]. unfold bind at 1.
  set (child0 := seq (length (heap w)) _ ++ seq _ _).
  assert (Hchild0 : child0 = seq (length (heap w)) (length base)).
  { unfold child0, base, inherited_points. by rewrite !length_app, seq_app. }
  assert (Hlen0 : length child0 = length base) by (by rewrite Hchild0, length_seq).
  rewrite pad_run. cbn [heap draws]. rewrite Hlen0. fold k.
  rewrite <- !app_assoc. fold (inherited_points normal valsA valsB). fold base.
  set (child1 := child0 ++ seq _ k).
  assert (Hchild1 : child1 = seq (length (heap w)) (length base + k)).
  { unfold child1. rewrite Hchild0, seq_app. do 2 f_equal.
    rewrite !length_app. fold base. unfold base, inherited_points.
    rewrite length_app. lia. }
  assert (Hst1 : stores w' child1 (base ++ samples (S (S (draws w))) k)).
  { rewrite Hchild1. unfold w'.
    replace (length base + k) with (length (base ++ samples (S (S (draws w))) k))
      by (by rewrite length_app, samples_length).
    apply stores_fresh. }
  match goal with
  | |- context [while _ _ _ child1 ?wx] =>
      replace wx with w'
        by (unfold w', base, inherited_points; by rewrite <- !app_assoc)
  end.
  destruct (trim_run (n sim) w' child1 _ Hst1) as (child & Hrun & Hst & Hsub & Hlen).
  exists child. split; [|split; [|split]].
  - exact Hrun.
  - rewrite length_app, samples_length in Hst.
    replace (length base + k - n sim) with (length base - n sim) in Hst by lia.
    exact Hst.
  - by rewrite <- Hchild1.
  - rewrite Hlen. unfold child1. rewrite length_app, Hlen0, length_seq. lia.
Qed.

End Crossover.

(** C10.  [crossover] changes no object that existed before the call: both
    parents hold the same objects with the same values afterwards, and every
    point of the child is an object allocated during the call (a clone or a
    fresh sample), so it is no point of either parent. *)
Theorem crossover_leaves_parents {F : Type} `{Number F} `{Trig F}
    (rnd : nat -> F) (sim : ThomsonSimulation F) (parentA parentB : list loc)
    (w : World F) :
  valid w parentA -> valid w parentB ->
  exists child w',
    crossover rnd sim parentA parentB w = Done child w'
    /\ (forall l, l < length (heap w) -> heap w' !! l = heap w !! l)
    /\ (forall vals, stores w parentA vals -> stores w' parentA vals)
    /\ (forall vals, stores w parentB vals -> stores w' parentB vals)
    /\ Forall (fun l => (length (heap w) <= l) /\ (l ∉ parentA) /\ (l ∉ parentB)) child.
Proof.
  intros HvA HvB.
  destruct (valid_stores _ _ HvA) as [valsA HA].
  destruct (valid_stores _ _ HvB) as [valsB HB].
  destruct (crossover_run rnd sim parentA parentB valsA valsB w HA HB)
    as (child & Hrun & _ & Hsub & _).
  eexists child, _. split; [exact Hrun|].
  split; [|split; [|split]].
  - intros l Hl. simpl. by rewrite lookup_app_l.
  - intros vals Hst. by apply stores_extend.
  - intros vals Hst. by apply stores_extend.
  - apply Forall_forall. intros l Hl.
    pose proof (elem_of_sublist _ _ _ Hl Hsub) as Hseq.
    apply elem_of_seq in Hseq.
    unfold valid in HvA, HvB. rewrite Forall_forall in HvA, HvB.
    split; [lia|]. split; intros Hin.
    + specialize (HvA _ Hin). lia.
    + specialize (HvB _ Hin). lia.
Qed.

Lemma crossover_leaves_parents_witness :
  exists child w',
    crossover (H0 := example_trig) (fun _ => 0%float)
      (mkSimulation 1 1 [] None 0%float) [0] [0]
      (mkWorld [mkVector3 0 0 1]%float 0) = Done child w'
    /\ heap w' !! 0 = Some (mkVector3 0 0 1)%float.
Proof.
  destruct (crossover_leaves_parents (H0 := example_trig) (fun _ => 0%float)
              (mkSimulation 1 1 [] None 0%float) [0] [0]
              (mkWorld [mkVector3 0 0 1]%float 0))
    as (child & w' & Hrun & Hsame & _).
  - repeat constructor.
  - repeat constructor.
  - exists child, w'. split; [exact Hrun|]. apply Hsame. simpl. lia.
Defined.

Lemma stores_inj {F : Type} (w : World F) pts vals vals' :
  stores w pts vals -> stores w pts vals' -> vals = vals'.
Proof.
  intros Hst. revert vals'. induction Hst as [|l v pts vals Hl Hst IH]; intros vals' Hst'.
  - by apply Forall2_nil_inv_l in Hst'.
  - apply Forall2_cons_inv_l in Hst' as (v' & vals'' & Hl' & Hst' & ->).
    f_equal; [congruence | by apply IH].
Qed.

(** Two pairs of parents of two points for the worked examples; with
    [Math.random] always 0 the normal of the plane and every fresh sample
    is (1.2e-16, 0, -1). *)
Definition example_parents_short : list (Vector3 float) :=
  [mkVector3 0 0 (-1); mkVector3 0 0 1;
   mkVector3 0 1 0; mkVector3 0x1.3333333333333p-1 0 (-0x1.999999999999ap-1)]%float.

Definition example_parents_long : list (Vector3 float) :=
  [mkVector3 0 0 (-1); mkVector3 0x1.3333333333333p-1 0 (-0x1.999999999999ap-1);
   mkVector3 0 0 1; mkVector3 0 0x1.3333333333333p-1 0x1.999999999999ap-1]%float.

(** C4.  On binary64 and for any outcome of [Math.random], [crossover]
    returns exactly [n] points.  The child starts from the points of parent A
    whose dot product with the normal is [>= 0] followed by the points of
    parent B whose dot product is [< 0]; when these are at most [n] it is
    padded with freshly drawn sphere points, and when they are more it is
    trimmed by removing, one at a time, the lower-indexed point of a pair at
    the smallest distance. *)
Theorem crossover_child {T : Trig float} (rnd : nat -> float)
    (sim : ThomsonSimulation float) (parentA parentB : list loc)
    (valsA valsB : list (Vector3 float)) (w : World float) :
  stores w parentA valsA -> stores w parentB valsB ->
  exists child w' vals',
    crossover rnd sim parentA parentB w = Done child w'
    /\ stores w' child vals'
    /\ length child = n sim
    /\ (length (inherited_points
                  (sphere_point (rnd (draws w)) (rnd (S (draws w)))) valsA valsB)
          <= n sim ->
        vals' =
          inherited_points
            (sphere_point (rnd (draws w)) (rnd (S (draws w)))) valsA valsB
          ++ samples rnd (S (S (draws w)))
               (n sim - length (inherited_points
                  (sphere_point (rnd (draws w)) (rnd (S (draws w)))) valsA valsB)))
    /\ (1 <= n sim ->
        n sim <= length (inherited_points
                  (sphere_point (rnd (draws w)) (rnd (S (draws w)))) valsA valsB) ->
        finite_distances (inherited_points
                  (sphere_point (rnd (draws w)) (rnd (S (draws w)))) valsA valsB) ->
        trimmed (n sim)
          (inherited_points
             (sphere_point (rnd (draws w)) (rnd (S (draws w)))) valsA valsB)
          vals').
Proof.
  intros HA HB.
  destruct (crossover_run rnd sim parentA parentB valsA valsB w HA HB)
    as (child & Hrun & Hst & _ & Hlen).
  set (base := inherited_points _ valsA valsB) in Hst |- *; cbv beta.
  eexists child, _, _. split; [exact Hrun|]. split; [exact Hst|]. split; [exact Hlen|].
  split.
  - intros Hle. by replace (length base - n sim) with 0 by lia.
  - intros Hn Hle Hfin.
    replace (n sim - length base) with 0 by lia.
    change (samples rnd (S (S (draws w))) 0) with (@nil (Vector3 float)).
    rewrite app_nil_r.
    by apply (trim_once_trimmed (H := float_Number) float_ltb_irrefl float_ltb_trans).
Qed.

Lemma crossover_child_witness :
  (exists child w',
      crossover (H0 := example_trig) (fun _ => 0%float)
        (mkSimulation 2 1 [] None 0%float) [0; 1] [2; 3]
        (mkWorld example_parents_short 0) = Done child w'
      /\ length child = 2
      /\ stores w' child
           ([mkVector3 0 0 (-1)]
            ++ [mkVector3 0x1.1a62633145c07p-53 0 (-1)])%float)
  /\ (exists child w',
      crossover (H0 := example_trig) (fun _ => 0%float)
        (mkSimulation 2 1 [] None 0%float) [0; 1] [2; 3]
        (mkWorld example_parents_long 0) = Done child w'
      /\ length child = 2
      /\ stores w' child
           [mkVector3 0x1.3333333333333p-1 0 (-0x1.999999999999ap-1);
            mkVector3 0 0x1.3333333333333p-1 0x1.999999999999ap-1]%float
      /\ trimmed 2 example_parents_long
           [mkVector3 0x1.3333333333333p-1 0 (-0x1.999999999999ap-1);
            mkVector3 0 0x1.3333333333333p-1 0x1.999999999999ap-1]%float).
Proof.
  split.
  - destruct (crossover_child (T := example_trig) (fun _ => 0%float)
                (mkSimulation 2 1 [] None 0%float) [0; 1] [2; 3]
                (take 2 example_parents_short) (drop 2 example_parents_short)
                (mkWorld example_parents_short 0))
      as (child & w' & vals' & Hrun & Hst & Hlen & Hpad & _).
    + repeat constructor.
    + repeat constructor.
    + exists child, w'. split; [exact Hrun|]. split; [exact Hlen|].
      rewrite Hpad in Hst; [|vm_compute; lia].
      exact Hst.
  - destruct (crossover_child (T := example_trig) (fun _ => 0%float)
                (mkSimulation 2 1 [] None 0%float) [0; 1] [2; 3]
                (take 2 example_parents_long) (drop 2 example_parents_long)
                (mkWorld example_parents_long 0))
      as (child & w' & vals' & Hrun & Hst & Hlen & _ & Htrim).
    + repeat constructor.
    + repeat constructor.
    + assert (Hchild : result_of
                (crossover (H0 := example_trig) (fun _ => 0%float)
                   (mkSimulation 2 1 [] None 0%float) [0; 1] [2; 3]
                   (mkWorld example_parents_long 0)) = Some [5; 7])
        by (vm_compute; reflexivity).
      assert (Hheap : match crossover (H0 := example_trig) (fun _ => 0%float)
                              (mkSimulation 2 1 [] None 0%float) [0; 1] [2; 3]
                              (mkWorld example_parents_long 0) with
                      | Done _ w => Some (heap w !! 5, heap w !! 7)
                      | _ => None
                      end
              = Some (Some (mkVector3 0x1.3333333333333p-1 0 (-0x1.999999999999ap-1)),
                      Some (mkVector3 0 0x1.3333333333333p-1 0x1.999999999999ap-1))%float)
        by (vm_compute; reflexivity).
      rewrite Hrun in Hchild, Hheap. simpl in Hchild, Hheap.
      injection Hchild as ->. injection Hheap as H5 H7.
      assert (Hvals : vals' =
                [mkVector3 0x1.3333333333333p-1 0 (-0x1.999999999999ap-1);
                 mkVector3 0 0x1.3333333333333p-1 0x1.999999999999ap-1]%float).
      { apply (stores_inj w' [5; 7]); [exact Hst|]. by repeat constructor. }
      exists [5; 7], w'. split; [exact Hrun|]. split; [done|].
      rewrite <- Hvals. split; [exact Hst|].
      apply Htrim.
      * simpl. lia.
      * vm_compute. lia.
      * vm_compute. repeat constructor.
Defined.

(** * Partial correctness *)

Section WLP.
Context {F : Type}.
Local Abbreviation M := (M F).
Local Abbreviation World := (World F).

(** [wlp m Q w]: if [m] returns normally from [w], its result and world
    satisfy [Q]. *)
Definition wlp {A} (m : M A) (Q : A -> World -> Prop) (w : World) : Prop :=
  match m w with
  | Done a w' => Q a w'
  | _ => True
  end.

Lemma wlp_ret {A} (a : A) (Q : A -> World -> Prop) w : Q a w -> wlp (ret a) Q w.
Proof. done. Qed.

Lemma wlp_bind {A B} (m : M A) (k : A -> M B) (Q : B -> World -> Prop) w :
  wlp m (fun a w' => wlp (k a) Q w') w -> wlp (bind m k) Q w.
Proof. unfold wlp, bind. by destruct (m w). Qed.

Lemma wlp_mono {A} (m : M A) (P Q : A -> World -> Prop) w :
  wlp m P w -> (forall a w', P a w' -> Q a w') -> wlp m Q w.
Proof. unfold wlp. destruct (m w); auto. Qed.

Lemma wlp_elim {A} (m : M A) (Q : A -> World -> Prop) w a w' :
  wlp m Q w -> m w = Done a w' -> Q a w'.
Proof. unfold wlp. intros HQ Heq. by rewrite Heq in HQ. Qed.

Lemma wp_wlp {A} (m : M A) (Q : A -> World -> Prop) w : wp m Q w -> wlp m Q w.
Proof. unfold wp, wlp. by destruct (m w). Qed.

Lemma wlp_for_each {A St} (I : list A -> St -> World -> Prop)
    (xs : list A) (body : A -> St -> M St) s w :
  I [] s w ->
  (forall visited x rest s w,
      xs = visited ++ x :: rest -> I visited s w ->
      wlp (body x s) (I (visited ++ [x])) w) ->
  wlp (for_each xs body s) (I xs) w.
Proof.
  intros H0 Hstep.
  enough (Hgen : forall rest visited s w,
             xs = visited ++ rest -> I visited s w ->
             wlp (for_each rest body s) (I xs) w).
  { by apply (Hgen xs []). }
  clear s w H0. induction rest as [|x rest IH]; intros visited s w Hxs HI.
  - rewrite app_nil_r in Hxs. subst. by apply wlp_ret.
  - simpl. apply wlp_bind.
    eapply wlp_mono; [by eapply Hstep|].
    intros s' w' HI'. apply (IH (visited ++ [x])); [|done].
    by rewrite <- app_assoc.
Qed.

Lemma wlp_for_range {St} (I : nat -> St -> World -> Prop)
    (lo hi : nat) (body : nat -> St -> M St) s w :
  lo <= hi ->
  I lo s w ->
  (forall i s w, lo <= i < hi -> I i s w -> wlp (body i s) (I (S i)) w) ->
  wlp (for_range lo hi body s) (I hi) w.
Proof.
  intros Hle H0 Hstep. unfold for_range.
  eapply wlp_mono.
  - apply (wlp_for_each (fun visited s w => I (lo + length visited) s w)).
    + simpl. by rewrite Nat.add_0_r.
    + intros visited x rest s' w' Hseq HI.
      assert (x = lo + length visited) as ->.
      { assert (Hx : seq lo (hi - lo) !! length visited = Some x).
        { rewrite Hseq. by rewrite list_lookup_middle. }
        apply lookup_seq in Hx. lia. }
      assert (length visited < hi - lo).
      { apply (f_equal length) in Hseq.
        rewrite length_seq, length_app in Hseq. simpl in Hseq. lia. }
      rewrite length_app. simpl.
      replace (lo + (length visited + 1)) with (S (lo + length visited)) by lia.
      apply Hstep; [lia | done].
  - intros s' w'. simpl. rewrite length_seq.
    by replace (lo + (hi - lo)) with hi by lia.
Qed.

End WLP.

(** * The population optimizer *)

Section Population.
Context {F : Type} `{Number F} `{Trig F}.
Variable rnd : nat -> F.
Local Abbreviation M := (M F).
Local Abbreviation World := (World F).

(** [changes S w w']: from [w] to [w'] objects may have been allocated, and
    of the objects of [w] only those of [S] may have changed. *)
Definition changes (S : list loc) (w w' : World) : Prop :=
  length (heap w) <= length (heap w')
  /\ forall l, l < length (heap w) -> l ∉ S -> heap w' !! l = heap w !! l.

Lemma changes_refl S w : changes S w w.
Proof. by split. Qed.

Lemma changes_trans S S' w1 w2 w3 :
  changes S w1 w2 -> changes S' w2 w3 ->
  (forall l, l < length (heap w1) -> l ∈ S' -> l ∈ S) ->
  changes S w1 w3.
Proof.
  intros [Hl1 Hf1] [Hl2 Hf2] Hsub. split; [lia|].
  intros l Hl HS. rewrite Hf2; [by apply Hf1 | lia | naive_solver].
Qed.

Lemma changes_same_heap S w w' : heap w' = heap w -> changes S w w'.
Proof. intros Hh. split; by rewrite Hh. Qed.

Lemma changes_append S (w : World) added d :
  changes S w (mkWorld (heap w ++ added) d).
Proof.
  split; simpl; [rewrite length_app; lia|].
  intros l Hl _. by rewrite lookup_app_l.
Qed.

Lemma updates_changes pts w w' : updates pts w w' -> changes pts w w'.
Proof. intros (Hl & _ & Hf). split; [lia|]. intros l _. apply Hf. Qed.

Lemma valid_grow (w w' : World) pts :
  valid w pts -> length (heap w) <= length (heap w') -> valid w' pts.
Proof. intros Hv Hle. eapply Forall_impl; [exact Hv|]. simpl. intros. lia. Qed.

Lemma wp_gradientDescent g pts lr (w : World) :
  valid w pts ->
  wp (gradientDescent g pts lr) (fun _ w' => updates pts w w') w.
Proof.
  intros Hv.
  destruct (wp_elim _ _ _ (wp_gradientDescent_loop g pts lr w Hv))
    as (st & w' & Hrun & Hup & _).
  eapply wp_done; [|exact Hup].
  unfold gradientDescent, bind. by rewrite Hrun.
Qed.

Lemma wlp_modify (l : loc) (f : Vector3 F -> Vector3 F) pts (w : World) :
  l ∈ pts ->
  wlp (modify l f)
    (fun _ w' => changes pts w w' /\ length (heap w') = length (heap w)) w.
Proof.
  intros Hin. unfold wlp, modify. destruct (heap w !! l) as [v|] eqn:Hv; [|done].
  unfold changes. simpl. rewrite length_insert. split; [split; [done|]|done].
  intros l' _ Hl'. rewrite list_lookup_insert_ne; [done|]. by intros ->.
Qed.

Lemma wlp_at_index {A} (arr : list A) i (Q : A -> World -> Prop) (w : World) :
  (forall a, arr !! i = Some a -> Q a w) -> wlp (at_index arr i) Q w.
Proof. intros HQ. unfold at_index. destruct (arr !! i); [by apply wlp_ret, HQ | done]. Qed.

Lemma wlp_at_number {A} (arr : list A) x (Q : A -> World -> Prop) (w : World) :
  (forall a, a ∈ arr -> Q a w) -> wlp (at_number arr x) Q w.
Proof.
  intros HQ. unfold at_number. destruct (num_index x) as [i|]; [|done].
  apply wlp_at_index. intros a Ha. apply HQ. by eapply list_elem_of_lookup_2.
Qed.

Lemma wlp_mutate g pts (w : World) :
  wlp (mutate rnd g pts)
    (fun _ w' => changes pts w w' /\ length (heap w') = length (heap w)) w.
Proof.
  unfold mutate. apply wlp_bind. unfold wlp at 1, Math_random.
  destruct (_ <. _); [|apply wlp_ret; split; [by apply changes_same_heap | done]].
  apply wlp_bind. unfold wlp at 1. simpl.
  apply wlp_bind. unfold wlp at 1. rewrite randomPointOnSphere_run.
  apply wlp_bind, wlp_at_number. intros l Hl.
  apply wlp_bind. eapply wlp_mono; [by apply (wlp_modify l _ pts)|].
  intros [] w1 [Hc1 Hl1].
  eapply wlp_mono; [by apply (wlp_modify l _ pts)|].
  intros [] w2 [Hc2 Hl2]. simpl in Hc1, Hl1. split; [|congruence].
  destruct Hc1 as [Hle1 Hf1], Hc2 as [Hle2 Hf2]. simpl in Hle1, Hf1.
  split; [lia|]. intros l' Hl' Hn. rewrite Hf2, Hf1; [done..|lia|done].
Qed.

Lemma wlp_tournamentSelect sim (w : World) :
  wlp (tournamentSelect rnd sim)
    (fun ind w' => heap w' = heap w /\ ind ∈ population sim) w.
Proof.
  unfold tournamentSelect. apply wlp_bind.
  eapply wlp_mono.
  - apply (wlp_for_range
             (fun _ (best : option (Individual F)) w' =>
                heap w' = heap w
                /\ forall b, best = Some b -> b ∈ population sim)); [lia | done |].
    intros i best w1 _ [Hh Hb].
    apply wlp_bind. unfold wlp at 1, Math_random.
    assert (Hind : forall x ind, get_number (population sim) x = Some ind ->
              ind ∈ population sim).
    { intros x ind. unfold get_number. destruct (num_index x); [|done].
      apply list_elem_of_lookup_2. }
    destruct best as [b|], (get_number _ _) as [ind|] eqn:Hget; try done.
    + destruct (_ <. _); apply wlp_ret; (split; [done|]); intros b' [= <-]; eauto.
    + apply wlp_ret. split; [done|]. intros b' [= <-]; eauto.
  - intros best w' [Hh Hb]. destruct best as [b|]; [|done].
    apply wlp_ret. auto.
Qed.

(** *** Deep copies *)

Lemma clone_points_run_from pts vals acc (w : World) :
  stores w pts vals ->
  for_each pts (fun l acc =>
      do v <- read l; do l' <- new_Vector3 v; ret (acc ++ [l'])) acc w
  = Done (acc ++ seq (length (heap w)) (length vals))
      (mkWorld (heap w ++ vals) (draws w)).
Proof.
  revert vals acc w. induction pts as [|l pts IH]; intros vals acc w Hst.
  - apply Forall2_nil_inv_l in Hst as ->. simpl. rewrite !app_nil_r. by destruct w.
  - apply Forall2_cons_inv_l in Hst as (v & vals' & Hl & Hst & ->).
    cbn [for_each]. unfold bind at 1. unfold bind at 1, read. rewrite Hl.
    unfold bind at 1, new_Vector3. unfold ret at 1.
    rewrite (IH vals') by (by apply stores_extend).
    cbn [heap draws length]. f_equal.
    + rewrite <- app_assoc. f_equal. rewrite length_app. simpl.
      by rewrite Nat.add_1_r.
    + f_equal. by rewrite <- app_assoc.
Qed.

Lemma clone_points_run pts vals (w : World) :
  stores w pts vals ->
  clone_points pts w
  = Done (seq (length (heap w)) (length vals)) (mkWorld (heap w ++ vals) (draws w)).
Proof. intros Hst. unfold clone_points. by rewrite (clone_points_run_from pts vals). Qed.

(** *** The sort is a permutation *)

Lemma sort_insert_Permutation {A} (key : A -> F) a l :
  sort_insert key a l ≡ₚ a :: l.
Proof.
  induction l as [|b l IH]; [done|]. simpl.
  destruct (_ <. _); [|done]. rewrite IH. apply Permutation_swap.
Qed.

Lemma sort_by_Permutation {A} (key : A -> F) l : sort_by key l ≡ₚ l.
Proof.
  induction l as [|a l IH]; [done|]. simpl.
  rewrite sort_insert_Permutation. by f_equiv.
Qed.

(** *** updateBest *)

(** All the point objects of a population. *)
Definition pop_locs (pop : list (Individual F)) : list loc :=
  concat (map points pop).

Lemma elem_of_pop_locs pop l :
  l ∈ pop_locs pop <-> exists ind, ind ∈ pop /\ l ∈ points ind.
Proof.
  unfold pop_locs. induction pop as [|ind' pop IH]; simpl.
  - split; [by intros ?%elem_of_nil | by intros (? & ?%elem_of_nil & _)].
  - rewrite elem_of_app, IH. split.
    + intros [Hl | (ind & Hind & Hl)]; [exists ind'; split; [left|done] |].
      exists ind. split; [by right | done].
    + intros (ind & [-> | Hind]%elem_of_cons & Hl); [by left|]. right. eauto.
Qed.

Lemma pop_locs_Permutation pop pop' l :
  pop ≡ₚ pop' -> l ∈ pop_locs pop -> l ∈ pop_locs pop'.
Proof.
  intros Hp. rewrite !elem_of_pop_locs. intros (ind & Hind & Hl).
  exists ind. split; [by rewrite <- Hp | done].
Qed.

(** [updateBest] either keeps the record, or replaces it by the energy of
    the first individual of the sorted population and by fresh copies of its
    points. *)
Definition best_kept (sim sim' : ThomsonSimulation F) (w w' : World) : Prop :=
  bestEnergy sim' = bestEnergy sim /\ bestConfig sim' = bestConfig sim /\ w' = w.

Definition best_replaced (sim sim' : ThomsonSimulation F) (w w' : World) : Prop :=
  exists first vals,
    sort_by_energy (population sim) !! 0 = Some first
    /\ (energy first <. bestEnergy sim) = true
    /\ bestEnergy sim' = energy first
    /\ stores w (points first) vals
    /\ bestConfig sim' = Some (seq (length (heap w)) (length vals))
    /\ w' = mkWorld (heap w ++ vals) (draws w).

Lemma wlp_updateBest sim (w : World) :
  Forall (fun ind => valid w (points ind)) (population sim) ->
  wlp (updateBest sim)
    (fun sim' w' =>
       n sim' = n sim /\ populationSize sim' = populationSize sim
       /\ population sim' = sort_by_energy (population sim)
       /\ (best_kept sim sim' w w' \/ best_replaced sim sim' w w')) w.
Proof.
  intros Hv. unfold updateBest. apply wlp_bind, wlp_at_index. intros first Hfirst.
  destruct (_ <. _) eqn:Hlt.
  - assert (Hin : first ∈ population sim).
    { rewrite <- (sort_by_Permutation energy). by eapply list_elem_of_lookup_2. }
    rewrite Forall_forall in Hv. destruct (valid_stores _ _ (Hv _ Hin)) as [vals Hst].
    apply wlp_bind. unfold wlp at 1. rewrite (clone_points_run _ vals) by done.
    apply wlp_ret. simpl. repeat split. right. by exists first, vals.
  - apply wlp_ret. simpl. repeat split. by left.
Qed.

(** *** step: the refinement pass *)

Lemma wp_refineAll g pop (w : World) :
  Forall (fun ind => valid w (points ind)) pop ->
  wp (refineAll g pop)
    (fun pop' w' =>
       map points pop' = map points pop
       /\ changes (pop_locs pop) w w'
       /\ length (heap w') = length (heap w)) w.
Proof.
  intros Hv. unfold refineAll.
  eapply wp_mono.
  - apply (wp_for_each
      (fun visited (done : list (Individual F)) w' =>
         map points done = map points visited
         /\ changes (pop_locs pop) w w'
         /\ length (heap w') = length (heap w))).
    + split; [done|]. split; [apply changes_refl | done].
    + intros visited ind rest done w1 Hpop (Hmap & Hch & Hlen).
      assert (Hind : ind ∈ pop).
      { rewrite Hpop. apply elem_of_app. right. by left. }
      assert (Hv1 : valid w1 (points ind)).
      { rewrite Forall_forall in Hv. eapply valid_grow; [by apply Hv | lia]. }
      apply wp_bind. eapply wp_mono; [by apply wp_gradientDescent|].
      intros [] w2 Hup. apply wp_bind.
      apply wp_calculateEnergy; [by eapply updates_valid|].
      intros e _. apply wp_ret. split; [|split].
      * rewrite !map_app, Hmap. done.
      * eapply changes_trans; [exact Hch | by apply updates_changes |].
        intros l _ Hl. apply elem_of_pop_locs. eauto.
      * destruct Hup as (-> & _). done.
  - done.
Qed.

(** *** step: one round of the replacement loop *)

Lemma wp_crossover_fresh sim parentA parentB (w : World) :
  valid w parentA -> valid w parentB ->
  wp (crossover rnd sim parentA parentB)
    (fun child w' =>
       (exists added d, w' = mkWorld (heap w ++ added) d)
       /\ Forall (fun l => length (heap w) <= l < length (heap w')) child
       /\ length child = n sim) w.
Proof.
  intros HvA HvB.
  destruct (valid_stores _ _ HvA) as [valsA HA].
  destruct (valid_stores _ _ HvB) as [valsB HB].
  destruct (crossover_run rnd sim parentA parentB valsA valsB w HA HB)
    as (child & Hrun & _ & Hsub & Hlen).
  eapply wp_done; [exact Hrun|]. split; [eauto|]. split; [|done].
  apply Forall_forall. intros l Hl.
  pose proof (elem_of_sublist _ _ _ Hl Hsub) as Hseq.
  apply elem_of_seq in Hseq. simpl. rewrite !length_app, samples_length. lia.
Qed.

(** What one round does to the simulation: the child goes to the slot
    [replaceIdx]. *)
Definition child_written (i : nat) (child : Individual F)
    (sim sim' : ThomsonSimulation F) : Prop :=
  n sim' = n sim /\ populationSize sim' = populationSize sim
  /\ bestConfig sim' = bestConfig sim /\ bestEnergy sim' = bestEnergy sim
  /\ ((populationSize sim - 1 - i < length (population sim)
       /\ population sim' = <[populationSize sim - 1 - i := child]> (population sim))
      \/ (populationSize sim - 1 - i = length (population sim)
          /\ population sim' = population sim ++ [child])).

Lemma wlp_recombineOnce g i sim (w : World) :
  Forall (fun ind => valid w (points ind)) (population sim) ->
  wlp (recombineOnce rnd g i sim)
    (fun r w' =>
       fst (fst r) ∈ population sim /\ snd (fst r) ∈ population sim
       /\ changes [] w w'
       /\ exists child,
            child_written i child sim (snd r)
            /\ Forall (fun l => length (heap w) <= l < length (heap w')) (points child)) w.
Proof.
  intros Hv. rewrite Forall_forall in Hv. unfold recombineOnce.
  apply wlp_bind. eapply wlp_mono; [apply wlp_tournamentSelect|].
  intros p1 w1 [Hh1 Hp1].
  apply wlp_bind. eapply wlp_mono; [apply wlp_tournamentSelect|].
  intros p2 w2 [Hh2 Hp2]. rewrite Hh1 in Hh2.
  assert (Hlen2 : length (heap w2) = length (heap w)) by (by rewrite Hh2).
  apply wlp_bind, wp_wlp. eapply wp_mono.
  { apply wp_crossover_fresh; (eapply valid_grow; [by apply Hv | lia]). }
  intros child w3 ((added & d & ->) & Hfresh & _). simpl in Hfresh.
  apply wlp_bind. eapply wlp_mono; [apply wlp_mutate|].
  intros [] w4 [Hch4 Hlen4]. simpl in Hlen4.
  assert (Hv4 : valid w4 child).
  { eapply Forall_impl; [exact Hfresh|]. simpl. intros l. lia. }
  apply wlp_bind, wp_wlp. eapply wp_mono; [by apply wp_gradientDescent|].
  intros [] w5 Hup5.
  apply wlp_bind, wp_wlp, wp_calculateEnergy; [by eapply updates_valid|].
  intros childEnergy _.
  assert (Hch : changes [] w w5).
  { apply (changes_trans [] child w (mkWorld (heap w2 ++ added) d) w5).
    - rewrite Hh2. apply changes_append.
    - eapply changes_trans; [exact Hch4 | by apply updates_changes | done].
    - intros l Hl Hin. rewrite Forall_forall in Hfresh.
      specialize (Hfresh _ Hin). lia. }
  assert (Hfresh5 : Forall (fun l => length (heap w) <= l < length (heap w5)) child).
  { destruct Hup5 as (Hl5 & _). rewrite Hl5, Hlen4.
    eapply Forall_impl; [exact Hfresh|]. simpl. intros l. lia. }
  apply wlp_bind. unfold array_set.
  destruct (_ <? _)%nat eqn:Hlt; [|destruct (_ =? _)%nat eqn:Heq; [|done]];
    apply wlp_ret, wlp_ret; simpl;
    (split; [done|]); (split; [done|]); (split; [done|]);
    exists (mkIndividual child childEnergy); (split; [|done]);
    unfold child_written; simpl; repeat (split; [done|]).
  - left. by apply Nat.ltb_lt in Hlt.
  - right. by apply Nat.eqb_eq in Heq.
Qed.

Lemma elem_of_insert_inv {A} (l : list A) i x y :
  y ∈ <[i := x]> l -> y = x \/ y ∈ l.
Proof.
  intros [k Hk]%list_elem_of_lookup.
  destruct (decide (k = i)) as [-> | Hne].
  - pose proof (lookup_lt_Some _ _ _ Hk) as Hlt. rewrite length_insert in Hlt.
    rewrite list_lookup_insert_eq in Hk by done. left. congruence.
  - rewrite list_lookup_insert_ne in Hk by done. right.
    by eapply list_elem_of_lookup_2.
Qed.

(** *** step: the replacement loop *)

(** [live sim sim' j p]: [p] is an individual of the population of [sim], or
    the child that a round before round [j] wrote, found in the population
    of [sim'] at the slot that round replaced. *)
Definition live (sim sim' : ThomsonSimulation F) (j : nat) (p : Individual F) : Prop :=
  p ∈ population sim
  \/ exists j', j' < j /\ population sim' !! (populationSize sim - 1 - j') = Some p.

Record pass_invariant (sim : ThomsonSimulation F) (w : World) (i : nat)
    (sim_i : ThomsonSimulation F) (log : list (Individual F * Individual F))
    (w_i : World) : Prop := {
  pass_n : n sim_i = n sim;
  pass_size : populationSize sim_i = populationSize sim;
  pass_bestConfig : bestConfig sim_i = bestConfig sim;
  pass_bestEnergy : bestEnergy sim_i = bestEnergy sim;
  pass_length : length (population sim_i) = length (population sim);
  pass_changes : changes [] w w_i;
  pass_valid : Forall (fun ind => valid w_i (points ind)) (population sim_i);
  pass_origin : forall ind, ind ∈ population sim_i ->
    ind ∈ population sim \/ Forall (fun l => length (heap w) <= l) (points ind);
  pass_untouched : forall k, k < populationSize sim - i ->
    population sim_i !! k = population sim !! k;
  pass_children : forall j, j < i ->
    exists child, population sim_i !! (populationSize sim - 1 - j) = Some child
                  /\ Forall (fun l => length (heap w) <= l) (points child);
  pass_log_length : length log = i;
  pass_log : forall j p1 p2, log !! j = Some (p1, p2) ->
    live sim sim_i j p1 /\ live sim sim_i j p2
}.

Lemma live_after_write sim sim_i sim' i j child p :
  j <= i -> i < populationSize sim ->
  population sim' = <[populationSize sim - 1 - i := child]> (population sim_i) ->
  live sim sim_i j p -> live sim sim' j p.
Proof.
  intros Hj Hi Hpop [Hp | (j' & Hj' & Hp)]; [by left|]. right.
  exists j'. split; [done|]. rewrite Hpop, list_lookup_insert_ne; [done | lia].
Qed.

Lemma live_selected sim sim_i sim' i child p :
  length (population sim) = populationSize sim ->
  length (population sim_i) = length (population sim) ->
  i < populationSize sim ->
  (forall k, k < populationSize sim - i -> population sim_i !! k = population sim !! k) ->
  population sim' = <[populationSize sim - 1 - i := child]> (population sim_i) ->
  p ∈ population sim_i -> live sim sim' i p.
Proof.
  intros Hsize Hlen Hi Hun Hpop Hp.
  apply list_elem_of_lookup in Hp as [k Hk].
  pose proof (lookup_lt_Some _ _ _ Hk) as Hklt.
  destruct (decide (k < populationSize sim - i)) as [Hlow|Hhigh].
  - left. rewrite Hun in Hk by done. by eapply list_elem_of_lookup_2.
  - right. exists (populationSize sim - 1 - k). split; [lia|].
    rewrite Hpop, list_lookup_insert_ne by lia.
    by replace (populationSize sim - 1 - (populationSize sim - 1 - k)) with k by lia.
Qed.

Lemma wlp_recombination g sim (w : World) :
  Forall (fun ind => valid w (points ind)) (population sim) ->
  length (population sim) = populationSize sim ->
  wlp (recombination rnd g sim)
    (fun r w' => pass_invariant sim w (populationSize sim / 2) (fst r) (snd r) w') w.
Proof.
  intros Hv Hsize. unfold recombination.
  apply (wlp_for_range
           (fun i (st : ThomsonSimulation F * list (Individual F * Individual F)) w_i =>
              pass_invariant sim w i (fst st) (snd st) w_i)); [lia | |].
  - split; simpl;
      first [ done | apply changes_refl | by (intros ind Hind; left)
            | by (intros j Hj; lia)
            | by (intros j p1 p2 Hj; rewrite lookup_nil in Hj) ].
  - intros i [sim_i log] w_i Hi [Hn HP Hbc Hbe Hlen Hch Hval Horig Hun Hkids Hll Hlog].
    simpl in Hn, HP, Hbc, Hbe, Hlen, Hch, Hval, Horig, Hun, Hkids, Hll, Hlog; simpl.
    assert (HiP : i < populationSize sim).
    { assert (populationSize sim / 2 <= populationSize sim)
        by (apply Nat.Div0.div_le_upper_bound; lia).
      lia. }
    apply wlp_bind. eapply wlp_mono; [by apply wlp_recombineOnce|].
    intros [[p1 p2] sim'] w' (Hp1 & Hp2 & Hch' & child & Hw & Hfresh).
    simpl in Hp1, Hp2, Hw. apply wlp_ret. simpl.
    destruct Hw as (Hn' & HP' & Hbc' & Hbe' & Hpop).
    rewrite HP in Hpop.
    destruct Hpop as [[_ Hpop] | [Himp _]]; [|lia].
    assert (Hle : length (heap w) <= length (heap w_i)) by apply Hch.
    split; simpl.
    + congruence.
    + congruence.
    + congruence.
    + congruence.
    + by rewrite Hpop, length_insert.
    + eapply changes_trans; [exact Hch | exact Hch' | done].
    + rewrite Hpop. apply Forall_insert.
      * eapply Forall_impl; [exact Hval|]. simpl. intros ind Hind.
        eapply valid_grow; [exact Hind | apply Hch'].
      * eapply Forall_impl; [exact Hfresh|]. simpl. intros l. lia.
    + intros ind Hind. rewrite Hpop in Hind.
      apply elem_of_insert_inv in Hind as [-> | Hind]; [|by apply Horig].
      right. simpl. eapply Forall_impl; [exact Hfresh|]. simpl. intros l. lia.
    + intros k Hk. rewrite Hpop, list_lookup_insert_ne by lia. apply Hun. lia.
    + intros j Hj. destruct (decide (j = i)) as [-> | Hne].
      * exists child. rewrite Hpop, list_lookup_insert_eq by lia. split; [done|].
        eapply Forall_impl; [exact Hfresh|]. simpl. intros l. lia.
      * destruct (Hkids j) as (c & Hc & Hcf); [lia|]. exists c.
        rewrite Hpop, list_lookup_insert_ne by lia. done.
    + rewrite length_app. simpl. lia.
    + intros j q1 q2 Hj.
      destruct (decide (j < length log)) as [Hjl | Hjl].
      * rewrite lookup_app_l in Hj by done.
        destruct (Hlog _ _ _ Hj) as [Hq1 Hq2].
        split; (eapply live_after_write; [| exact HiP | exact Hpop | done]); lia.
      * rewrite lookup_app_r in Hj by lia.
        apply list_lookup_singleton_Some in Hj as [Hj0 [= <- <-]].
        assert (j = i) as -> by lia.
        split; eapply live_selected; eauto; congruence.
Qed.

(** *** step as a whole *)

(** The objects of the population are allocated and as many as
    [populationSize]; the recorded best configuration is allocated and shares
    no object with the population. *)
Record well_formed (sim : ThomsonSimulation F) (w : World) : Prop := {
  wf_size : length (population sim) = populationSize sim;
  wf_valid : Forall (fun ind => valid w (points ind)) (population sim);
  wf_best_valid : forall best, bestConfig sim = Some best -> valid w best;
  wf_best_apart : forall best l,
    bestConfig sim = Some best -> l ∈ best -> l ∉ pop_locs (population sim)
}.

(** The new best energy is the old one or strictly below it. *)
Definition improves (new old : F) : Prop := new = old \/ (new <. old) = true.

Lemma wlp_updateBest_wf sim (w : World) :
  well_formed sim w ->
  wlp (updateBest sim)
    (fun sim' w' =>
       well_formed sim' w' /\ changes [] w w'
       /\ (best_kept sim sim' w w' \/ best_replaced sim sim' w w')) w.
Proof.
  intros [Hsize Hval Hbv Hba].
  eapply wlp_mono; [by apply wlp_updateBest|].
  intros sim' w' (Hn & HP & Hpop & Hcase).
  assert (Hperm : population sim' ≡ₚ population sim).
  { rewrite Hpop. apply sort_by_Permutation. }
  destruct Hcase as [(Hbe & Hbc & ->) | Hrep].
  - split; [|split; [apply changes_refl | left; by repeat split]].
    split.
    + by rewrite (Permutation_length Hperm), HP.
    + by rewrite Hperm.
    + rewrite Hbc. apply Hbv.
    + rewrite Hbc. intros best l Hb Hl Hin.
      apply (Hba best l Hb Hl). by eapply pop_locs_Permutation.
  - pose proof Hrep as (first & vals & Hfirst & Hlt & Hbe & Hst & Hbc & ->).
    split; [|split; [apply changes_append | by right]].
    split.
    + by rewrite (Permutation_length Hperm), HP.
    + rewrite Hperm. eapply Forall_impl; [exact Hval|]. simpl. intros ind Hind.
      eapply valid_grow; [exact Hind|]. simpl. rewrite length_app. lia.
    + rewrite Hbc. intros best [= <-]. apply Forall_forall. intros l Hl.
      apply elem_of_seq in Hl. simpl. rewrite length_app. lia.
    + rewrite Hbc. intros best l [= <-] Hl Hin.
      apply elem_of_seq in Hl.
      apply (pop_locs_Permutation _ _ _ Hperm) in Hin.
      apply elem_of_pop_locs in Hin as (ind & Hind & Hlind).
      rewrite Forall_forall in Hval. specialize (Hval _ Hind).
      unfold valid in Hval. rewrite Forall_forall in Hval.
      specialize (Hval _ Hlind). lia.
Qed.

Lemma best_kept_or_replaced_improves sim sim' (w w' : World) :
  best_kept sim sim' w w' \/ best_replaced sim sim' w w' ->
  improves (bestEnergy sim') (bestEnergy sim).
Proof.
  intros [(Hbe & _) | (first & vals & _ & Hlt & Hbe & _)].
  - by left.
  - right. by rewrite Hbe.
Qed.

(** A run: [step] called once for each element of [gs], the values the
    globals have at that call. *)
Fixpoint run_steps (gs : list (Globals F)) (sim : ThomsonSimulation F)
  : M (ThomsonSimulation F) :=
  match gs with
  | [] => ret sim
  | g :: gs' => do r <- step rnd g sim; run_steps gs' (snd r)
  end.

Section Order.
(** The best record needs only that [<] on Numbers is irreflexive and
    transitive. *)
Hypothesis lt_irrefl : forall x : F, (x <. x) = false.
Hypothesis lt_trans : forall x y z : F,
  (x <. y) = true -> (y <. z) = true -> (x <. z) = true.

Lemma improves_trans x y z : improves x y -> improves y z -> improves x z.
Proof.
  intros [-> | Hxy] [-> | Hyz]; [by left | by right | by right |].
  right. by eapply lt_trans.
Qed.

Lemma improves_antisym x y : improves x y -> improves y x -> x = y.
Proof.
  intros [-> | Hxy] [Heq | Hyx]; [done | done | done |].
  pose proof (lt_trans _ _ _ Hxy Hyx) as Hxx. by rewrite lt_irrefl in Hxx.
Qed.

Lemma best_replaced_changed sim sim' (w w' : World) :
  best_replaced sim sim' w w' -> bestEnergy sim' <> bestEnergy sim.
Proof.
  intros (first & vals & _ & Hlt & Hbe & _) Heq.
  rewrite <- Hbe, Heq in Hlt. by rewrite lt_irrefl in Hlt.
Qed.

(** What one call of [step] guarantees, when it returns. *)
Record step_spec (sim sim' : ThomsonSimulation F) (w w' : World) : Prop := {
  step_wf : well_formed sim' w';
  step_improves : improves (bestEnergy sim') (bestEnergy sim);
  step_changes : changes (pop_locs (population sim)) w w';
  step_best_stable : bestEnergy sim' = bestEnergy sim -> bestConfig sim' = bestConfig sim
}.

Lemma wlp_step g sim (w : World) :
  well_formed sim w ->
  wlp (step rnd g sim) (fun r w' => step_spec sim (snd r) w w') w.
Proof.
  intros Hwf. pose proof Hwf as [Hsize Hval Hbv Hba]. unfold step.
  apply wlp_bind, wp_wlp. eapply wp_mono; [by apply wp_refineAll|].
  intros pop1 w1 (Hmap & Hch1 & Hlen1).
  assert (Hlocs : pop_locs pop1 = pop_locs (population sim)).
  { unfold pop_locs. by rewrite Hmap. }
  assert (Hwf1 : well_formed (with_population sim pop1) w1).
  { split; simpl.
    - rewrite <- Hsize. apply (f_equal length) in Hmap.
      by rewrite !length_map in Hmap.
    - apply Forall_forall. intros ind Hind.
      assert (Hpts : points ind ∈ map points (population sim)).
      { rewrite <- Hmap. apply list_elem_of_fmap. eauto. }
      apply list_elem_of_fmap in Hpts as (ind0 & -> & Hind0).
      rewrite Forall_forall in Hval.
      eapply valid_grow; [by apply Hval | lia].
    - intros best Hb. eapply valid_grow; [by eapply Hbv | lia].
    - intros best l Hb Hl. rewrite Hlocs. by eapply Hba. }
  apply wlp_bind. eapply wlp_mono; [by apply wlp_updateBest_wf|].
  intros sim2 w2 (Hwf2 & Hch2 & Hcase2).
  apply wlp_bind. eapply wlp_mono.
  { apply wlp_recombination; [apply Hwf2 | apply Hwf2]. }
  intros [sim3 log] w3 [Hn3 HP3 Hbc3 Hbe3 Hlen3 Hch3 Hval3 Horig3 _ _ _ _].
  simpl in Hn3, HP3, Hbc3, Hbe3, Hlen3, Hch3, Hval3, Horig3. simpl fst.
  assert (Hwf3 : well_formed sim3 w3).
  { destruct Hwf2 as [Hsize2 Hval2 Hbv2 Hba2]. split.
    - congruence.
    - done.
    - rewrite Hbc3. intros best Hb. eapply valid_grow; [by eapply Hbv2 | apply Hch3].
    - rewrite Hbc3. intros best l Hb Hl Hin.
      apply elem_of_pop_locs in Hin as (ind & Hind & Hlind).
      destruct (Horig3 _ Hind) as [Hold | Hnew].
      + apply (Hba2 best l Hb Hl). apply elem_of_pop_locs. eauto.
      + rewrite Forall_forall in Hnew. specialize (Hnew _ Hlind).
        specialize (Hbv2 _ Hb). unfold valid in Hbv2.
        rewrite Forall_forall in Hbv2. specialize (Hbv2 _ Hl). lia. }
  apply wlp_bind. eapply wlp_mono; [by apply wlp_updateBest_wf|].
  intros sim4 w4 (Hwf4 & Hch4 & Hcase4). apply wlp_ret. simpl.
  assert (Himp2 : improves (bestEnergy sim2) (bestEnergy sim))
    by apply (best_kept_or_replaced_improves _ _ _ _ Hcase2).
  assert (Himp4 : improves (bestEnergy sim4) (bestEnergy sim3))
    by apply (best_kept_or_replaced_improves _ _ _ _ Hcase4).
  rewrite Hbe3 in Himp4.
  split.
  - done.
  - by eapply improves_trans.
  - apply (changes_trans _ [] w w1 w4); [exact Hch1 | | by intros ? ? ?%elem_of_nil].
    apply (changes_trans [] [] w1 w2 w4); [exact Hch2 | | done].
    apply (changes_trans [] [] w2 w3 w4); [exact Hch3 | exact Hch4 | done].
  - intros Heq.
    assert (H42 : bestEnergy sim4 = bestEnergy sim2).
    { apply improves_antisym; [done|]. by rewrite Heq. }
    assert (H2 : bestEnergy sim2 = bestEnergy sim) by congruence.
    destruct Hcase2 as [(_ & Hbc2 & _) | Hrep2];
      [|by apply best_replaced_changed in Hrep2].
    destruct Hcase4 as [(_ & Hbc4 & _) | Hrep4].
    + simpl in Hbc2. congruence.
    + apply best_replaced_changed in Hrep4. congruence.
Qed.

(** What a run guarantees of the best record. *)
Record run_spec (sim sim' : ThomsonSimulation F) (w w' : World) : Prop := {
  run_wf : well_formed sim' w';
  run_improves : improves (bestEnergy sim') (bestEnergy sim);
  run_best_stable :
    bestEnergy sim' = bestEnergy sim ->
    bestConfig sim' = bestConfig sim
    /\ forall best l, bestConfig sim = Some best -> l ∈ best ->
         heap w' !! l = heap w !! l
}.

Lemma wlp_run_steps gs sim (w : World) :
  well_formed sim w ->
  wlp (run_steps gs sim) (fun sim' w' => run_spec sim sim' w w') w.
Proof.
  revert sim w. induction gs as [|g gs IH]; intros sim w Hwf.
  - apply wlp_ret. split; [done | by left | done].
  - simpl. apply wlp_bind. eapply wlp_mono; [by apply wlp_step|].
    intros [d sim1] w1 [Hwf1 Himp1 Hch1 Hst1]. simpl in Hwf1, Himp1, Hst1.
    simpl snd. eapply wlp_mono; [by apply IH|].
    intros sim2 w2 [Hwf2 Himp2 Hst2]. split.
    + done.
    + by eapply improves_trans.
    + intros Heq.
      assert (H21 : bestEnergy sim2 = bestEnergy sim1).
      { apply improves_antisym; [done|]. by rewrite Heq. }
      assert (H1 : bestEnergy sim1 = bestEnergy sim) by congruence.
      destruct (Hst2 H21) as [Hbc2 Hv2]. specialize (Hst1 H1).
      split; [congruence|].
      intros best l Hb Hl. rewrite (Hv2 best l) by congruence.
      destruct Hwf as [_ _ Hbv Hba]. apply Hch1.
      * specialize (Hbv _ Hb). unfold valid in Hbv. rewrite Forall_forall in Hbv.
        by apply Hbv.
      * by eapply Hba.
Qed.

End Order.

(** *** The constructor *)

Lemma wp_createRandomConfig k (w : World) :
  wp (createRandomConfig rnd k)
    (fun config w' => valid w' config /\ length (heap w) <= length (heap w')) w.
Proof.
  unfold createRandomConfig.
  apply (wp_for_range
           (fun _ (pts : list loc) w' =>
              valid w' pts /\ length (heap w) <= length (heap w'))); [lia | |].
  - split; [constructor | done].
  - intros i pts w1 _ [Hv Hle].
    apply wp_bind. unfold wp at 1. rewrite randomPointOnSphere_run.
    apply wp_bind. unfold wp at 1, new_Vector3. apply wp_ret. cbn [heap draws].
    assert (Hlen : length (heap w1 ++ [sphere_point (rnd (draws w1)) (rnd (S (draws w1)))])
                   = S (length (heap w1))) by (rewrite length_app; simpl; lia).
    split; [|lia]. unfold valid. cbn [heap].
    apply Forall_app. split.
    + eapply Forall_impl; [exact Hv|]. cbv beta. intros l. rewrite Hlen. lia.
    + constructor; [|constructor]. rewrite Hlen. lia.
Qed.

Lemma wlp_new_ThomsonSimulation g k (w : World) :
  wlp (new_ThomsonSimulation rnd g k) (fun sim w' => well_formed sim w') w.
Proof.
  unfold new_ThomsonSimulation, initPopulation. simpl.
  apply wlp_bind, wp_wlp. eapply wp_mono.
  - apply (wp_for_range
             (fun i (pop : list (Individual F)) w' =>
                length pop = i
                /\ Forall (fun ind => valid w' (points ind)) pop)); [lia | |].
    + split; [done | constructor].
    + intros i pop w1 _ [Hlen Hv].
      apply wp_bind. eapply wp_mono; [apply wp_createRandomConfig|].
      intros config w2 [Hc Hle].
      apply wp_bind. eapply wp_mono; [by apply wp_gradientDescent|].
      intros [] w3 Hup. apply wp_bind.
      apply wp_calculateEnergy; [by eapply updates_valid|].
      intros e _. apply wp_ret. split.
      * rewrite length_app. simpl. lia.
      * apply Forall_app. split.
        -- eapply Forall_impl; [exact Hv|]. simpl. intros ind Hind.
           eapply valid_grow; [exact Hind|]. destruct Hup as (-> & _). lia.
        -- constructor; [|constructor]. simpl. by eapply updates_valid.
  - intros pop w1 [Hlen Hv]. simpl.
    eapply wlp_mono.
    + apply wlp_updateBest_wf. split; simpl; [lia | done | done | done].
    + intros sim' w' (Hwf & _). done.
Qed.

End Population.

(** * The sort puts a minimum first *)

Section Sorted.
Context {F : Type} `{Number F} {A : Type}.
Variable key : A -> F.

Hypothesis cmp_positive : forall x y : F, (lit_0 <. (x -. y)) = (y <. x).
Hypothesis lt_irrefl : forall x : F, (x <. x) = false.
Hypothesis lt_trans : forall x y z : F,
  (x <. y) = true -> (y <. z) = true -> (x <. z) = true.
Hypothesis lt_le_trans : forall x y z : F,
  num_leb z z = true -> (x <. y) = true -> (z <. y) = false -> (x <. z) = true.

(** [a] may stand before [b]: [b] is not below [a]. *)
Definition not_after (a b : A) : Prop := (key b <. key a) = false.

Lemma lt_asym x y : (x <. y) = true -> (y <. x) = false.
Proof.
  intros Hxy. destruct (y <. x) eqn:Hyx; [|done].
  pose proof (lt_trans _ _ _ Hxy Hyx) as Hxx. by rewrite lt_irrefl in Hxx.
Qed.

Lemma sort_insert_sorted a l :
  Forall (fun b => num_leb (key b) (key b) = true) l ->
  StronglySorted not_after l -> StronglySorted not_after (sort_insert key a l).
Proof.
  intros Hnum Hs. induction Hs as [|b l Hs IH Hb]; simpl.
  - repeat constructor.
  - apply Forall_cons in Hnum as [Hbb Hnum].
    unfold comparator. rewrite cmp_positive.
    destruct (key b <. key a) eqn:Hba.
    + constructor; [by apply IH|].
      apply Forall_forall. intros x Hx.
      rewrite (sort_insert_Permutation key a l) in Hx.
      apply elem_of_cons in Hx as [-> | Hx].
      * by apply lt_asym.
      * rewrite Forall_forall in Hb. by apply Hb.
    + constructor; [by constructor|].
      constructor; [done|].
      apply Forall_forall. intros x Hx. unfold not_after.
      destruct (key x <. key a) eqn:Hxa; [|done].
      rewrite Forall_forall in Hb. specialize (Hb _ Hx). unfold not_after in Hb.
      by rewrite (lt_le_trans _ _ _ Hbb Hxa Hba) in Hb.
Qed.

Lemma sort_by_sorted l :
  Forall (fun b => num_leb (key b) (key b) = true) l ->
  StronglySorted not_after (sort_by key l).
Proof.
  induction l as [|a l IH]; intros Hnum; simpl; [constructor|].
  apply Forall_cons in Hnum as [_ Hnum].
  apply sort_insert_sorted; [|by apply IH].
  by rewrite sort_by_Permutation.
Qed.

(** The first element of the sorted array is a minimum. *)
Lemma sort_by_first l first :
  Forall (fun b => num_leb (key b) (key b) = true) l ->
  sort_by key l !! 0 = Some first ->
  first ∈ l /\ forall b, b ∈ l -> (key b <. key first) = false.
Proof.
  intros Hnum Hfirst. pose proof (sort_by_sorted l Hnum) as Hs.
  pose proof (sort_by_Permutation key l) as Hp.
  destruct (sort_by key l) as [|a s] eqn:Hl; [done|]. injection Hfirst as ->.
  split; [rewrite <- Hp; left|].
  intros b Hb. rewrite <- Hp in Hb. inversion Hs as [|? ? Hs' Hall]; subst.
  apply elem_of_cons in Hb as [-> | Hb]; [apply lt_irrefl|].
  rewrite Forall_forall in Hall. by apply Hall.
Qed.

End Sorted.

(** C3.  A simulation is constructed, [step] is called any number of times
    ([gs]) and then any number of times more ([gs']).  Over the later calls
    the recorded best energy stays as it is or becomes strictly lower; the
    objects of the recorded best configuration are no points of any
    individual of the population; and while the best energy is unchanged the
    best configuration is the same objects holding the same values.  The
    record changes in [updateBest] only: a call that returns either leaves
    the record alone or replaces it by the energy of the first individual of
    the sorted population, which is strictly below the old record and, the
    energies being numbers, a minimum of the population, together with
    newly allocated copies of that individual's points. *)
Theorem best_record_monotone {T : Trig float} (rnd : nat -> float)
    (g0 : Globals float) (k : nat) (gs gs' : list (Globals float))
    (sim0 sim sim' : ThomsonSimulation float) (w0 w1 w2 w3 : World float) :
  new_ThomsonSimulation rnd g0 k w0 = Done sim0 w1 ->
  run_steps rnd gs sim0 w1 = Done sim w2 ->
  run_steps rnd gs' sim w2 = Done sim' w3 ->
  (bestEnergy sim' = bestEnergy sim \/ (bestEnergy sim' <. bestEnergy sim) = true)
  /\ (forall best l,
        bestConfig sim' = Some best -> l ∈ best -> l ∉ pop_locs (population sim'))
  /\ (bestEnergy sim' = bestEnergy sim ->
        bestConfig sim' = bestConfig sim
        /\ forall best l, bestConfig sim = Some best -> l ∈ best ->
             heap w3 !! l = heap w2 !! l)
  /\ (forall (s s' : ThomsonSimulation float) (w w' : World float),
        Forall (fun ind => valid w (points ind)) (population s) ->
        Forall (fun ind => (energy ind <=? energy ind)%float = true) (population s) ->
        updateBest s w = Done s' w' ->
        (bestEnergy s' = bestEnergy s /\ bestConfig s' = bestConfig s /\ w' = w)
        \/ exists first vals,
             first ∈ population s
             /\ (forall ind, ind ∈ population s ->
                   (energy first <=? energy ind)%float = true)
             /\ (energy first <. bestEnergy s) = true
             /\ bestEnergy s' = energy first
             /\ stores w (points first) vals
             /\ bestConfig s' = Some (seq (length (heap w)) (length vals))
             /\ w' = mkWorld (heap w ++ vals) (draws w)).
Proof.
  intros Hnew Hrun Hrun'.
  pose proof (wlp_elim _ _ _ _ _ (wlp_new_ThomsonSimulation rnd g0 k w0) Hnew) as Hwf0.
  pose proof (wlp_elim _ _ _ _ _
                (wlp_run_steps rnd float_ltb_irrefl float_ltb_trans gs sim0 w1 Hwf0) Hrun)
    as [Hwf _ _].
  pose proof (wlp_elim _ _ _ _ _
                (wlp_run_steps rnd float_ltb_irrefl float_ltb_trans gs' sim w2 Hwf) Hrun')
    as [Hwf' Himp Hst].
  split; [exact Himp|]. split; [apply Hwf'|]. split; [exact Hst|].
  intros s s' w w' Hv Hnum Hup.
  pose proof (wlp_elim _ _ _ _ _ (wlp_updateBest s w Hv) Hup) as (_ & _ & _ & Hcase).
  destruct Hcase as [Hkept | (first & vals & Hfirst & Hlt & Hbe & Hstores & Hbc & Hw)];
    [by left|].
  right. exists first, vals.
  destruct (sort_by_first (H := float_Number) energy float_sub_positive float_ltb_irrefl float_ltb_trans
              float_lt_le_trans (population s) first Hnum Hfirst) as [Hin Hmin].
  split; [exact Hin|]. split; [|done].
  intros ind Hind. rewrite Forall_forall in Hnum.
  apply float_leb_not_ltb; [by apply Hnum | by apply Hnum | by apply Hmin].
Qed.

Lemma best_record_monotone_witness :
  run_steps (H0 := example_trig) (fun _ => 0%float)
    [(mkGlobals 2 0 lit_1e_2 0x1.5798ee2308c3ap-27)%float]
    (mkSimulation 1 2 [mkIndividual [0] 0%float; mkIndividual [3] 0%float]
       (Some [2]) 0%float)
    (mkWorld (replicate 4 (mkVector3 0x1.1a62633145c07p-53 0 (-1))%float) 13)
  = Done
      (mkSimulation 1 2 [mkIndividual [0] 0%float; mkIndividual [4] 0%float]
         (Some [2]) 0%float)
      (mkWorld (replicate 5 (mkVector3 0x1.1a62633145c07p-53 0 (-1))%float) 22)
  /\ (0%float = 0%float \/ (0%float <. 0%float) = true)
  /\ 2 ∉ pop_locs [mkIndividual [0] 0%float; mkIndividual [4] 0%float].
Proof.
  assert (Hrun' :
    run_steps (H0 := example_trig) (fun _ => 0%float)
      [(mkGlobals 2 0 lit_1e_2 0x1.5798ee2308c3ap-27)%float]
      (mkSimulation 1 2 [mkIndividual [0] 0%float; mkIndividual [3] 0%float]
         (Some [2]) 0%float)
      (mkWorld (replicate 4 (mkVector3 0x1.1a62633145c07p-53 0 (-1))%float) 13)
    = Done
        (mkSimulation 1 2 [mkIndividual [0] 0%float; mkIndividual [4] 0%float]
           (Some [2]) 0%float)
        (mkWorld (replicate 5 (mkVector3 0x1.1a62633145c07p-53 0 (-1))%float) 22))
    by (vm_compute; reflexivity).
  split; [exact Hrun'|].
  pose proof (best_record_monotone (T := example_trig) (fun _ => 0%float)
                (mkGlobals 2 0 lit_1e_2 0x1.5798ee2308c3ap-27)%float 1
                [(mkGlobals 2 0 lit_1e_2 0x1.5798ee2308c3ap-27)%float]
                [(mkGlobals 2 0 lit_1e_2 0x1.5798ee2308c3ap-27)%float]
                (mkSimulation 1 2 [mkIndividual [0] 0%float; mkIndividual [1] 0%float]
                   (Some [2]) 0%float)
                _ _
                (mkWorld [] 0)
                (mkWorld (replicate 3 (mkVector3 0x1.1a62633145c07p-53 0 (-1))%float) 4)
                _ _
                ltac:(vm_compute; reflexivity) ltac:(vm_compute; reflexivity) Hrun')
    as (Himp & Hapart & _).
  split; [exact Himp|].
  apply (Hapart [2]); [reflexivity | left].
Defined.

(** C6, as the code has it.  The replacement loop writes each child into
    [this.population] at once and [tournamentSelect] reads
    [this.population] as it stands: a parent selected in round [j] is an
    individual of the population from before the pass, or one of the
    children that the rounds before [j] wrote, which sit at the slots
    [populationSize - 1 - j'] and are objects allocated during the pass. *)
Theorem recombination_parents {F : Type} `{Number F} `{Trig F}
    (rnd : nat -> F) (g : Globals F) (sim sim' : ThomsonSimulation F)
    (log : list (Individual F * Individual F)) (w w' : World F) :
  Forall (fun ind => valid w (points ind)) (population sim) ->
  length (population sim) = populationSize sim ->
  recombination rnd g sim w = Done (sim', log) w' ->
  length log = populationSize sim / 2
  /\ (forall j p1 p2, log !! j = Some (p1, p2) ->
        live sim sim' j p1 /\ live sim sim' j p2)
  /\ (forall j, j < populationSize sim / 2 ->
        exists child,
          population sim' !! (populationSize sim - 1 - j) = Some child
          /\ Forall (fun l => length (heap w) <= l) (points child)).
Proof.
  intros Hv Hsize Hrun.
  pose proof (wlp_elim _ _ _ _ _ (wlp_recombination rnd g sim w Hv Hsize) Hrun)
    as [_ _ _ _ _ _ _ _ _ Hkids Hlen Hlog].
  auto.
Qed.

Lemma recombination_parents_witness :
  exists sim' log w',
    recombination (H0 := example_trig) (fun _ => 0%float)
      (mkGlobals 2 0 lit_1e_2 0x1.5798ee2308c3ap-27)%float
      (mkSimulation 1 2
         [mkIndividual [0] 0%float; mkIndividual [1] 0%float] None infinity)
      (mkWorld [mkVector3 0 0 (-1); mkVector3 0 0 (-1)]%float 0)
    = Done (sim', log) w'
    /\ length log = 1.
Proof.
  set (o := recombination _ _ _ _).
  assert (Ho : exists sim' log w', o = Done (sim', log) w')
    by (vm_compute; do 3 eexists; reflexivity).
  destruct Ho as (sim' & log & w' & Ho). exists sim', log, w'.
  split; [exact Ho|].
  refine (proj1 (recombination_parents (H0 := example_trig) _ _ _ sim' log _ w' _ _ Ho)).
  - repeat constructor.
  - reflexivity.
Defined.

(** C6 as stated fails.  A simulation of one electron and four individuals
    is constructed and refined ([Math.random] returns 0 except at its calls
    17 to 22, where it returns 0.75; the mutation rate is 0).  Before the
    replacement loop the individuals hold the objects 0, 1, 2 and 3.  Round
    0 selects the individual of object 0 twice and writes its child, the new
    object 5, to slot 3; round 1 draws index 3 and selects that child as
    both parents. *)
Lemma recombination_selects_child :
  result_of
    ((do sim0 <- new_ThomsonSimulation (H0 := example_trig)
                   (fun k => if (17 <=? k)%nat && (k <=? 22)%nat
                             then 0.75%float else 0%float)
                   (mkGlobals 4 0 lit_1e_2 0x1.5798ee2308c3ap-27)%float 1;
      do pop <- refineAll (mkGlobals 4 0 lit_1e_2 0x1.5798ee2308c3ap-27)%float
                   (population sim0);
      do sim1 <- updateBest (with_population sim0 pop);
      do r <- recombination (H0 := example_trig)
                (fun k => if (17 <=? k)%nat && (k <=? 22)%nat
                          then 0.75%float else 0%float)
                (mkGlobals 4 0 lit_1e_2 0x1.5798ee2308c3ap-27)%float sim1;
      ret (map points (population sim1),
           map (fun p => (points (fst p), points (snd p))) (snd r)))
       (mkWorld [] 0))
  = Some ([[0]; [1]; [2]; [3]], [([0], [0]); ([5], [5])]).
Proof. vm_compute. reflexivity. Qed.

(** * The edges of the hull *)

(** ** Unique edges *)

Section EdgeKeys.
Context {F : Type} `{Number F} `{ToFixed F}.

(** The canonical key does not depend on the direction of the edge. *)
Lemma edgeKey_sym (a b : Vector3 F) : edgeKey a b = edgeKey b a.
Proof.
  unfold edgeKey, String.ltb. cbv zeta.
  rewrite (String.compare_antisym (getVertexKey b) (getVertexKey a)).
  destruct (String.compare (getVertexKey a) (getVertexKey b)) eqn:Hc; simpl; try done.
  apply String.compare_eq_iff in Hc. by rewrite Hc.
Qed.

Lemma map_has_spec (m : list (string * Edge F)) k :
  map_has m k = true <-> k ∈ map fst m.
Proof.
  unfold map_has. rewrite existsb_exists, list_elem_of_fmap. split.
  - intros (kv & Hin & Heq). apply String.eqb_eq in Heq.
    exists kv. split; [done | by apply list_elem_of_In].
  - intros (kv & -> & Hin). exists kv. split; [by apply list_elem_of_In|].
    apply String.eqb_refl.
Qed.

(** The edges of the triangles in the order the loop meets them. *)
Definition triangleEdges (vertices : list F) : list (Vector3 F * Vector3 F) :=
  flat_map (fun i =>
    let v1 := vertex_at vertices i in
    let v2 := vertex_at vertices (i + 3) in
    let v3 := vertex_at vertices (i + 6) in
    [(v1, v2); (v2, v3); (v3, v1)]) (triangleStarts (length vertices)).

Definition addEdge (m : list (string * Edge F)) (ab : Vector3 F * Vector3 F) :=
  processEdge (fst ab) (snd ab) m.

Lemma collectEdges_triangleEdges vertices :
  collectEdges vertices = fold_left addEdge (triangleEdges vertices) [].
Proof.
  unfold collectEdges, triangleEdges. by rewrite fold_left_flat_map.
Qed.

(** An edge between two vertices of the same key is no edge. *)
Definition proper (ab : Vector3 F * Vector3 F) : Prop :=
  getVertexKey (fst ab) <> getVertexKey (snd ab).

Definition entry (ab : Vector3 F * Vector3 F) : string * Edge F :=
  (edgeKey (fst ab) (snd ab), mkEdge (fst ab) (snd ab) (v_distanceTo (fst ab) (snd ab))).

(** One call of [processEdge]: the map is unchanged when the edge is not
    proper or its key is present, and gets one more entry otherwise. *)
Lemma addEdge_cases m ab :
  (addEdge m ab = m /\ (~ proper ab \/ fst (entry ab) ∈ map fst m))
  \/ (addEdge m ab = m ++ [entry ab] /\ proper ab /\ fst (entry ab) ∉ map fst m).
Proof.
  unfold addEdge, processEdge, proper, entry. cbv zeta. simpl fst.
  destruct (String.eqb _ _) eqn:Heq.
  - left. split; [done|]. left. apply String.eqb_eq in Heq. by intros [].
  - apply String.eqb_neq in Heq.
    destruct (map_has m _) eqn:Hhas.
    + left. split; [done|]. right. by apply map_has_spec.
    + right. split; [done|]. split; [done|].
      rewrite <- map_has_spec. by rewrite Hhas.
Qed.

(** What the map of unique edges is to the edges met. *)
Record deduplicated (cands : list (Vector3 F * Vector3 F))
    (unique : list (string * Edge F)) : Prop := {
  dedup_keys : NoDup (map fst unique);
  dedup_entries : forall kv, kv ∈ unique ->
    exists ab, ab ∈ cands /\ proper ab /\ kv = entry ab;
  dedup_complete : forall ab, ab ∈ cands -> proper ab ->
    fst (entry ab) ∈ map fst unique;
  dedup_first : forall pre ab post,
    cands = pre ++ ab :: post -> proper ab ->
    (forall ab', ab' ∈ pre -> proper ab' -> fst (entry ab') <> fst (entry ab)) ->
    entry ab ∈ unique;
  dedup_order :
    sublist (map (fun kv => (e_start (snd kv), e_end (snd kv))) unique) cands
}.

Lemma deduplicated_nil : deduplicated [] [].
Proof.
  split.
  - constructor.
  - by intros kv ?%elem_of_nil.
  - by intros ab ?%elem_of_nil.
  - intros pre ab post Heq. by destruct pre.
  - constructor.
Qed.

Lemma deduplicated_step cands unique ab :
  deduplicated cands unique -> deduplicated (cands ++ [ab]) (addEdge unique ab).
Proof.
  intros [Hkeys Hent Hcomp Hfirst Hord].
  assert (Hfirst' : forall m : list (string * Edge F),
            (forall kv, kv ∈ unique -> kv ∈ m) ->
            (proper ab -> fst (entry ab) ∉ map fst unique -> entry ab ∈ m) ->
            forall pre ab0 post,
              cands ++ [ab] = pre ++ ab0 :: post -> proper ab0 ->
              (forall ab', ab' ∈ pre -> proper ab' -> fst (entry ab') <> fst (entry ab0)) ->
              entry ab0 ∈ m).
  { intros m Hm Hnew pre ab0 post Heq Hp Hpre.
    destruct (decide (post = [])) as [-> | Hpost].
    - apply app_inj_tail in Heq as [-> ->]. apply Hnew; [done|].
      intros (kv & Hk & Hkv)%list_elem_of_fmap.
      destruct (Hent _ Hkv) as (ab' & Hab' & Hp' & ->).
      by apply (Hpre ab' Hab' Hp').
    - destruct (exists_last Hpost) as (post' & x & ->).
      rewrite app_comm_cons, app_assoc in Heq.
      apply app_inj_tail in Heq as [-> ->].
      apply Hm. by eapply Hfirst. }
  destruct (addEdge_cases unique ab) as [[-> Hwhy] | (-> & Hp & Hnew)].
  - split.
    + done.
    + intros kv Hkv. destruct (Hent _ Hkv) as (ab' & Hab' & Hrest).
      exists ab'. split; [|done]. apply elem_of_app. by left.
    + intros ab' [Hin | ->%list_elem_of_singleton]%elem_of_app Hp'; [by apply Hcomp|].
      by destruct Hwhy.
    + apply Hfirst'; [done|]. intros Hp Hnew. by destruct Hwhy.
    + by apply sublist_inserts_r.
  - split.
    + rewrite map_app. simpl. apply NoDup_app. split; [done|]. split.
      * intros k Hk ->%list_elem_of_singleton. done.
      * apply NoDup_singleton.
    + intros kv [Hkv | ->%list_elem_of_singleton]%elem_of_app.
      * destruct (Hent _ Hkv) as (ab' & Hab' & Hrest).
        exists ab'. split; [|done]. apply elem_of_app. by left.
      * exists ab. split; [|done]. apply elem_of_app. right. by left.
    + intros ab' [Hin | ->%list_elem_of_singleton]%elem_of_app Hp';
        rewrite map_app; apply elem_of_app.
      * left. by apply Hcomp.
      * right. by left.
    + apply Hfirst'.
      * intros kv Hkv. apply elem_of_app. by left.
      * intros _ _. apply elem_of_app. right. by left.
    + rewrite map_app. simpl. destruct ab as [a b]. simpl.
      by apply sublist_app.
Qed.

Lemma fold_left_addEdge_deduplicated cands :
  deduplicated cands (fold_left addEdge cands []).
Proof.
  induction cands as [|ab cands IH] using rev_ind.
  - apply deduplicated_nil.
  - rewrite fold_left_app. simpl. by apply deduplicated_step.
Qed.

Lemma collectEdges_deduplicated vertices :
  deduplicated (triangleEdges vertices) (collectEdges vertices).
Proof.
  rewrite collectEdges_triangleEdges. apply fold_left_addEdge_deduplicated.
Qed.

End EdgeKeys.

(** ** First-fit grouping *)

Section Grouping.
Context {F : Type} `{Number F}.

(** The test of the grouping loop: [Math.abs(g.len - edge.len) < threshold]. *)
Definition fits (g : EdgeGroup F) (e : Edge F) : bool :=
  num_abs (g_len g -. e_len e) <. lit_1e_2.

Definition joined (g : EdgeGroup F) (e : Edge F) : EdgeGroup F :=
  mkEdgeGroup (g_len g) (g_edges g ++ [e]).

(** One round of [edges.forEach]: the edge joins the first group that fits,
    and starts a group at the end when none does. *)
Lemma addToGroup_cases e gs :
  (exists i g,
      gs !! i = Some g /\ fits g e = true
      /\ (forall j gj, j < i -> gs !! j = Some gj -> fits gj e = false)
      /\ addToGroup e gs = <[i := joined g e]> gs)
  \/ ((forall j gj, gs !! j = Some gj -> fits gj e = false)
      /\ addToGroup e gs = gs ++ [mkEdgeGroup (e_len e) [e]]).
Proof.
  induction gs as [|g gs IH]; simpl.
  - right. split; [|done]. intros j gj. by rewrite lookup_nil.
  - fold (fits g e). destruct (fits g e) eqn:Hfit.
    + left. exists 0, g. split; [done|]. split; [done|]. split; [|done].
      intros j gj Hj. lia.
    + destruct IH as [(i & g0 & Hi & Hfit0 & Hbefore & ->) | (Hnone & ->)].
      * left. exists (S i), g0. split; [done|]. split; [done|]. split; [|done].
        intros [|j] gj Hj Hgj; simpl in Hgj; [by injection Hgj as <-|].
        apply (Hbefore j); [lia | done].
      * right. split; [|done].
        intros [|j] gj Hgj; simpl in Hgj; [by injection Hgj as <-|].
        by apply (Hnone j).
Qed.

(** What the groups are to the edges they were made from. *)
Record first_fit (edges : list (Edge F)) (groups : list (EdgeGroup F)) : Prop := {
  ff_group : forall g, g ∈ groups ->
    exists e0 rest,
      g_edges g = e0 :: rest /\ g_len g = e_len e0
      /\ Forall (fun e => fits g e = true) rest;
  ff_first : forall i g e j gj,
    groups !! i = Some g -> e ∈ g_edges g ->
    j < i -> groups !! j = Some gj -> fits gj e = false;
  ff_partition : concat (map g_edges groups) ≡ₚ edges;
  ff_order : forall g, g ∈ groups -> sublist (g_edges g) edges
}.

Lemma first_fit_nil : first_fit [] [].
Proof.
  split.
  - by intros g ?%elem_of_nil.
  - intros i g e j gj Hi. by rewrite lookup_nil in Hi.
  - done.
  - by intros g ?%elem_of_nil.
Qed.

Lemma first_fit_step edges groups e :
  first_fit edges groups -> first_fit (edges ++ [e]) (addToGroup e groups).
Proof.
  intros [Hgroup Hfirst Hpart Hord].
  destruct (addToGroup_cases e groups)
    as [(i & g & Hi & Hfit & Hbefore & ->) | (Hnone & ->)].
  - pose proof (lookup_lt_Some _ _ _ Hi) as Hlt.
    (* every group of the new array is a group of the old one, or [g] with
       [e] at its end *)
    assert (Hlook : forall j gj, <[i := joined g e]> groups !! j = Some gj ->
              (j <> i /\ groups !! j = Some gj) \/ (j = i /\ gj = joined g e)).
    { intros j gj Hj. apply list_lookup_insert_Some in Hj as [(-> & <- & _) | [Hne Hj]].
      - by right.
      - left. by split. }
    assert (Hlen : forall j gj, <[i := joined g e]> groups !! j = Some gj ->
              exists gj0, groups !! j = Some gj0 /\ g_len gj = g_len gj0).
    { intros j gj Hj. destruct (Hlook j gj Hj) as [[_ Hj0] | [-> ->]].
      - by exists gj.
      - by exists g. }
    split.
    + intros g1 (j & Hj)%list_elem_of_lookup.
      destruct (Hlook j g1 Hj) as [[_ Hj0] | [-> ->]].
      * apply Hgroup. by eapply list_elem_of_lookup_2.
      * destruct (Hgroup g) as (e0 & rest & Hed & Hl & Hrest);
          [by eapply list_elem_of_lookup_2|].
        exists e0, (rest ++ [e]). simpl. rewrite Hed. split; [done|]. split; [done|].
        apply Forall_app. split; [done|]. by constructor.
    + intros i1 g1 e1 j gj Hi1 He1 Hji Hj.
      destruct (Hlen j gj Hj) as (gj0 & Hj0 & Hl).
      unfold fits. rewrite Hl. fold (fits gj0 e1).
      destruct (Hlook i1 g1 Hi1) as [[_ Hi0] | [-> ->]].
      * by apply (Hfirst i1 g1 e1 j gj0).
      * simpl in He1. apply elem_of_app in He1 as [He1 | ->%list_elem_of_singleton].
        -- by apply (Hfirst i g e1 j gj0).
        -- by apply (Hbefore j).
    + rewrite insert_take_drop by done.
      rewrite <- (take_drop_middle groups i g Hi) in Hpart.
      rewrite map_app, concat_app in Hpart |- *; cbv beta. simpl in Hpart |- *; cbv beta.
      rewrite <- Hpart. rewrite <- !app_assoc.
      apply Permutation_app_head. rewrite (app_assoc _ [e]).
      rewrite <- app_assoc. apply Permutation_app_head.
      apply Permutation_app_comm.
    + intros g1 (j & Hj)%list_elem_of_lookup.
      destruct (Hlook j g1 Hj) as [[_ Hj0] | [-> ->]].
      * apply sublist_inserts_r, Hord. by eapply list_elem_of_lookup_2.
      * simpl. apply sublist_app; [|done]. apply Hord. by eapply list_elem_of_lookup_2.
  - split.
    + intros g1 [Hg1 | ->%list_elem_of_singleton]%elem_of_app; [by apply Hgroup|].
      exists e, []. by repeat split.
    + intros i1 g1 e1 j gj Hi1 He1 Hji Hj.
      assert (Hj0 : groups !! j = Some gj).
      { apply lookup_lt_Some in Hi1 as Hlt. rewrite length_app in Hlt. simpl in Hlt.
        rewrite lookup_app_l in Hj by lia. done. }
      apply lookup_app_Some in Hi1 as [Hi1 | [Hge Hi1]].
      * by apply (Hfirst i1 g1 e1 j gj).
      * apply list_lookup_singleton_Some in Hi1 as [_ <-]. simpl in He1.
        apply list_elem_of_singleton in He1 as ->. by apply (Hnone j).
    + rewrite map_app, concat_app. simpl. by rewrite Hpart.
    + intros g1 [Hg1 | ->%list_elem_of_singleton]%elem_of_app.
      * by apply sublist_inserts_r, Hord.
      * simpl. by apply sublist_inserts_l.
Qed.

Lemma groupEdges_first_fit edges : first_fit edges (groupEdges edges).
Proof.
  unfold groupEdges. induction edges as [|e edges IH] using rev_ind.
  - apply first_fit_nil.
  - rewrite fold_left_app. simpl. by apply first_fit_step.
Qed.

End Grouping.

(** ** calculateEdgeGroups *)

Section HullInput.
Context {F : Type} `{Number F}.

(** The values of the points, as [THREE.ConvexGeometry] reads them. *)
Lemma read_points_run pts vals acc (w : World F) :
  stores w pts vals ->
  for_each pts (fun l acc => do v <- read l; ret (acc ++ [v])) acc w
  = Done (acc ++ vals) w.
Proof.
  revert vals acc. induction pts as [|l pts IH]; intros vals acc Hst.
  - apply Forall2_nil_inv_l in Hst as ->. simpl. by rewrite app_nil_r.
  - apply Forall2_cons_inv_l in Hst as (v & vals' & Hl & Hst & ->).
    cbn [for_each]. unfold bind at 1. unfold bind at 1, read. rewrite Hl.
    unfold ret at 1. rewrite (IH vals') by done. by rewrite <- app_assoc.
Qed.

End HullInput.

Lemma StronglySorted_impl {A} (R R' : A -> A -> Prop) l :
  (forall a b, a ∈ l -> b ∈ l -> R a b -> R' a b) ->
  StronglySorted R l -> StronglySorted R' l.
Proof.
  intros Himp Hs. induction Hs as [|a l Hs IH Hall]; constructor.
  - apply IH. intros x y Hx Hy. apply Himp; by right.
  - apply Forall_forall. intros b Hb. rewrite Forall_forall in Hall.
    apply Himp; [by left | by right | by apply Hall].
Qed.

(** The hull of four points in general position, as its four triangles. *)
Definition example_hull (vs : list (Vector3 float)) : list float :=
  flat_map (fun i => match vs !! i with
                     | Some v => [vx v; vy v; vz v]
                     | None => []
                     end)
    [0; 3; 1; 0; 1; 2; 0; 2; 3; 1; 3; 2].

(** The constructor for these examples: it builds that hull and makes the
    four calls of [Math.random] that give a geometry of three.js its uuid. *)
Definition example_ConvexGeometry (vs : list (Vector3 float))
  : M float (list float) :=
  fun w => Done (example_hull vs) (mkWorld (heap w) (draws w + 4)).

Definition example_points : list (Vector3 float) :=
  [mkVector3 0 0 1; mkVector3 1 0 0; mkVector3 0 1 0; mkVector3 0 0 (-1)]%float.

(** C7.  On binary64, for at least four points and with
    [THREE.ConvexGeometry] loaded, [calculateEdgeGroups] returns the groups
    described by four facts, [vertices] being the position array of the hull
    the library built.  The unique edges are the edges of the hull's
    triangles deduplicated by [edgeKey]: their keys are pairwise different,
    each of them is the first edge met with its key, an edge whose two
    vertices have the same key is dropped, and they keep the order in which
    they were met.  [edgeKey] is built from the [toFixed(4)] strings of the
    coordinates of the two end points and is the same for both directions
    of an edge.  The groups are a first-fit grouping of the unique edges in
    that order: the length of a group is the length of its first edge, each
    later edge [e] of a group has [|g.len - e.len| < 1e-2], no group before
    the group of an edge fits that edge, and every edge is in exactly one
    group.  The result is these groups reordered by the sort, in ascending
    order of length when no length is NaN.  The call leaves the world as the
    constructor of the hull left it. *)
Theorem calculateEdgeGroups_groups {TF : ToFixed float}
    (hull : list (Vector3 float) -> M float (list float)) (pts : list loc)
    (vals : list (Vector3 float)) (w w' : World float) (vertices : list float) :
  4 <= length pts -> stores w pts vals -> hull vals w = Done vertices w' ->
  calculateEdgeGroups (Some hull) pts w
  = Done (sort_by g_len (groupEdges (map snd (collectEdges vertices)))) w'
  /\ deduplicated (triangleEdges vertices) (collectEdges vertices)
  /\ (forall a b : Vector3 float, edgeKey a b = edgeKey b a)
  /\ first_fit (map snd (collectEdges vertices))
       (groupEdges (map snd (collectEdges vertices)))
  /\ sort_by g_len (groupEdges (map snd (collectEdges vertices)))
     ≡ₚ groupEdges (map snd (collectEdges vertices))
  /\ (Forall (fun g => (g_len g <=? g_len g)%float = true)
        (groupEdges (map snd (collectEdges vertices))) ->
      StronglySorted (fun g1 g2 => (g_len g1 <=? g_len g2)%float = true)
        (sort_by g_len (groupEdges (map snd (collectEdges vertices))))).
Proof.
  intros Hlen Hst Hhull. split; [|split; [|split; [|split; [|split]]]].
  - unfold calculateEdgeGroups.
    destruct (length pts <? 4)%nat eqn:Hlt; [apply Nat.ltb_lt in Hlt; lia|].
    unfold bind. rewrite (read_points_run pts vals []) by done.
    simpl. by rewrite Hhull.
  - apply collectEdges_deduplicated.
  - apply edgeKey_sym.
  - apply groupEdges_first_fit.
  - apply sort_by_Permutation.
  - intros Hnum.
    pose proof (sort_by_sorted (H := float_Number) g_len float_sub_positive
                  float_ltb_irrefl float_ltb_trans float_lt_le_trans _ Hnum) as Hs.
    eapply StronglySorted_impl; [|exact Hs].
    intros a b Ha Hb Hab. rewrite Forall_forall in Hnum.
    rewrite sort_by_Permutation in Ha, Hb.
    apply float_leb_not_ltb; [by apply Hnum | by apply Hnum | exact Hab].
Qed.

Lemma calculateEdgeGroups_groups_witness :
  option_map (map (fun g => (g_len g, length (g_edges g))))
    (result_of (calculateEdgeGroups (H0 := float_ToFixed) (Some example_ConvexGeometry)
                  [0; 1; 2; 3] (mkWorld example_points 0)))
  = Some [(0x1.6a09e667f3bcdp+0%float, 5); (2%float, 1)].
Proof.
  destruct (calculateEdgeGroups_groups (TF := float_ToFixed) example_ConvexGeometry
              [0; 1; 2; 3] example_points (mkWorld example_points 0)
              (mkWorld example_points 4) (example_hull example_points))
    as [Hrun _].
  - simpl. lia.
  - repeat constructor.
  - reflexivity.
  - rewrite Hrun. vm_compute. reflexivity.
Defined.

(** C8.  For fewer than four points [calculateEdgeGroups] returns the empty
    array of groups, whether [THREE.ConvexGeometry] is loaded or not; it
    reads no point and raises nothing. *)
Theorem calculateEdgeGroups_few_points {F : Type} `{Number F} `{ToFixed F}
    (ConvexGeometry : option (list (Vector3 F) -> M F (list F))) (pts : list loc)
    (w : World F) :
  length pts < 4 -> calculateEdgeGroups ConvexGeometry pts w = Done [] w.
Proof.
  intros Hlen. unfold calculateEdgeGroups.
  apply Nat.ltb_lt in Hlen. by rewrite Hlen.
Qed.

Lemma calculateEdgeGroups_few_points_witness :
  calculateEdgeGroups (H0 := float_ToFixed) (Some example_ConvexGeometry) [0; 1; 2]
    (mkWorld example_points 0)
  = Done [] (mkWorld example_points 0).
Proof. apply calculateEdgeGroups_few_points. simpl. lia. Defined.

(** * Signs on binary64

    Sums and quotients of numbers that are not below zero. *)

Section Signs.
Local Open Scope Z_scope.

(** A binary64 value that is a number and not below zero. *)
Definition SFnonneg (x : spec_float) : Prop := SFleb (S754_zero false) x = true.

Lemma SFnonneg_cases x :
  SFnonneg x <->
  match x with
  | S754_zero _ | S754_finite false _ _ | S754_infinity false => True
  | _ => False
  end.
Proof. unfold SFnonneg, SFleb. destruct x as [[]|[]| |[] m e]; simpl; intuition congruence. Qed.

Lemma shr_fexp_nonneg m e l :
  0 <= m -> 0 <= shr_m (fst (shr_fexp prec emax m e l)).
Proof.
  intros Hm. unfold shr_fexp, shr.
  destruct (fexp prec emax (Zdigits2 m + e) - e) as [|n|n]; simpl;
    rewrite ?shr_record_of_loc_m; try done.
  rewrite iter_shr_1_m by (by rewrite shr_record_of_loc_m).
  rewrite shr_record_of_loc_m. apply Z.div_pos; [done|]. apply Z.pow_pos_nonneg; lia.
Qed.

Lemma binary_round_aux_nonneg mx ex lx :
  0 <= mx -> SFnonneg (binary_round_aux prec emax false mx ex lx).
Proof.
  intros Hm. unfold binary_round_aux.
  pose proof (shr_fexp_nonneg mx ex lx Hm) as Hm1.
  destruct (shr_fexp prec emax mx ex lx) as [mrs' e']. simpl in Hm1.
  pose proof (round_nearest_even_ge (shr_m mrs') (loc_of_shr_record mrs')) as Hr.
  pose proof (shr_fexp_nonneg (round_nearest_even (shr_m mrs') (loc_of_shr_record mrs'))
                e' loc_Exact) as Hm2.
  destruct (shr_fexp prec emax _ e' loc_Exact) as [mrs'' e''].
  simpl in Hm2. apply SFnonneg_cases.
  destruct (shr_m mrs''); [done | by destruct (_ <=? _) | lia].
Qed.

Lemma SFadd_nonneg x y :
  SFnonneg x -> SFnonneg y -> SFnonneg (SFadd prec emax x y).
Proof.
  intros Hx%SFnonneg_cases Hy%SFnonneg_cases.
  destruct x as [sx|sx| |sx mx ex], y as [sy|sy| |sy my ey]; try done;
    repeat match goal with s : bool |- _ => destruct s end; try done;
    try (by apply SFnonneg_cases).
  unfold SFadd, binary_normalize. simpl cond_Zopp. cbv zeta.
  destruct (Z.pos _ + Z.pos _) as [|p|p] eqn:Hsum; [done | | lia].
  unfold binary_round. destruct (shl_align p _ _) as [mz ez].
  apply binary_round_aux_nonneg. lia.
Qed.

Lemma div_eucl_nonneg a b : 0 <= a -> 0 < b -> 0 <= fst (Z.div_eucl a b).
Proof.
  intros Ha Hb. pose proof (Z_div_mod a b ltac:(lia)) as Hd.
  destruct (Z.div_eucl a b) as [q r]. simpl. destruct Hd as [Heq Hr]. nia.
Qed.

Lemma SFdiv_core_nonneg m1 e1 m2 e2 :
  0 <= fst (fst (SFdiv_core_binary prec emax (Zpos m1) e1 (Zpos m2) e2)).
Proof.
  unfold SFdiv_core_binary. cbv zeta.
  match goal with |- context [Z.div_eucl ?a ?b] =>
    pose proof (div_eucl_nonneg a b) as Hq; destruct (Z.div_eucl a b) as [q r] end.
  simpl. apply Hq; [|lia].
  destruct (_ - _ - _); [lia | | lia].
  rewrite Z.shiftl_mul_pow2 by lia. apply Z.mul_nonneg_nonneg; [lia|].
  apply Z.pow_nonneg. lia.
Qed.

(** A positive finite number divided by a number above zero is a number
    not below zero. *)
Lemma SFdiv_nonneg mx ex y :
  SFltb (S754_zero false) y = true ->
  SFnonneg (SFdiv prec emax (S754_finite false mx ex) y).
Proof.
  unfold SFltb.
  destruct y as [sy|sy| |sy my ey]; simpl; try done;
    repeat match goal with s : bool |- _ => destruct s end; try done;
    try (intros _; by apply SFnonneg_cases).
  intros _. pose proof (SFdiv_core_nonneg mx ex my ey) as Hq.
  destruct (SFdiv_core_binary _ _ _ _ _ _) as [[mz ez] lz]. simpl in Hq.
  by apply binary_round_aux_nonneg.
Qed.

End Signs.

Section FloatEnergy.
Local Open Scope float_scope.

Lemma float_add_nonneg (x y : float) :
  (0 <=? x) = true -> (0 <=? y) = true -> (0 <=? x + y) = true.
Proof.
  rewrite !leb_spec, add_spec. change (Prim2SF 0) with (S754_zero false).
  apply SFadd_nonneg.
Qed.

Lemma float_inverse_nonneg (d : float) :
  (lit_1e_9 <? d) = true -> (0 <=? 1 / d) = true.
Proof.
  intros Hd. assert (Hpos : (0 <? d) = true).
  { apply (float_ltb_trans 0 lit_1e_9 d); [reflexivity | done]. }
  revert Hpos. rewrite ltb_spec, leb_spec, div_spec.
  change (Prim2SF 0) with (S754_zero false).
  change (Prim2SF 1) with (S754_finite false 4503599627370496 (-52)).
  apply SFdiv_nonneg.
Qed.

Lemma pair_energy_nonneg (p q : Vector3 float) : (0 <=? pair_energy p q) = true.
Proof.
  unfold pair_energy. cbv zeta.
  destruct (num_ltb _ _) eqn:Hd; [by apply float_inverse_nonneg | reflexivity].
Qed.

Lemma energy_sum_nonneg (vals : list (Vector3 float)) : (0 <=? energy_sum vals) = true.
Proof.
  unfold energy_sum.
  assert (Hfold : forall pairs e, (0 <=? e) = true ->
            (0 <=? fold_left (fun e pq => num_add e (pair_energy (fst pq) (snd pq)))
                     pairs e) = true).
  { induction pairs as [|pq pairs IH]; intros e He; [done|].
    simpl. apply IH, float_add_nonneg; [done | apply pair_energy_nonneg]. }
  apply Hfold. reflexivity.
Qed.

End FloatEnergy.

(** X1.  On binary64 [calculateEnergy] returns, for allocated points of any
    values whatever (NaN and infinite coordinates included), a number that
    is not NaN and not below zero; it changes no object and draws no random
    number. *)
Theorem calculateEnergy_nonneg (w : World float) (pts : list loc) :
  valid w pts ->
  exists e, calculateEnergy pts w = Done e w /\ (0 <=? e)%float = true.
Proof.
  intros Hv. destruct (valid_stores _ _ Hv) as [vals Hst].
  exists (energy_sum vals). split; [by apply calculateEnergy_energy_sum|].
  apply energy_sum_nonneg.
Qed.

Lemma calculateEnergy_nonneg_witness :
  exists e,
    calculateEnergy [0; 1] (mkWorld [mkVector3 nan 0 0; mkVector3 0 1 0]%float 0)
    = Done e (mkWorld [mkVector3 nan 0 0; mkVector3 0 1 0]%float 0)
    /\ (0 <=? e)%float = true.
Proof.
  apply (calculateEnergy_nonneg
           (mkWorld [mkVector3 nan 0 0; mkVector3 0 1 0]%float 0) [0; 1]).
  repeat constructor.
Defined.

(** * Guarded preconditions

    [wpx ok m Q]: when [m] returns, [Q] holds of the result; and when [ok]
    holds, [m] returns.  With [ok := False] this is partial correctness,
    with [ok := True] total correctness. *)

Section Guarded.
Context {F : Type}.
Local Abbreviation M := (M F).
Local Abbreviation World := (World F).

(** [wpx ok m Q w]: if [m] returns normally from [w], its result and world
    satisfy [Q]; and it does return normally when [ok] holds.  With [ok]
    false this is [wlp], with [ok] true it is [wp]. *)
Definition wpx (ok : Prop) {A} (m : M A) (Q : A -> World -> Prop) (w : World) : Prop :=
  match m w with
  | Done a w' => Q a w'
  | _ => ~ ok
  end.

Variable ok : Prop.

Lemma wpx_ret {A} (a : A) (Q : A -> World -> Prop) w : Q a w -> wpx ok (ret a) Q w.
Proof. done. Qed.

Lemma wpx_bind {A B} (m : M A) (k : A -> M B) (Q : B -> World -> Prop) w :
  wpx ok m (fun a w' => wpx ok (k a) Q w') w -> wpx ok (bind m k) Q w.
Proof. unfold wpx, bind. by destruct (m w). Qed.

Lemma wpx_mono {A} (m : M A) (P Q : A -> World -> Prop) w :
  wpx ok m P w -> (forall a w', P a w' -> Q a w') -> wpx ok m Q w.
Proof. unfold wpx. destruct (m w); auto. Qed.

Lemma wp_wpx {A} (m : M A) (Q : A -> World -> Prop) w : wp m Q w -> wpx ok m Q w.
Proof. unfold wp, wpx. by destruct (m w). Qed.

Lemma wpx_throw {A} (Q : A -> World -> Prop) w : ~ ok -> wpx ok throw Q w.
Proof. done. Qed.

Lemma wpx_done {A} (m : M A) (Q : A -> World -> Prop) w a w' :
  wpx ok m Q w -> m w = Done a w' -> Q a w'.
Proof. unfold wpx. intros HQ Heq. by rewrite Heq in HQ. Qed.

Lemma wpx_returns {A} (m : M A) (Q : A -> World -> Prop) w :
  ok -> wpx ok m Q w -> exists a w', m w = Done a w' /\ Q a w'.
Proof. unfold wpx. intros Hok. destruct (m w); [eauto | done | done]. Qed.

Lemma wpx_for_each {A St} (I : list A -> St -> World -> Prop)
    (xs : list A) (body : A -> St -> M St) s w :
  I [] s w ->
  (forall visited x rest s w,
      xs = visited ++ x :: rest -> I visited s w ->
      wpx ok (body x s) (I (visited ++ [x])) w) ->
  wpx ok (for_each xs body s) (I xs) w.
Proof.
  intros H0 Hstep.
  enough (Hgen : forall rest visited s w,
             xs = visited ++ rest -> I visited s w ->
             wpx ok (for_each rest body s) (I xs) w).
  { by apply (Hgen xs []). }
  clear s w H0. induction rest as [|x rest IH]; intros visited s w Hxs HI.
  - rewrite app_nil_r in Hxs. subst. by apply wpx_ret.
  - simpl. apply wpx_bind.
    eapply wpx_mono; [by eapply Hstep|].
    intros s' w' HI'. apply (IH (visited ++ [x])); [|done].
    by rewrite <- app_assoc.
Qed.

Lemma wpx_for_range {St} (I : nat -> St -> World -> Prop)
    (lo hi : nat) (body : nat -> St -> M St) s w :
  lo <= hi ->
  I lo s w ->
  (forall i s w, lo <= i < hi -> I i s w -> wpx ok (body i s) (I (S i)) w) ->
  wpx ok (for_range lo hi body s) (I hi) w.
Proof.
  intros Hle H0 Hstep. unfold for_range.
  eapply wpx_mono.
  - apply (wpx_for_each (fun visited s w => I (lo + length visited) s w)).
    + simpl. by rewrite Nat.add_0_r.
    + intros visited x rest s' w' Hseq HI.
      assert (Hx : seq lo (hi - lo) !! length visited = Some x).
      { rewrite Hseq. by rewrite list_lookup_middle. }
      apply lookup_seq in Hx as [-> Hlt].
      rewrite length_app. simpl.
      replace (lo + (length visited + 1)) with (S (lo + length visited)) by lia.
      apply Hstep; [lia | done].
  - intros s' w'. simpl. rewrite length_seq.
    by replace (lo + (hi - lo)) with hi by lia.
Qed.

End Guarded.

(** * Frames of the energy and of the random configurations *)

Section Frames.
Context {F : Type} `{Number F}.
Local Abbreviation World := (World F).

Lemma stores_frame (w w' : World) pts vals :
  stores w pts vals ->
  (forall l, l ∈ pts -> heap w' !! l = heap w !! l) ->
  stores w' pts vals.
Proof.
  intros Hst Hsame. apply Forall2_same_length_lookup_2.
  - by eapply Forall2_length.
  - intros i l v Hl Hv. rewrite Hsame by (by eapply list_elem_of_lookup_2).
    apply (Forall2_lookup_lr _ _ _ _ _ _ Hst Hl Hv).
Qed.

(** The energy of a configuration depends on the values of its points
    only. *)
Lemma calculateEnergy_frame (w w' : World) pts e :
  calculateEnergy pts w = Done e w ->
  (forall l, l ∈ pts -> heap w' !! l = heap w !! l) ->
  valid w pts ->
  calculateEnergy pts w' = Done e w'.
Proof.
  intros He Hsame Hv. destruct (valid_stores _ _ Hv) as [vals Hst].
  rewrite (calculateEnergy_energy_sum _ _ _ Hst) in He. injection He as <-.
  apply calculateEnergy_energy_sum. by eapply stores_frame.
Qed.

Lemma pop_locs_app (pop1 pop2 : list (Individual F)) :
  pop_locs (pop1 ++ pop2) = pop_locs pop1 ++ pop_locs pop2.
Proof. unfold pop_locs. by rewrite map_app, concat_app. Qed.

Lemma pop_locs_perm (pop pop' : list (Individual F)) :
  pop ≡ₚ pop' -> pop_locs pop ≡ₚ pop_locs pop'.
Proof.
  unfold pop_locs. induction 1 as [|x l l' _ IH|x y l|l1 l2 l3 _ IH1 _ IH2]; simpl.
  - done.
  - by rewrite IH.
  - rewrite !app_assoc. f_equiv. apply Permutation_app_comm.
  - by rewrite IH1.
Qed.

End Frames.

Section RandomConfig.
Context {F : Type} `{Number F} `{Trig F}.
Variable rnd : nat -> F.
Local Abbreviation World := (World F).

Lemma createRandomConfig_run k (w : World) :
  createRandomConfig rnd k w
  = Done (seq (length (heap w)) k)
      (mkWorld (heap w ++ samples rnd (draws w) k) (draws w + 2 * k)).
Proof.
  unfold createRandomConfig, for_range. rewrite Nat.sub_0_r.
  enough (Hgen : forall k lo pts (w : World),
            for_each (seq lo k)
              (fun _ pts => do p <- randomPointOnSphere rnd;
                            do l <- new_Vector3 p; ret (pts ++ [l])) pts w
            = Done (pts ++ seq (length (heap w)) k)
                (mkWorld (heap w ++ samples rnd (draws w) k) (draws w + 2 * k))).
  { by rewrite Hgen. }
  clear k w. induction k as [|k IH]; intros lo pts w.
  - simpl. unfold ret. rewrite !app_nil_r, Nat.add_0_r. by destruct w.
  - cbn [seq for_each]. unfold bind at 1. unfold bind at 1.
    rewrite randomPointOnSphere_run. unfold bind at 1, new_Vector3, ret at 1.
    rewrite IH. cbn [heap draws]. rewrite samples_S.
    rewrite length_app. simpl. rewrite <- !app_assoc. simpl.
    repeat f_equal; lia.
Qed.

End RandomConfig.

(** * The population between two calls of [step] *)

Section Coherence.
Context {F : Type} `{Number F} `{Trig F}.
Variable rnd : nat -> F.
Local Abbreviation World := (World F).
Local Abbreviation M := (M F).

(** The stored energy of an individual is the energy of its points as they
    are now. *)
Definition fresh_energy (w : World) (ind : Individual F) : Prop :=
  calculateEnergy (points ind) w = Done (energy ind) w.

(** The objects of the best configuration ([null] has none). *)
Definition best_locs (sim : ThomsonSimulation F) : list loc :=
  default [] (bestConfig sim).

(** A population of configurations of [k] points each, whose objects are
    allocated, pairwise different and different from the objects [others],
    and whose stored energies are up to date. *)
Record tidy (k : nat) (pop : list (Individual F)) (others : list loc) (w : World)
  : Prop := {
  tidy_points : Forall (fun ind => length (points ind) = k) pop;
  tidy_valid : valid w (pop_locs pop ++ others);
  tidy_distinct : NoDup (pop_locs pop ++ others);
  tidy_energy : Forall (fresh_energy w) pop
}.

(** The best record: nothing recorded yet and the energy still [Infinity],
    or a configuration of [n] points whose energy is the recorded one, a
    number below [Infinity]. *)
Definition best_consistent (sim : ThomsonSimulation F) (w : World) : Prop :=
  match bestConfig sim with
  | None => bestEnergy sim = num_Infinity
  | Some best =>
      length best = n sim
      /\ calculateEnergy best w = Done (bestEnergy sim) w
      /\ (bestEnergy sim <. num_Infinity) = true
  end.

Record coherent (sim : ThomsonSimulation F) (w : World) : Prop := {
  coh_size : length (population sim) = populationSize sim;
  coh_tidy : tidy (n sim) (population sim) (best_locs sim) w;
  coh_best : best_consistent sim w
}.

Lemma valid_app (w : World) pts1 pts2 :
  valid w (pts1 ++ pts2) <-> valid w pts1 /\ valid w pts2.
Proof. apply Forall_app. Qed.

Lemma valid_points (w : World) (pop : list (Individual F)) ind :
  valid w (pop_locs pop) -> ind ∈ pop -> valid w (points ind).
Proof.
  intros Hv Hind. apply Forall_forall. intros l Hl.
  unfold valid in Hv. rewrite Forall_forall in Hv. apply Hv.
  apply elem_of_pop_locs. eauto.
Qed.

Lemma updates_weaken pts pts' (w w' : World) :
  updates pts w w' -> (forall l, l ∈ pts -> l ∈ pts') -> updates pts' w w'.
Proof. intros (Hl & Hd & Hf) Hsub. repeat split; [done..|]. intros l Hn. apply Hf. auto. Qed.

Lemma fresh_energy_frame (w w' : World) (ind : Individual F) :
  fresh_energy w ind -> valid w (points ind) ->
  (forall l, l ∈ points ind -> heap w' !! l = heap w !! l) ->
  fresh_energy w' ind.
Proof. intros He Hv Hsame. by eapply calculateEnergy_frame. Qed.

Lemma pop_locs_points (pop pop' : list (Individual F)) :
  map points pop' = map points pop -> pop_locs pop' = pop_locs pop.
Proof. unfold pop_locs. by intros ->. Qed.

(** *** The refinement pass *)

Lemma wp_refineAll_tidy g k pop others (w : World) :
  Forall (fun ind => length (points ind) = k) pop ->
  valid w (pop_locs pop ++ others) ->
  NoDup (pop_locs pop ++ others) ->
  wp (refineAll g pop)
    (fun pop' w' =>
       map points pop' = map points pop
       /\ tidy k pop' others w'
       /\ updates (pop_locs pop) w w') w.
Proof.
  intros Hk Hv Hnd. unfold refineAll.
  apply valid_app in Hv as Hv'. destruct Hv' as [Hvp Hvo].
  apply NoDup_app in Hnd as Hnd'. destruct Hnd' as (Hndp & Hdisj & Hndo).
  eapply wp_mono.
  - apply (wp_for_each
      (fun visited (done : list (Individual F)) w' =>
         map points done = map points visited
         /\ Forall (fresh_energy w') done
         /\ updates (pop_locs visited) w w')).
    + split; [done|]. split; [constructor | apply updates_refl].
    + intros visited ind rest done w1 Hpop (Hmap & Hen & Hup).
      assert (Hvi : valid w1 (points ind)).
      { eapply updates_valid; [exact Hup|]. eapply valid_points; [exact Hvp|].
        rewrite Hpop. apply elem_of_app. right. left. }
      apply wp_bind. eapply wp_mono; [by apply wp_gradientDescent|].
      intros [] w2 Hup2. apply wp_bind.
      apply wp_calculateEnergy; [by eapply updates_valid|].
      intros e He. apply wp_ret. split; [|split].
      * by rewrite !map_app, Hmap.
      * apply Forall_app. split; [|by repeat constructor].
        apply Forall_forall. intros d Hd. rewrite Forall_forall in Hen.
        assert (Hpd : points d ∈ map points visited).
        { rewrite <- Hmap. apply list_elem_of_fmap. eauto. }
        apply list_elem_of_fmap in Hpd as (d0 & Hpd & Hd0).
        apply (fresh_energy_frame w1); [by apply Hen | |].
        -- rewrite Hpd. eapply updates_valid; [exact Hup|].
           eapply valid_points; [exact Hvp|]. rewrite Hpop. apply elem_of_app. by left.
        -- intros l Hl. destruct Hup2 as (_ & _ & Hf2). apply Hf2.
           intros Hli. rewrite Hpop, pop_locs_app in Hndp.
           apply NoDup_app in Hndp as (_ & Hdis & _).
           apply (Hdis l).
           ++ apply elem_of_pop_locs. exists d0. split; [done|]. by rewrite <- Hpd.
           ++ apply elem_of_pop_locs. exists ind. split; [left | done].
      * rewrite pop_locs_app. eapply updates_trans.
        -- eapply updates_weaken; [exact Hup|]. intros l Hl. apply elem_of_app. by left.
        -- eapply updates_weaken; [exact Hup2|]. intros l Hl. apply elem_of_app. right.
           apply elem_of_pop_locs. exists ind. split; [left | done].
  - intros pop' w' (Hmap & Hen & Hup). split; [done|]. split; [|done].
    pose proof (pop_locs_points _ _ Hmap) as Hlocs. split.
    + apply Forall_forall. intros ind' Hind'.
      assert (Hp : points ind' ∈ map points pop).
      { rewrite <- Hmap. apply list_elem_of_fmap. eauto. }
      apply list_elem_of_fmap in Hp as (ind0 & -> & Hind0).
      rewrite Forall_forall in Hk. by apply Hk.
    + rewrite Hlocs. by eapply updates_valid.
    + by rewrite Hlocs.
    + done.
Qed.


Lemma tidy_perm k (pop pop' : list (Individual F)) others (w : World) :
  pop ≡ₚ pop' -> tidy k pop others w -> tidy k pop' others w.
Proof.
  intros Hp [Hk Hv Hnd He]. pose proof (pop_locs_perm _ _ Hp) as Hl. split.
  - by rewrite <- Hp.
  - unfold valid. by rewrite <- Hl.
  - by rewrite <- Hl.
  - by rewrite <- Hp.
Qed.

(** Allocation keeps a population tidy; the objects set apart may be
    replaced by newly allocated ones. *)
Lemma tidy_allocate k (pop : list (Individual F)) others (w : World) added d :
  tidy k pop others w ->
  tidy k pop (seq (length (heap w)) (length added)) (mkWorld (heap w ++ added) d).
Proof.
  intros [Hk Hv Hnd He]. apply valid_app in Hv as [Hvp _].
  apply NoDup_app in Hnd as (Hndp & _ & _). split.
  - done.
  - apply valid_app. split.
    + eapply valid_grow; [exact Hvp|]. simpl. rewrite length_app. lia.
    + apply Forall_forall. intros l Hl%elem_of_seq. simpl. rewrite length_app. lia.
  - apply NoDup_app. split; [done|]. split; [|apply NoDup_seq].
    intros l Hl Hs%elem_of_seq. unfold valid in Hvp. rewrite Forall_forall in Hvp.
    specialize (Hvp _ Hl). lia.
  - apply Forall_forall. intros ind Hind. rewrite Forall_forall in He.
    apply (fresh_energy_frame w); [by apply He | by eapply valid_points |].
    intros l Hl. simpl. apply lookup_app_l.
    assert (Hvl : valid w (points ind)) by (by eapply valid_points).
    unfold valid in Hvl. rewrite Forall_forall in Hvl. by apply Hvl.
Qed.

(** *** Replacing an individual *)

Lemma NoDup_replace {A} (a o b c rest : list A) :
  NoDup (a ++ o ++ b ++ rest) -> NoDup c ->
  (forall x, x ∈ c -> x ∉ a ++ o ++ b ++ rest) ->
  NoDup (a ++ c ++ b ++ rest).
Proof.
  rewrite !NoDup_app. intros (Ha & Hao & Ho & Hob & Hb & Hbr & Hr) Hc Hfresh.
  split; [done|]. split.
  { intros x Hx [Hxc | Hxb]%elem_of_app.
    - apply (Hfresh x Hxc). apply elem_of_app. by left.
    - apply (Hao x Hx). apply elem_of_app. by right. }
  split; [done|]. split; [|by split_and!].
  intros x Hx Hxb. apply (Hfresh x Hx). rewrite !elem_of_app.
  apply elem_of_app in Hxb. tauto.
Qed.

Lemma pop_locs_cons (ind : Individual F) pop :
  pop_locs (ind :: pop) = points ind ++ pop_locs pop.
Proof. done. Qed.

Lemma pop_locs_insert (pop : list (Individual F)) idx old child :
  pop !! idx = Some old ->
  pop_locs pop
  = pop_locs (take idx pop) ++ points old ++ pop_locs (drop (S idx) pop)
  /\ pop_locs (<[idx := child]> pop)
     = pop_locs (take idx pop) ++ points child ++ pop_locs (drop (S idx) pop).
Proof.
  intros Hold. split.
  - rewrite <- (take_drop_middle pop idx old Hold) at 1.
    by rewrite pop_locs_app, pop_locs_cons.
  - rewrite insert_take_drop by (by eapply lookup_lt_Some).
    by rewrite pop_locs_app, pop_locs_cons.
Qed.

Lemma changes_nil_lookup (w w' : World) l :
  changes [] w w' -> l < length (heap w) -> heap w' !! l = heap w !! l.
Proof. intros [_ Hf] Hl. apply Hf; [done|]. by intros ?%elem_of_nil. Qed.

Lemma fresh_energy_changes (w w' : World) (ind : Individual F) :
  fresh_energy w ind -> valid w (points ind) -> changes [] w w' ->
  fresh_energy w' ind.
Proof.
  intros He Hv Hch. apply (fresh_energy_frame w); [done..|].
  intros l Hl. apply (changes_nil_lookup w); [done|].
  unfold valid in Hv. rewrite Forall_forall in Hv. by apply Hv.
Qed.

Lemma tidy_changes k (pop : list (Individual F)) others (w w' : World) :
  tidy k pop others w -> changes [] w w' -> tidy k pop others w'.
Proof.
  intros [Hk Hv Hnd He] Hch. split; [done | | done |].
  - eapply valid_grow; [exact Hv | apply Hch].
  - apply Forall_forall. intros ind Hind. rewrite Forall_forall in He.
    apply (fresh_energy_changes w); [by apply He | | done].
    apply valid_app in Hv as [Hvp _]. by eapply valid_points.
Qed.

Lemma tidy_replace k (pop : list (Individual F)) others (w w' : World) idx old child :
  tidy k pop others w -> pop !! idx = Some old -> changes [] w w' ->
  length (points child) = k -> valid w' (points child) -> NoDup (points child) ->
  Forall (fun l => length (heap w) <= l) (points child) ->
  fresh_energy w' child ->
  tidy k (<[idx := child]> pop) others w'.
Proof.
  intros Ht Hold Hch Hlen Hvc Hndc Hfresh Hec.
  pose proof (tidy_changes _ _ _ _ _ Ht Hch) as [Hk Hv Hnd He].
  destruct (pop_locs_insert pop idx old child Hold) as [Hpop Hpop'].
  assert (Hsub : forall l, l ∈ pop_locs (<[idx := child]> pop) ->
            l ∈ points child \/ l ∈ pop_locs pop).
  { intros l. rewrite Hpop', Hpop, !elem_of_app. tauto. }
  split.
  - by apply Forall_insert.
  - apply Forall_forall. intros l [Hl | Hl]%elem_of_app.
    + unfold valid in Hvc, Hv. rewrite Forall_forall in Hvc, Hv.
      destruct (Hsub l Hl) as [Hc | Hp]; [by apply Hvc|].
      apply Hv, elem_of_app. by left.
    + unfold valid in Hv. rewrite Forall_forall in Hv. apply Hv, elem_of_app. by right.
  - rewrite Hpop', <- !app_assoc. rewrite Hpop, <- !app_assoc in Hnd.
    eapply NoDup_replace; [exact Hnd | done |].
    intros l Hl Hin. rewrite Forall_forall in Hfresh. specialize (Hfresh l Hl).
    destruct Ht as [_ Hvw _ _]. unfold valid in Hvw. rewrite Forall_forall in Hvw.
    assert (l < length (heap w)); [|lia].
    apply Hvw. by rewrite Hpop, <- !app_assoc.
  - apply Forall_forall. intros ind [-> | Hind]%elem_of_insert_inv; [done|].
    rewrite Forall_forall in He. by apply He.
Qed.

Lemma best_consistent_changes sim sim' (w w' : World) :
  best_consistent sim w -> valid w (best_locs sim) -> changes [] w w' ->
  n sim' = n sim -> bestConfig sim' = bestConfig sim -> bestEnergy sim' = bestEnergy sim ->
  best_consistent sim' w'.
Proof.
  unfold best_consistent, best_locs. intros Hb Hv Hch -> -> ->.
  destruct (bestConfig sim) as [best|]; [|done]. simpl in Hv.
  destruct Hb as (Hlen & He & Hinf). split; [done|]. split; [|done].
  apply (calculateEnergy_frame w); [done | | done].
  intros l Hl. apply (changes_nil_lookup w); [done|].
  unfold valid in Hv. rewrite Forall_forall in Hv. by apply Hv.
Qed.

Section Guard.
Variable ok : Prop.
Hypothesis lt_irrefl : forall x : F, (x <. x) = false.
Hypothesis lt_trans : forall x y z : F,
  (x <. y) = true -> (y <. z) = true -> (x <. z) = true.

(** What [ok] asks of [Math.random]: scaled by the length of an array the
    script indexes (a length in [lens]) and floored, a draw is an index of
    the array, as it is for a draw in [0, 1). *)
Variable lens : nat -> Prop.
Hypothesis ok_draws : ok -> forall k m, lens m ->
  exists i, num_index (num_floor (rnd k *. num_of_nat m)) = Some i /\ i < m.

Lemma wpx_at_index {A} (arr : list A) i (Q : A -> World -> Prop) (w : World) :
  (forall a, arr !! i = Some a -> Q a w) ->
  (ok -> i < length arr) ->
  wpx ok (at_index arr i) Q w.
Proof.
  intros HQ Hok. unfold at_index. destruct (arr !! i) as [a|] eqn:Ha.
  - by apply wpx_ret, HQ.
  - apply wpx_throw. intros Hi%Hok. apply lookup_ge_None in Ha. lia.
Qed.

(** *** updateBest *)

Lemma wpx_updateBest_coherent sim (w : World) :
  length (population sim) = populationSize sim ->
  tidy (n sim) (population sim) (best_locs sim) w ->
  best_consistent sim w ->
  (ok -> 0 < populationSize sim) ->
  wpx ok (updateBest sim)
    (fun sim' w' =>
       n sim' = n sim /\ populationSize sim' = populationSize sim
       /\ population sim' = sort_by_energy (population sim)
       /\ coherent sim' w'
       /\ changes [] w w'
       /\ draws w' = draws w
       /\ (best_kept sim sim' w w' \/ best_replaced sim sim' w w')
       /\ (forall first, population sim' !! 0 = Some first ->
             (energy first <. bestEnergy sim') = false)) w.
Proof.
  intros Hsize Htidy Hbest Hok.
  assert (Hperm : sort_by_energy (population sim) ≡ₚ population sim)
    by apply sort_by_Permutation.
  unfold updateBest. apply wpx_bind, wpx_at_index.
  2:{ intros Hp%Hok. rewrite (Permutation_length Hperm). lia. }
  intros first Hfirst.
  assert (Hin : first ∈ population sim).
  { rewrite <- Hperm. by eapply list_elem_of_lookup_2. }
  assert (Hsorted : tidy (n sim) (sort_by_energy (population sim)) (best_locs sim) w)
    by (by eapply tidy_perm).
  destruct (_ <. _) eqn:Hlt.
  - pose proof Htidy as [Hk Hv Hnd He].
    apply valid_app in Hv as [Hvp _].
    assert (Hvf : valid w (points first)) by (by eapply valid_points).
    destruct (valid_stores _ _ Hvf) as [vals Hst].
    apply wpx_bind. unfold wpx at 1. rewrite (clone_points_run _ vals) by done.
    apply wpx_ret. simpl.
    pose proof (stores_length _ _ _ Hst) as Hlen.
    assert (Hfe : energy first = energy_sum vals).
    { rewrite Forall_forall in He. specialize (He _ Hin). unfold fresh_energy in He.
      rewrite (calculateEnergy_energy_sum _ _ _ Hst) in He. by injection He. }
    split_and!; try done.
    + split; simpl.
      * by rewrite (Permutation_length Hperm).
      * unfold best_locs. simpl. by apply (tidy_allocate _ _ (best_locs sim)).
      * unfold best_consistent. simpl. split; [|split].
        -- rewrite length_seq, <- Hlen. rewrite Forall_forall in Hk. by apply Hk.
        -- rewrite Hfe. apply calculateEnergy_energy_sum, stores_fresh.
        -- unfold best_consistent in Hbest. destruct (bestConfig sim) as [best|].
           ++ destruct Hbest as (_ & _ & Hinf). by eapply lt_trans.
           ++ by rewrite <- Hbest.
    + apply changes_append.
    + right. by exists first, vals.
    + simpl. intros first' Hf'. rewrite Hfirst in Hf'. injection Hf' as <-.
      apply lt_irrefl.
  - apply wpx_ret. simpl. split_and!; try done; try (by left).
    + split; simpl; [by rewrite (Permutation_length Hperm) | done | done].
    + simpl. intros first' Hf'. rewrite Hfirst in Hf'. by injection Hf' as <-.
Qed.

Lemma wpx_at_number {A} (arr : list A) x (Q : A -> World -> Prop) (w : World) :
  (forall a, a ∈ arr -> Q a w) ->
  (ok -> exists i, num_index x = Some i /\ i < length arr) ->
  wpx ok (at_number arr x) Q w.
Proof.
  intros HQ Hok. unfold at_number. destruct (num_index x) as [i|] eqn:Hx.
  - apply wpx_at_index.
    + intros a Ha. apply HQ. by eapply list_elem_of_lookup_2.
    + intros (i' & [= <-] & Hi)%Hok. done.
  - apply wpx_throw. by intros (i' & [=] & _)%Hok.
Qed.

(** *** tournamentSelect *)

Lemma get_number_elem_of {A} (arr : list A) x a :
  get_number arr x = Some a -> a ∈ arr.
Proof.
  unfold get_number. destruct (num_index x); [|done]. apply list_elem_of_lookup_2.
Qed.

Lemma get_number_draw {A} (arr : list A) k :
  ok -> lens (length arr) ->
  is_Some (get_number arr (num_floor (rnd k *. num_of_nat (length arr)))).
Proof.
  intros Hok Hlen. destruct (ok_draws Hok k _ Hlen) as (i & Hi & Hlt).
  unfold get_number. rewrite Hi. by apply lookup_lt_is_Some_2.
Qed.

Lemma wpx_tournamentSelect sim (w : World) :
  (ok -> lens (length (population sim))) ->
  wpx ok (tournamentSelect rnd sim)
    (fun ind w' =>
       ind ∈ population sim /\ heap w' = heap w /\ draws w' = draws w + 3) w.
Proof.
  intros Hpop. unfold tournamentSelect. apply wpx_bind.
  eapply wpx_mono.
  - apply (wpx_for_range ok
             (fun i (best : option (Individual F)) w' =>
                heap w' = heap w /\ draws w' = draws w + i
                /\ (forall b, best = Some b -> b ∈ population sim)
                /\ (ok -> 0 < i -> is_Some best))); [lia | |].
    + split; [done|]. split; [lia|]. split; [done | lia].
    + intros i best w1 _ (Hh & Hd & Hb & Hs).
      apply wpx_bind. unfold wpx at 1, Math_random.
      destruct best as [b|], (get_number _ _) as [ind|] eqn:Hget.
      * destruct (_ <. _); apply wpx_ret; simpl;
          (split; [done|]); (split; [lia|]); (split; [|done]); intros b' [= <-]; auto.
        by eapply get_number_elem_of.
      * apply wpx_throw. intros Hok.
        destruct (get_number_draw (population sim) (draws w1) Hok (Hpop Hok)) as [x Hx].
        congruence.
      * apply wpx_ret. simpl. split; [done|]. split; [lia|]. split; [|done].
        intros b' [= <-]. by eapply get_number_elem_of.
      * apply wpx_ret. simpl. split; [done|]. split; [lia|]. split; [done|].
        intros Hok _.
        destruct (get_number_draw (population sim) (draws w1) Hok (Hpop Hok)) as [x Hx].
        congruence.
  - intros best w' (Hh & Hd & Hb & Hs). destruct best as [b|].
    + apply wpx_ret. auto.
    + apply wpx_throw. intros Hok. destruct (Hs Hok) as [x Hx]; [lia | done].
Qed.

(** *** mutate *)

Lemma wpx_mutate g pts (w : World) :
  valid w pts -> (ok -> lens (length pts)) ->
  wpx ok (mutate rnd g pts)
    (fun _ w' => changes pts w w' /\ length (heap w') = length (heap w)) w.
Proof.
  intros Hv Hlen. unfold mutate. apply wpx_bind. unfold wpx at 1, Math_random.
  destruct (_ <. _); [|apply wpx_ret; split; [by apply changes_same_heap | done]].
  apply wpx_bind. unfold wpx at 1. simpl.
  apply wpx_bind. unfold wpx at 1. rewrite randomPointOnSphere_run.
  apply wpx_bind, wpx_at_number; [|intros Hok; by apply ok_draws, Hlen].
  intros l Hl.
  assert (Hvl : l < length (heap w)).
  { unfold valid in Hv. rewrite Forall_forall in Hv. by apply Hv. }
  apply wpx_bind, wp_wpx. eapply wp_mono; [by apply (wp_modify l _ pts)|].
  intros [] w1 [Hup1 _]. apply wp_wpx.
  eapply wp_mono.
  { apply (wp_modify l _ pts); [done|]. destruct Hup1 as (-> & _). done. }
  intros [] w2 [Hup2 _].
  pose proof (updates_trans _ _ _ _ Hup1 Hup2) as (Hl2 & _ & Hf2).
  simpl in Hl2, Hf2. split; [|done]. split; [lia|].
  intros l' _ Hn. by apply Hf2.
Qed.

(** *** crossover *)

Lemma wp_crossover_child sim parentA parentB (w : World) :
  valid w parentA -> valid w parentB ->
  wp (crossover rnd sim parentA parentB)
    (fun child w' =>
       (exists added d, w' = mkWorld (heap w ++ added) d)
       /\ Forall (fun l => length (heap w) <= l < length (heap w')) child
       /\ NoDup child
       /\ length child = n sim) w.
Proof.
  intros HvA HvB.
  destruct (valid_stores _ _ HvA) as [valsA HA].
  destruct (valid_stores _ _ HvB) as [valsB HB].
  destruct (crossover_run rnd sim parentA parentB valsA valsB w HA HB)
    as (child & Hrun & Hst & Hsub & Hlen).
  eapply wp_done; [exact Hrun|]. split; [eauto|]. split; [|split; [|done]].
  - apply stores_valid in Hst. unfold valid in Hst.
    apply Forall_forall. intros l Hl. split.
    + pose proof (elem_of_sublist _ _ _ Hl Hsub) as Hs. apply elem_of_seq in Hs. lia.
    + rewrite Forall_forall in Hst. by apply Hst.
  - eapply sublist_NoDup; [apply NoDup_seq | exact Hsub].
Qed.

(** *** One round of the replacement loop *)

Lemma wpx_recombineOnce g i sim (w : World) :
  coherent sim w -> i < populationSize sim ->
  (ok -> lens (populationSize sim)) -> (ok -> lens (n sim)) ->
  wpx ok (recombineOnce rnd g i sim)
    (fun r w' =>
       coherent (snd r) w' /\ changes [] w w'
       /\ n (snd r) = n sim /\ populationSize (snd r) = populationSize sim
       /\ bestConfig (snd r) = bestConfig sim /\ bestEnergy (snd r) = bestEnergy sim
       /\ fst (fst r) ∈ population sim /\ snd (fst r) ∈ population sim
       /\ exists child,
            population (snd r) = <[populationSize sim - 1 - i := child]> (population sim)
            /\ Forall (fun l => length (heap w) <= l) (points child)) w.
Proof.
  intros [Hsize Htidy Hbest] Hi HlP Hn. unfold recombineOnce.
  pose proof Htidy as [Hk Hv Hnd He]. apply valid_app in Hv as [Hvp Hvb].
  apply wpx_bind. eapply wpx_mono; [apply wpx_tournamentSelect; by rewrite Hsize|].
  intros p1 w1 (Hp1 & Hh1 & _).
  apply wpx_bind. eapply wpx_mono; [apply wpx_tournamentSelect; by rewrite Hsize|].
  intros p2 w2 (Hp2 & Hh2 & _). rewrite Hh1 in Hh2.
  apply wpx_bind, wp_wpx. eapply wp_mono.
  { apply wp_crossover_child; unfold valid; rewrite Hh2; by eapply valid_points. }
  intros child w3 ((added & d & ->) & Hfresh & Hndc & Hlenc).
  rewrite Hh2 in Hfresh. simpl in Hfresh.
  assert (Hv3 : valid (mkWorld (heap w2 ++ added) d) child).
  { eapply Forall_impl; [exact Hfresh|]. simpl. rewrite Hh2. intros l. lia. }
  assert (Hch3 : changes [] w (mkWorld (heap w2 ++ added) d)).
  { rewrite Hh2. apply changes_append. }
  apply wpx_bind. eapply wpx_mono; [apply wpx_mutate; [done | by rewrite Hlenc]|].
  intros [] w4 [Hch4 Hlen4].
  assert (Hv4 : valid w4 child) by (unfold valid; by rewrite Hlen4).
  apply wpx_bind, wp_wpx. eapply wp_mono; [by apply wp_gradientDescent|].
  intros [] w5 Hup5. apply wpx_bind, wp_wpx.
  apply wp_calculateEnergy; [by eapply updates_valid|].
  intros childEnergy Hce.
  assert (Hch35 : changes child (mkWorld (heap w2 ++ added) d) w5).
  { eapply (changes_trans rnd); [exact Hch4 | by apply updates_changes | done]. }
  assert (Hch5' : changes [] w w5).
  { eapply (changes_trans rnd); [exact Hch3 | exact Hch35 |].
    intros l Hl Hin. rewrite Forall_forall in Hfresh. specialize (Hfresh _ Hin). lia. }
  destruct (lookup_lt_is_Some_2 (population sim) (populationSize sim - 1 - i))
    as [old Hold]; [lia|].
  apply wpx_bind. unfold array_set.
  replace (populationSize sim - 1 - i <? length (population sim))%nat with true
    by (symmetry; apply Nat.ltb_lt; lia).
  apply wpx_ret, wpx_ret. simpl.
  assert (Htidy' : tidy (n sim)
            (<[populationSize sim - 1 - i := mkIndividual child childEnergy]>
               (population sim)) (best_locs sim) w5).
  { eapply tidy_replace; try done; simpl; try done.
    - by eapply updates_valid.
    - eapply Forall_impl; [exact Hfresh|]. simpl. intros l. lia. }
  split_and!; try done.
  - split; simpl.
    + by rewrite length_insert.
    + done.
    + by eapply best_consistent_changes.
  - exists (mkIndividual child childEnergy). split; [done|]. simpl.
    eapply Forall_impl; [exact Hfresh|]. simpl. intros l. lia.
Qed.

(** *** The replacement loop *)

Lemma wpx_recombination g sim (w : World) :
  coherent sim w -> (ok -> lens (populationSize sim)) -> (ok -> lens (n sim)) ->
  wpx ok (recombination rnd g sim)
    (fun r w' =>
       coherent (fst r) w' /\ changes [] w w'
       /\ n (fst r) = n sim /\ populationSize (fst r) = populationSize sim
       /\ bestConfig (fst r) = bestConfig sim /\ bestEnergy (fst r) = bestEnergy sim
       /\ (forall k, k < populationSize sim - populationSize sim / 2 ->
             population (fst r) !! k = population sim !! k)) w.
Proof.
  intros Hcoh HlP Hn. unfold recombination.
  assert (Hhalf : populationSize sim / 2 <= populationSize sim)
    by (apply Nat.Div0.div_le_upper_bound; lia).
  eapply wpx_mono.
  - apply (wpx_for_range ok
      (fun i (st : ThomsonSimulation F * list (Individual F * Individual F)) w' =>
         coherent (fst st) w' /\ changes [] w w'
         /\ n (fst st) = n sim /\ populationSize (fst st) = populationSize sim
         /\ bestConfig (fst st) = bestConfig sim /\ bestEnergy (fst st) = bestEnergy sim
         /\ (forall k, k < populationSize sim - i ->
               population (fst st) !! k = population sim !! k))); [lia | |].
    + simpl. split_and!; try done; apply changes_refl.
    + intros i [s log] w1 Hi (Hc1 & Hch1 & Hn1 & HP1 & Hbc1 & Hbe1 & Hkeep1).
      simpl in Hc1, Hn1, HP1, Hbc1, Hbe1, Hkeep1.
      apply wpx_bind. eapply wpx_mono.
      { apply wpx_recombineOnce; [done | lia | by rewrite HP1 | by rewrite Hn1]. }
      intros [[p1 p2] s'] w2 (Hc2 & Hch2 & Hn2 & HP2 & Hbc2 & Hbe2 & _ & _ & child & Hpop & _).
      simpl in Hc2, Hn2, HP2, Hbc2, Hbe2, Hpop. apply wpx_ret. simpl.
      split_and!; try congruence.
      * eapply (changes_trans rnd); [exact Hch1 | exact Hch2 | done].
      * intros k Hk. rewrite Hpop, HP1.
        rewrite list_lookup_insert_ne by lia. apply Hkeep1. lia.
  - intros [s log] w' (Hc & Hch & Hn' & HP & Hbc & Hbe & Hkeep). simpl.
    split_and!; try done.
Qed.

(** *** step *)

Lemma best_consistent_updates sim pop (w w' : World) S :
  best_consistent sim w -> valid w (best_locs sim) -> updates S w w' ->
  (forall l, l ∈ best_locs sim -> l ∉ S) ->
  best_consistent (with_population sim pop) w'.
Proof.
  unfold best_consistent, best_locs. simpl. intros Hb Hv (_ & _ & Hf) Hdis.
  destruct (bestConfig sim) as [best|]; [|done]. simpl in Hv, Hdis.
  destruct Hb as (Hlen & He & Hinf). split; [done|]. split; [|done].
  apply (calculateEnergy_frame w); [done | | done].
  intros l Hl. by apply Hf, Hdis.
Qed.

(** What a call of [step] that returns has done. *)
Record stepped (g : Globals F) (sim : ThomsonSimulation F)
    (r : F * ThomsonSimulation F) (w w' : World) : Prop := {
  st_coherent : coherent (snd r) w';
  st_n : n (snd r) = n sim;
  st_size : populationSize (snd r) = populationSize sim;
  st_delta : fst r = num_abs (bestEnergy sim -. bestEnergy (snd r));
  st_sorted : exists pop0, population (snd r) = sort_by_energy pop0;
  st_head : forall first,
    population (snd r) !! 0 = Some first ->
    (energy first <. bestEnergy (snd r)) = false;
  st_best :
    (bestEnergy (snd r) = bestEnergy sim /\ bestConfig (snd r) = bestConfig sim)
    \/ (bestEnergy (snd r) <. bestEnergy sim) = true;
  st_survivors : exists pop1 w1 sim2 w2,
    refineAll g (population sim) w = Done pop1 w1
    /\ updateBest (with_population sim pop1) w1 = Done sim2 w2
    /\ forall k ind, k < populationSize sim - populationSize sim / 2 ->
         population sim2 !! k = Some ind -> ind ∈ population (snd r)
}.

Lemma wpx_step g sim (w : World) :
  coherent sim w -> (ok -> 0 < populationSize sim) ->
  (ok -> lens (populationSize sim)) -> (ok -> lens (n sim)) ->
  wpx ok (step rnd g sim) (fun r w' => stepped g sim r w w') w.
Proof.
  intros [Hsize Htidy Hbest] HP HlP Hn. unfold step.
  pose proof Htidy as [Hk Hv Hnd He].
  destruct (wp_elim _ _ _ (wp_refineAll_tidy g _ _ _ w Hk Hv Hnd))
    as (pop1 & w1 & Hrun1 & Hmap & Htidy1 & Hup1).
  apply wpx_bind. unfold wpx at 1. rewrite Hrun1.
  assert (Hsize1 : length pop1 = populationSize sim).
  { apply (f_equal length) in Hmap. rewrite !length_map in Hmap. lia. }
  assert (Hbest1 : best_consistent (with_population sim pop1) w1).
  { apply valid_app in Hv as [_ Hvb].
    eapply best_consistent_updates; [done | done | exact Hup1 |].
    intros l Hl Hin. apply NoDup_app in Hnd as (_ & Hdis & _). by apply (Hdis l). }
  destruct (updateBest (with_population sim pop1) w1) as [sim2 w2| |] eqn:Hrun2.
  2,3: (pose proof (wpx_updateBest_coherent (with_population sim pop1) w1
                     Hsize1 Htidy1 Hbest1 HP) as Hx;
        unfold wpx in Hx; rewrite Hrun2 in Hx;
        apply wpx_bind; unfold wpx at 1; by rewrite Hrun2).
  pose proof (wpx_done _ _ _ _ _ _
                (wpx_updateBest_coherent (with_population sim pop1) w1
                   Hsize1 Htidy1 Hbest1 HP) Hrun2)
    as (Hn2 & HP2 & Hpop2 & Hcoh2 & Hch2 & _ & Hcase2 & _).
  simpl in Hn2, HP2, Hpop2.
  apply wpx_bind. unfold wpx at 1. rewrite Hrun2.
  apply wpx_bind. eapply wpx_mono.
  { apply wpx_recombination; [done | by rewrite HP2 | by rewrite Hn2]. }
  intros [sim3 log] w3 (Hcoh3 & Hch3 & Hn3 & HP3 & Hbc3 & Hbe3 & Hkeep3).
  simpl in Hcoh3, Hn3, HP3, Hbc3, Hbe3, Hkeep3. simpl fst.
  apply wpx_bind. eapply wpx_mono.
  { destruct Hcoh3 as [Hs3 Ht3 Hb3].
    apply wpx_updateBest_coherent; [done | done | done | by rewrite HP3, HP2]. }
  intros sim4 w4 (Hn4 & HP4 & Hpop4 & Hcoh4 & Hch4 & _ & Hcase4 & Hhead4).
  apply wpx_ret. split; simpl.
  - done.
  - congruence.
  - congruence.
  - done.
  - by exists (population sim3).
  - done.
  - destruct Hcase2 as [(Hbe2 & Hbc2 & _) | (f2 & v2 & _ & Hlt2 & Hbe2 & _)];
      destruct Hcase4 as [(Hbe4 & Hbc4 & _) | (f4 & v4 & _ & Hlt4 & Hbe4 & _)].
    + left. simpl in Hbe2, Hbc2. split; congruence.
    + right. simpl in Hbe2. rewrite Hbe4. rewrite Hbe3, Hbe2 in Hlt4. done.
    + right. simpl in Hlt2. rewrite Hbe4, Hbe3, Hbe2. done.
    + right. simpl in Hlt2. rewrite Hbe4. rewrite Hbe3, Hbe2 in Hlt4.
      by eapply lt_trans.
  - exists pop1, w1, sim2, w2. split; [done|]. split; [done|].
    intros k ind Hlt Hind. rewrite Hpop4. unfold sort_by_energy.
    rewrite (sort_by_Permutation energy).
    eapply list_elem_of_lookup_2. rewrite Hkeep3 by (rewrite HP2; exact Hlt). exact Hind.
Qed.

(** *** The constructor and a run *)

(** The state between two calls: coherent, the population as the last
    [updateBest] sorted it, and its first individual not below the best
    record. *)
Record settled (sim : ThomsonSimulation F) (w : World) : Prop := {
  set_coherent : coherent sim w;
  set_sorted : exists pop0, population sim = sort_by_energy pop0;
  set_head : forall first,
    population sim !! 0 = Some first -> (energy first <. bestEnergy sim) = false
}.

Lemma wpx_new_ThomsonSimulation g k (w : World) :
  (ok -> 0 < g_populationSize g) ->
  wpx ok (new_ThomsonSimulation rnd g k)
    (fun sim w' =>
       settled sim w' /\ n sim = k /\ populationSize sim = g_populationSize g
       /\ changes [] w w') w.
Proof.
  intros HP. unfold new_ThomsonSimulation, initPopulation. simpl.
  apply wpx_bind, wp_wpx. eapply wp_mono.
  - apply (wp_for_range
             (fun i (pop : list (Individual F)) w' =>
                length pop = i /\ tidy k pop [] w' /\ changes [] w w')); [lia | |].
    + split; [done|]. split; [|apply changes_refl].
      split; simpl; [constructor | constructor | constructor | constructor].
    + intros i pop w1 _ (Hlen & Htidy & Hch).
      apply wp_bind. unfold wp at 1. rewrite createRandomConfig_run.
      set (config := seq (length (heap w1)) k).
      set (w2 := mkWorld (heap w1 ++ samples rnd (draws w1) k) (draws w1 + 2 * k)).
      assert (Hv2 : valid w2 config).
      { apply Forall_forall. intros l Hl%elem_of_seq. unfold w2. simpl.
        rewrite length_app, samples_length. lia. }
      apply wp_bind. eapply wp_mono; [by apply wp_gradientDescent|].
      intros [] w3 Hup3. apply wp_bind.
      apply wp_calculateEnergy; [by eapply updates_valid|].
      intros e He. apply wp_ret.
      assert (Hch2 : changes [] w1 w2) by apply changes_append.
      assert (Hch3 : changes [] w1 w3).
      { eapply (changes_trans rnd); [exact Hch2 | by apply updates_changes |].
        intros l Hl Hin%elem_of_seq. lia. }
      split; [rewrite length_app; simpl; lia|]. split.
      * pose proof (tidy_changes _ _ _ _ _ Htidy Hch3) as [Hk Hv Hnd Hen].
        rewrite app_nil_r in Hv, Hnd. split.
        -- apply Forall_app. split; [done|]. constructor; [|constructor].
           simpl. apply length_seq.
        -- rewrite app_nil_r, pop_locs_app. apply valid_app. split; [done|].
           unfold pop_locs. simpl. rewrite app_nil_r. by eapply updates_valid.
        -- rewrite app_nil_r, pop_locs_app. apply NoDup_app. split; [done|]. split.
           ++ intros l Hl. unfold pop_locs. simpl. rewrite app_nil_r.
              intros Hin%elem_of_seq. destruct Htidy as [_ Hv1 _ _].
              rewrite app_nil_r in Hv1. unfold valid in Hv1.
              rewrite Forall_forall in Hv1. specialize (Hv1 _ Hl). lia.
           ++ unfold pop_locs. simpl. rewrite app_nil_r. apply NoDup_seq.
        -- apply Forall_app. split; [done|]. by repeat constructor.
      * eapply (changes_trans rnd); [exact Hch | exact Hch3 | done].
  - intros pop w1 (Hlen & Htidy & Hch). simpl.
    eapply wpx_mono.
    + apply wpx_updateBest_coherent; simpl; [lia | done | done | done].
    + intros sim' w' (Hn' & HP' & Hpop' & Hcoh & Hch' & _ & _ & Hhead). simpl in Hn', HP', Hpop'.
      split; [|split; [done|split; [done|]]].
      * split; [done | by exists pop | done].
      * eapply (changes_trans rnd); [exact Hch | exact Hch' | done].
Qed.

Lemma wpx_run_steps gs sim (w : World) :
  settled sim w -> (ok -> 0 < populationSize sim) ->
  (ok -> lens (populationSize sim)) -> (ok -> lens (n sim)) ->
  wpx ok (run_steps rnd gs sim)
    (fun sim' w' =>
       settled sim' w' /\ n sim' = n sim /\ populationSize sim' = populationSize sim) w.
Proof.
  revert sim w. induction gs as [|g gs IH]; intros sim w Hset HP HlP Hn.
  - by apply wpx_ret.
  - simpl. apply wpx_bind. eapply wpx_mono.
    { apply wpx_step; [apply Hset | done | done | done]. }
    intros [d sim1] w1 [Hcoh Hn1 HP1 _ Hsorted Hhead _ _].
    simpl in Hcoh, Hn1, HP1, Hsorted, Hhead. simpl snd.
    eapply wpx_mono.
    + apply IH; [by split | by rewrite HP1 | by rewrite HP1 | by rewrite Hn1].
    + intros sim2 w2 (Hset2 & Hn2 & HP2). split; [done|]. split; congruence.
Qed.

End Guard.

End Coherence.

(** * Runs of the simulation on binary64 *)

Section FloatDelta.
Local Open Scope float_scope.

Lemma SFsub_diag x :
  SFnonneg x -> SFltb x (S754_infinity false) = true ->
  SFabs (SFsub prec emax x x) = S754_zero false.
Proof.
  intros Hx%SFnonneg_cases Hfin.
  destruct x as [[]|[]| |[] m e]; try done.
  unfold SFsub. simpl cond_Zopp. by rewrite Z.sub_diag.
Qed.

(** A number that is not below zero and is below [Infinity], subtracted
    from itself, leaves [+0]. *)
Lemma float_abs_sub_diag (b : float) :
  (0 <=? b) = true -> (b <? infinity) = true -> abs (b - b) = 0.
Proof.
  rewrite leb_spec, ltb_spec. intros Hb Hfin.
  apply Prim2SF_inj. rewrite abs_spec, sub_spec.
  change (Prim2SF infinity) with (S754_infinity false) in Hfin.
  by apply SFsub_diag.
Qed.

Lemma float_abs_positive (x : float) : (0 <? x) = true -> abs x = x.
Proof.
  rewrite ltb_spec. change (Prim2SF 0) with (S754_zero false). intros Hx.
  apply Prim2SF_inj. rewrite abs_spec.
  by destruct (Prim2SF x) as [[]|[]| |[] m e].
Qed.

Lemma float_improved_delta (b b' : float) :
  (b' <? b) = true -> (0 <? abs (b - b')) = true.
Proof.
  intros Hlt. assert (Hpos : (0 <? b - b') = true) by (by rewrite float_sub_positive).
  by rewrite float_abs_positive.
Qed.

Lemma float_nonneg_number (x : float) : (0 <=? x) = true -> (x <=? x) = true.
Proof.
  rewrite !leb_spec. change (Prim2SF 0) with (S754_zero false).
  by destruct (Prim2SF x) as [[]|[]| |[] m e]; unfold SFleb; simpl;
    rewrite ?Z.compare_refl, ?Pos.compare_cont_refl.
Qed.

End FloatDelta.

Section Reached.
Context {T : Trig float}.
Variable rnd : nat -> float.

(** [reached g k gs w0 sim w]: a simulation of [k] electrons is constructed
    in the world [w0] while the globals are [g], then [step] is called once
    for each element of [gs], the globals at that call; all calls return,
    and leave the simulation [sim] and the world [w]. *)
Definition reached (g : Globals float) (k : nat) (gs : list (Globals float))
    (w0 : World float) (sim : ThomsonSimulation float) (w : World float) : Prop :=
  exists sim0 w1,
    new_ThomsonSimulation rnd g k w0 = Done sim0 w1
    /\ run_steps rnd gs sim0 w1 = Done sim w.

Lemma reached_settled g k gs w0 sim w :
  reached g k gs w0 sim w ->
  settled sim w /\ n sim = k /\ populationSize sim = g_populationSize g.
Proof.
  intros (sim0 & w1 & Hnew & Hrun).
  pose proof (wpx_done _ _ _ _ _ _
    (wpx_new_ThomsonSimulation rnd False float_ltb_irrefl float_ltb_trans g k w0
       ltac:(done)) Hnew) as (Hset0 & Hn0 & HP0 & _).
  pose proof (wpx_done _ _ _ _ _ _
    (wpx_run_steps rnd False float_ltb_irrefl float_ltb_trans (fun _ => True)
       ltac:(done) gs sim0 w1 Hset0 ltac:(done) ltac:(done) ltac:(done)) Hrun)
    as (Hset & Hn & HP).
  split; [done|]. split; congruence.
Qed.

Lemma fresh_energy_nonneg (w : World float) (ind : Individual float) :
  fresh_energy w ind -> valid w (points ind) -> (0 <=? energy ind)%float = true.
Proof.
  unfold fresh_energy. intros He Hv. destruct (valid_stores _ _ Hv) as [vals Hst].
  rewrite (calculateEnergy_energy_sum _ _ _ Hst) in He. injection He as <-.
  apply energy_sum_nonneg.
Qed.

Lemma settled_energies (sim : ThomsonSimulation float) (w : World float) :
  settled sim w ->
  Forall (fun ind => (0 <=? energy ind)%float = true) (population sim).
Proof.
  intros [[_ [_ Hv _ He] _] _ _]. apply valid_app in Hv as [Hvp _].
  apply Forall_forall. intros ind Hind. rewrite Forall_forall in He.
  apply (fresh_energy_nonneg w); [by apply He | by eapply valid_points].
Qed.

Lemma settled_best_number (sim : ThomsonSimulation float) (w : World float) :
  settled sim w -> (bestEnergy sim <=? bestEnergy sim)%float = true.
Proof.
  intros [[_ [_ Hv _ _] Hb] _ _]. apply valid_app in Hv as [_ Hvb].
  unfold best_consistent, best_locs in Hb, Hvb.
  destruct (bestConfig sim) as [best|]; simpl in Hvb.
  - destruct Hb as (_ & He & _). destruct (valid_stores _ _ Hvb) as [vals Hst].
    rewrite (calculateEnergy_energy_sum _ _ _ Hst) in He. injection He as <-.
    apply float_nonneg_number, energy_sum_nonneg.
  - by rewrite Hb.
Qed.

End Reached.

(** A run for the worked examples: one electron, two individuals,
    [Math.random] always 0, the constructor and one call of [step]. *)
Definition example_globals : Globals float :=
  (mkGlobals 2 0 lit_1e_2 0x1.5798ee2308c3ap-27)%float.

Definition example_sim : ThomsonSimulation float :=
  mkSimulation 1 2 [mkIndividual [0] 0%float; mkIndividual [3] 0%float]
    (Some [2]) 0%float.

Definition example_world : World float :=
  mkWorld (replicate 4 (mkVector3 0x1.1a62633145c07p-53 0 (-1))%float) 13.

Lemma example_reached :
  reached (T := example_trig) (fun _ => 0%float) example_globals 1 [example_globals]
    (mkWorld [] 0) example_sim example_world.
Proof.
  exists (mkSimulation 1 2 [mkIndividual [0] 0%float; mkIndividual [1] 0%float]
            (Some [2]) 0%float),
         (mkWorld (replicate 3 (mkVector3 0x1.1a62633145c07p-53 0 (-1))%float) 4).
  split; vm_compute; reflexivity.
Qed.

(** X2.  After the constructor and any number of calls of [step], the
    simulation still has the [n] and the [populationSize] it was constructed
    with; the population holds [populationSize] individuals of [n] points
    each, a recorded best configuration has [n] points too, and all these
    points are allocated objects, no two of them the same object: no two
    individuals, and no individual and the best record, share a point. *)
Theorem population_structure {T : Trig float} (rnd : nat -> float)
    (g : Globals float) (k : nat) (gs : list (Globals float))
    (w0 w : World float) (sim : ThomsonSimulation float) :
  reached rnd g k gs w0 sim w ->
  n sim = k
  /\ populationSize sim = g_populationSize g
  /\ length (population sim) = g_populationSize g
  /\ Forall (fun ind => length (points ind) = k) (population sim)
  /\ (forall best, bestConfig sim = Some best -> length best = k)
  /\ NoDup (pop_locs (population sim) ++ best_locs sim)
  /\ valid w (pop_locs (population sim) ++ best_locs sim).
Proof.
  intros Hr. destruct (reached_settled rnd g k gs w0 sim w Hr)
    as ([[Hsize [Hk Hv Hnd _] Hb] _ _] & Hn & HP).
  split_and!; try done.
  - congruence.
  - by rewrite <- Hn.
  - intros best Hbest. unfold best_consistent in Hb. rewrite Hbest in Hb.
    destruct Hb as (Hlen & _). congruence.
Qed.

Lemma population_structure_witness :
  length (population example_sim) = 2
  /\ NoDup (pop_locs (population example_sim) ++ best_locs example_sim).
Proof.
  destruct (population_structure (T := example_trig) (fun _ => 0%float)
              example_globals 1 [example_globals] (mkWorld [] 0) example_world
              example_sim example_reached)
    as (_ & _ & Hlen & _ & _ & Hnd & _).
  split; [exact Hlen | exact Hnd].
Defined.

(** X3.  After the constructor and any number of calls of [step], the
    energy stored with every individual is what [calculateEnergy] returns
    for its points as they are now, and it is a number not below zero. *)
Theorem population_energies_current {T : Trig float} (rnd : nat -> float)
    (g : Globals float) (k : nat) (gs : list (Globals float))
    (w0 w : World float) (sim : ThomsonSimulation float) :
  reached rnd g k gs w0 sim w ->
  Forall (fun ind =>
            calculateEnergy (points ind) w = Done (energy ind) w
            /\ (0 <=? energy ind)%float = true) (population sim).
Proof.
  intros Hr. destruct (reached_settled rnd g k gs w0 sim w Hr) as (Hset & _).
  pose proof (settled_energies sim w Hset) as Hnum.
  destruct Hset as [[_ [_ _ _ He] _] _ _].
  apply Forall_forall. intros ind Hind. rewrite Forall_forall in He, Hnum.
  split; [by apply He | by apply Hnum].
Qed.

Lemma population_energies_current_witness :
  Forall (fun ind =>
            calculateEnergy (points ind) example_world = Done (energy ind) example_world
            /\ (0 <=? energy ind)%float = true) (population example_sim).
Proof.
  exact (population_energies_current (T := example_trig) (fun _ => 0%float)
           example_globals 1 [example_globals] (mkWorld [] 0) example_world
           example_sim example_reached).
Defined.

(** X4.  After the constructor and any number of calls of [step], the best
    record is consistent: either no configuration has been recorded and
    [bestEnergy] is still [Infinity], or [bestEnergy] is the energy
    [calculateEnergy] returns for the recorded configuration, a number not
    below zero and below [Infinity]. *)
Theorem best_record_consistent {T : Trig float} (rnd : nat -> float)
    (g : Globals float) (k : nat) (gs : list (Globals float))
    (w0 w : World float) (sim : ThomsonSimulation float) :
  reached rnd g k gs w0 sim w ->
  match bestConfig sim with
  | None => bestEnergy sim = infinity
  | Some best =>
      calculateEnergy best w = Done (bestEnergy sim) w
      /\ (0 <=? bestEnergy sim)%float = true
      /\ (bestEnergy sim <? infinity)%float = true
  end.
Proof.
  intros Hr. destruct (reached_settled rnd g k gs w0 sim w Hr)
    as ([[_ [_ Hv _ _] Hb] _ _] & _).
  apply valid_app in Hv as [_ Hvb]. unfold best_consistent, best_locs in Hb, Hvb.
  destruct (bestConfig sim) as [best|]; [|done]. simpl in Hvb.
  destruct Hb as (_ & He & Hinf). split; [done|]. split; [|done].
  destruct (valid_stores _ _ Hvb) as [vals Hst].
  rewrite (calculateEnergy_energy_sum _ _ _ Hst) in He. injection He as <-.
  apply energy_sum_nonneg.
Qed.

Lemma best_record_consistent_witness :
  calculateEnergy [2] example_world = Done 0%float example_world
  /\ (0 <=? 0)%float = true /\ (0 <? infinity)%float = true.
Proof.
  exact (best_record_consistent (T := example_trig) (fun _ => 0%float)
           example_globals 1 [example_globals] (mkWorld [] 0) example_world
           example_sim example_reached).
Defined.

(** X5.  After the constructor and any number of calls of [step], the
    population is in ascending order of energy, and the best energy ever
    recorded is at most the energy of every individual. *)
Theorem population_sorted {T : Trig float} (rnd : nat -> float)
    (g : Globals float) (k : nat) (gs : list (Globals float))
    (w0 w : World float) (sim : ThomsonSimulation float) :
  reached rnd g k gs w0 sim w ->
  StronglySorted (fun a b => (energy a <=? energy b)%float = true) (population sim)
  /\ Forall (fun ind => (bestEnergy sim <=? energy ind)%float = true) (population sim).
Proof.
  intros Hr. destruct (reached_settled rnd g k gs w0 sim w Hr) as (Hset & _).
  pose proof (settled_energies sim w Hset) as Hnonneg.
  pose proof (settled_best_number sim w Hset) as Hbest.
  assert (Hnum : Forall (fun ind => (energy ind <=? energy ind)%float = true)
                   (population sim)).
  { eapply Forall_impl; [exact Hnonneg|]. intros ind. apply float_nonneg_number. }
  destruct Hset as [_ [pop0 Hpop] Hhead].
  assert (Hnum0 : Forall (fun ind => (energy ind <=? energy ind)%float = true) pop0).
  { rewrite Hpop in Hnum. unfold sort_by_energy in Hnum.
    by rewrite (sort_by_Permutation energy) in Hnum. }
  pose proof (sort_by_sorted (H := float_Number) energy float_sub_positive
                float_ltb_irrefl float_ltb_trans float_lt_le_trans pop0 Hnum0) as Hs.
  fold (sort_by_energy pop0) in Hs. rewrite <- Hpop in Hs.
  rewrite Forall_forall in Hnum.
  assert (Hsorted : StronglySorted
            (fun a b => (energy a <=? energy b)%float = true) (population sim)).
  { eapply StronglySorted_impl; [|exact Hs].
    intros a b Ha Hb Hab.
    apply float_leb_not_ltb; [by apply Hnum | by apply Hnum | exact Hab]. }
  split; [exact Hsorted|].
  destruct (population sim) as [|first pop] eqn:Hp; [constructor|].
  specialize (Hhead first eq_refl).
  assert (Hall : forall ind, ind ∈ first :: pop ->
            (energy ind <? bestEnergy sim)%float = false).
  { intros ind Hind. destruct (energy ind <? bestEnergy sim)%float eqn:Hlt; [|done].
    assert (Hif : (energy ind <? energy first)%float = true).
    { apply (float_lt_le_trans _ (bestEnergy sim)); [|done|done].
      apply Hnum. left. }
    apply elem_of_cons in Hind as [-> | Hind].
    - by rewrite float_ltb_irrefl in Hif.
    - apply StronglySorted_inv in Hs as [_ Hfa]. rewrite Forall_forall in Hfa.
      specialize (Hfa _ Hind). unfold not_after in Hfa.
      assert (Hc : true = false) by (rewrite <- Hif; exact Hfa). done. }
  apply Forall_forall. intros ind Hind.
  apply float_leb_not_ltb; [done | by apply Hnum | by apply Hall].
Qed.

Lemma population_sorted_witness :
  StronglySorted (fun a b => (energy a <=? energy b)%float = true)
    (population example_sim).
Proof.
  exact (proj1 (population_sorted (T := example_trig) (fun _ => 0%float)
                  example_globals 1 [example_globals] (mkWorld [] 0) example_world
                  example_sim example_reached)).
Defined.

(** [draws_index rnd m]: every draw, scaled by [m] and floored, is an index
    below [m], as [Math.floor(Math.random() * m)] is for a positive [m]. *)
Definition draws_index {F : Type} `{Number F} (rnd : nat -> F) (m : nat) : Prop :=
  forall j, exists i,
    num_index (num_floor (rnd j *. num_of_nat m)) = Some i /\ i < m.

Definition example_step_result : ThomsonSimulation float :=
  mkSimulation 1 2 [mkIndividual [0] 0%float; mkIndividual [4] 0%float]
    (Some [2]) 0%float.

Lemma example_step :
  step (H0 := example_trig) (fun _ => 0%float) example_globals example_sim example_world
  = Done (0%float, example_step_result)
      (mkWorld (replicate 5 (mkVector3 0x1.1a62633145c07p-53 0 (-1))%float) 22).
Proof. vm_compute. reflexivity. Qed.

(** X6.  When the draws index the population and the configurations, and
    for any values of the globals, the constructor and every call of [step]
    return normally: no [TypeError] is thrown and every loop ends. *)
Theorem simulation_runs {T : Trig float} (rnd : nat -> float)
    (g : Globals float) (k : nat) (gs : list (Globals float)) (w0 : World float) :
  draws_index rnd (g_populationSize g) -> draws_index rnd k ->
  exists sim w, reached rnd g k gs w0 sim w.
Proof.
  intros HdP Hdk.
  assert (HP : 0 < g_populationSize g) by (destruct (HdP 0) as (i & _ & Hi); lia).
  set (lens := fun m => m = g_populationSize g \/ m = k).
  assert (Hdraws : True -> forall j m, lens m ->
            exists i, num_index (num_floor (rnd j *. num_of_nat m)) = Some i /\ i < m).
  { intros _ j m [-> | ->]; [apply HdP | apply Hdk]. }
  destruct (wpx_returns True _ _ _ I
              (wpx_new_ThomsonSimulation (H := float_Number) rnd True float_ltb_irrefl float_ltb_trans
                 g k w0 (fun _ => HP)))
    as (sim0 & w1 & Hnew & Hset0 & Hn0 & HP0 & _).
  destruct (wpx_returns True _ _ _ I
              (wpx_run_steps (H := float_Number) rnd True float_ltb_irrefl float_ltb_trans lens Hdraws
                 gs sim0 w1 Hset0 ltac:(intros _; lia)
                 ltac:(intros _; left; exact HP0) ltac:(intros _; right; exact Hn0)))
    as (sim & w & Hrun & _).
  exists sim, w, sim0, w1. by split.
Qed.

Lemma simulation_runs_witness :
  exists sim w,
    reached (T := example_trig) (fun _ => 0%float) example_globals 1 [example_globals]
      (mkWorld [] 0) sim w.
Proof.
  apply simulation_runs.
  - intros j. exists 0. split; [vm_compute; reflexivity | simpl; lia].
  - intros j. exists 0. split; [vm_compute; reflexivity | lia].
Defined.

(** X7.  What [step] returns tells whether the best record moved.  Either
    the call left the best energy and the best configuration as they were,
    and then it returns [+0] (a configuration being recorded); or it lowered
    the best energy, and then it returns a number above zero. *)
Theorem step_reports_progress {T : Trig float} (rnd : nat -> float)
    (g : Globals float) (k : nat) (gs : list (Globals float))
    (w0 w w' : World float) (sim sim' : ThomsonSimulation float)
    (g' : Globals float) (delta : float) :
  reached rnd g k gs w0 sim w ->
  step rnd g' sim w = Done (delta, sim') w' ->
  (bestEnergy sim' = bestEnergy sim /\ bestConfig sim' = bestConfig sim
   /\ (bestConfig sim <> None -> delta = 0%float))
  \/ ((bestEnergy sim' <? bestEnergy sim)%float = true /\ (0 <? delta)%float = true).
Proof.
  intros Hr Hstep.
  destruct (reached_settled rnd g k gs w0 sim w Hr) as (Hset & _).
  pose proof (wpx_done _ _ _ _ _ _
    (wpx_step (H := float_Number) rnd False float_ltb_irrefl float_ltb_trans (fun _ => True) ltac:(done)
       g' sim w (set_coherent _ _ Hset) ltac:(done) ltac:(done) ltac:(done)) Hstep)
    as [_ _ _ Hdelta _ _ Hbest _].
  simpl in Hdelta, Hbest.
  destruct Hbest as [[Hbe Hbc] | Hlt].
  - left. split; [done|]. split; [done|]. intros Hsome.
    destruct Hset as [[_ [_ Hv _ _] Hb] _ _]. apply valid_app in Hv as [_ Hvb].
    unfold best_consistent, best_locs in Hb, Hvb.
    destruct (bestConfig sim) as [best|]; [|done]. simpl in Hvb.
    destruct Hb as (_ & He & Hinf).
    destruct (valid_stores _ _ Hvb) as [vals Hst].
    rewrite (calculateEnergy_energy_sum _ _ _ Hst) in He. injection He as He.
    rewrite Hdelta, Hbe. apply float_abs_sub_diag; [|done].
    rewrite <- He. apply energy_sum_nonneg.
  - right. split; [done|]. rewrite Hdelta. by apply float_improved_delta.
Qed.

Lemma step_reports_progress_witness :
  (bestEnergy example_step_result = bestEnergy example_sim
   /\ bestConfig example_step_result = bestConfig example_sim
   /\ (bestConfig example_sim <> None -> 0%float = 0%float))
  \/ ((bestEnergy example_step_result <? bestEnergy example_sim)%float = true
      /\ (0 <? 0)%float = true).
Proof.
  exact (step_reports_progress (T := example_trig) (fun _ => 0%float)
           example_globals 1 [example_globals] (mkWorld [] 0) example_world _
           example_sim example_step_result example_globals 0%float
           example_reached example_step).
Defined.

(** X8.  [step] is elitist.  Of the population as the refinement pass and
    the first [updateBest] leave it, sorted by energy, the individuals in
    the first [populationSize - floor(populationSize / 2)] places are still
    members of the population when [step] returns: the replacement loop
    overwrites the other places only. *)
Theorem step_keeps_better_half {T : Trig float} (rnd : nat -> float)
    (g : Globals float) (k : nat) (gs : list (Globals float))
    (w0 w w1 w2 w' : World float) (sim sim2 : ThomsonSimulation float)
    (g' : Globals float) (pop1 : list (Individual float))
    (r : float * ThomsonSimulation float) :
  reached rnd g k gs w0 sim w ->
  refineAll g' (population sim) w = Done pop1 w1 ->
  updateBest (with_population sim pop1) w1 = Done sim2 w2 ->
  step rnd g' sim w = Done r w' ->
  forall j ind,
    j < populationSize sim - populationSize sim / 2 ->
    population sim2 !! j = Some ind -> ind ∈ population (snd r).
Proof.
  intros Hr Href Hup Hstep.
  destruct (reached_settled rnd g k gs w0 sim w Hr) as (Hset & _).
  pose proof (wpx_done _ _ _ _ _ _
    (wpx_step (H := float_Number) rnd False float_ltb_irrefl float_ltb_trans (fun _ => True) ltac:(done)
       g' sim w (set_coherent _ _ Hset) ltac:(done) ltac:(done) ltac:(done)) Hstep)
    as [_ _ _ _ _ _ _ (pop1' & w1' & sim2' & w2' & Href' & Hup' & Hkeep)].
  rewrite Href in Href'. injection Href' as <- <-.
  rewrite Hup in Hup'. injection Hup' as <- <-.
  exact Hkeep.
Qed.

Lemma step_keeps_better_half_witness :
  mkIndividual [0] 0%float ∈ population example_step_result.
Proof.
  apply (step_keeps_better_half (T := example_trig) (fun _ => 0%float)
           example_globals 1 [example_globals] (mkWorld [] 0) example_world
           example_world example_world _ example_sim example_sim example_globals
           (population example_sim) (0%float, example_step_result)
           example_reached ltac:(vm_compute; reflexivity)
           ltac:(vm_compute; reflexivity) example_step 0).
  - simpl. lia.
  - reflexivity.
Defined.

(** X9.  [createRandomConfig], with [this.n = n], allocates exactly [n] new point objects,
    in order, from [2 n] consecutive draws, and returns them; the objects
    that existed before keep their places and values. *)
Theorem createRandomConfig_allocates {F : Type} `{Number F} `{Trig F}
    (rnd : nat -> F) (k : nat) (w : World F) :
  createRandomConfig rnd k w
  = Done (seq (length (heap w)) k)
      (mkWorld (heap w ++ samples rnd (draws w) k) (draws w + 2 * k)).
Proof. apply createRandomConfig_run. Qed.

(** X10.  With a population size of 0 the constructor throws: the loop of
    [initPopulation] adds nobody and [updateBest] reads [.energy] of
    [this.population[0]], which is [undefined]. *)
Theorem new_ThomsonSimulation_empty_population {F : Type} `{Number F} `{Trig F}
    (rnd : nat -> F) (g : Globals F) (k : nat) (w : World F) :
  g_populationSize g = 0 -> new_ThomsonSimulation rnd g k w = Throw.
Proof.
  intros HP. unfold new_ThomsonSimulation, initPopulation. simpl. by rewrite HP.
Qed.

Lemma new_ThomsonSimulation_empty_population_witness :
  new_ThomsonSimulation (H0 := example_trig) (fun _ => 0%float)
    (mkGlobals 0 0 lit_1e_2 0x1.5798ee2308c3ap-27)%float 3 (mkWorld [] 0)
  = Throw.
Proof. by apply new_ThomsonSimulation_empty_population. Defined.

Section SortedAgain.
Context {F : Type} `{Number F} {A : Type}.
Variable key : A -> F.
Hypothesis cmp_positive : forall x y : F, (lit_0 <. (x -. y)) = (y <. x).

(** Sorting an array that is in order already leaves it as it is. *)
Lemma sort_by_sorted_id (l : list A) :
  StronglySorted (not_after key) l -> sort_by key l = l.
Proof.
  induction 1 as [|a l Hs IH Hall]; [done|].
  simpl. fold (sort_by key l). rewrite IH.
  destruct l as [|b l']; [done|]. simpl.
  unfold comparator. rewrite cmp_positive.
  apply Forall_cons in Hall as [Hab _]. unfold not_after in Hab. by rewrite Hab.
Qed.

End SortedAgain.

Section Select.
Variable rnd : nat -> float.

(** The individual the [j]-th call of [Math.random] picks:
    [this.population[Math.floor(Math.random() * this.population.length)]]. *)
Definition drawn (sim : ThomsonSimulation float) (j : nat) : option (Individual float) :=
  get_number (population sim)
    (num_floor (rnd j *. num_of_nat (length (population sim)))).

End Select.

(** X11.  [tournamentSelect] draws three individuals, by three calls of
    [Math.random] and with repetition, and returns one of them that none of
    the three is strictly below in energy; it changes no object. *)
Theorem tournamentSelect_winner (rnd : nat -> float)
    (sim : ThomsonSimulation float) (w : World float)
    (i0 i1 i2 : Individual float) :
  drawn rnd sim (draws w) = Some i0 ->
  drawn rnd sim (draws w + 1) = Some i1 ->
  drawn rnd sim (draws w + 2) = Some i2 ->
  exists b,
    tournamentSelect rnd sim w = Done b (mkWorld (heap w) (draws w + 3))
    /\ b ∈ [i0; i1; i2]
    /\ Forall (fun i => (energy i <? energy b)%float = false) [i0; i1; i2].
Proof.
  unfold drawn. rewrite !Nat.add_succ_r, !Nat.add_0_r. intros H0 H1 H2.
  unfold tournamentSelect, for_range. cbn [seq Nat.sub for_each].
  unfold bind, Math_random, ret. cbn [heap draws]. rewrite H0. cbn [heap draws].
  rewrite H1.
  pose proof float_ltb_irrefl as Hirr. pose proof float_ltb_trans as Htr.
  assert (Hasym : forall x y : float, (x <? y)%float = true -> (y <? x)%float = false).
  { intros x y Hxy. destruct (y <? x)%float eqn:Hyx; [|done].
    by rewrite <- (Hirr x), (Htr x y x). }
  change (@num_ltb float float_Number) with PrimFloat.ltb.
  destruct (energy i1 <? energy i0)%float eqn:H10; cbn [heap draws]; rewrite H2.
  - destruct (energy i2 <? energy i1)%float eqn:H21.
    + exists i2. split; [done|]. split; [rewrite !elem_of_cons; tauto|].
      repeat constructor; eauto.
    + exists i1. split; [done|]. split; [rewrite !elem_of_cons; tauto|].
      repeat constructor; eauto.
  - destruct (energy i2 <? energy i0)%float eqn:H20.
    + exists i2. split; [done|]. split; [rewrite !elem_of_cons; tauto|].
      repeat constructor; eauto.
      destruct (energy i1 <? energy i2)%float eqn:H12; [|done].
      by rewrite (Htr _ _ _ H12 H20) in H10.
    + exists i0. split; [done|]. split; [rewrite !elem_of_cons; tauto|].
      repeat constructor; eauto.
Qed.

Lemma tournamentSelect_winner_witness :
  exists b,
    tournamentSelect
      (fun j => match j with 0 => 0.75 | _ => 0.25 end)%float
      (mkSimulation 1 2 [mkIndividual [0] 1%float; mkIndividual [1] 2%float]
         None infinity) (mkWorld [] 0)
    = Done b (mkWorld [] 3)
    /\ b ∈ [mkIndividual [1] 2%float; mkIndividual [0] 1%float;
            mkIndividual [0] 1%float]
    /\ Forall (fun i => (energy i <? energy b)%float = false)
         [mkIndividual [1] 2%float; mkIndividual [0] 1%float;
          mkIndividual [0] 1%float].
Proof.
  apply (tournamentSelect_winner
           (fun j => match j with 0 => 0.75 | _ => 0.25 end)%float
           (mkSimulation 1 2 [mkIndividual [0] 1%float; mkIndividual [1] 2%float]
              None infinity) (mkWorld [] 0));
    vm_compute; reflexivity.
Defined.

(** X12.  What [mutate] does.  When the first draw is not below
    [mutationRate], nothing changes.  Otherwise the second draw picks one
    point of the configuration, the next two draws make a point [q] of the
    sphere, and the picked point [p] becomes [p + 0.2 q], normalized; every
    other object stays as it is. *)
Theorem mutate_one_point {F : Type} `{Number F} `{Trig F} (rnd : nat -> F)
    (g : Globals F) (pts : list loc) (w : World F) (i : nat) (l : loc)
    (p : Vector3 F) :
  num_index (num_floor (rnd (draws w + 1) *. num_of_nat (length pts))) = Some i ->
  pts !! i = Some l -> heap w !! l = Some p ->
  mutate rnd g pts w
  = if rnd (draws w) <. g_mutationRate g then
      Done tt
        (mkWorld
           (<[l := v_normalize
                     (v_add p (v_multiplyScalar
                                 (sphere_point (rnd (draws w + 2)) (rnd (draws w + 3)))
                                 lit_0_2))]> (heap w))
           (draws w + 4))
    else Done tt (mkWorld (heap w) (draws w + 1)).
Proof.
  intros Hi Hl Hp. unfold mutate. unfold bind at 1. unfold Math_random at 1.
  replace (draws w + 1) with (S (draws w)) in * by lia.
  destruct (rnd (draws w) <. g_mutationRate g); [|done].
  unfold bind at 1. unfold Math_random at 1. cbn [heap draws].
  unfold bind at 1. rewrite randomPointOnSphere_run. cbn [heap draws].
  unfold bind at 1, at_number. rewrite Hi. unfold at_index. rewrite Hl.
  unfold ret at 1. unfold bind, modify. cbn [heap draws]. rewrite Hp.
  cbn [heap draws].
  rewrite list_lookup_insert_eq by (by eapply lookup_lt_Some).
  rewrite list_insert_insert_eq.
  replace (draws w + 2) with (S (S (draws w))) by lia.
  replace (draws w + 3) with (S (S (S (draws w)))) by lia.
  replace (draws w + 4) with (S (S (S (S (draws w))))) by lia.
  done.
Qed.

Lemma mutate_one_point_witness :
  mutate (H0 := example_trig) (fun _ => 0%float)
    (mkGlobals 2 lit_0_2 lit_1e_2 0x1.5798ee2308c3ap-27)%float [0]
    (mkWorld [mkVector3 0 0 1]%float 0)
  = if (0 <? lit_0_2)%float then
      Done tt
        (mkWorld
           (<[0 := v_normalize
                     (v_add (mkVector3 0 0 1)%float
                        (v_multiplyScalar
                           (sphere_point (H0 := example_trig) 0%float 0%float)
                           lit_0_2))]> [mkVector3 0 0 1]%float)
           4)
    else Done tt (mkWorld [mkVector3 0 0 1]%float 1).
Proof.
  apply (mutate_one_point (H := float_Number) (H0 := example_trig) (fun _ => 0%float)
           (mkGlobals 2 lit_0_2 lit_1e_2 0x1.5798ee2308c3ap-27)%float [0]
           (mkWorld [mkVector3 0 0 1]%float 0) 0 0 (mkVector3 0 0 1)%float);
    vm_compute; reflexivity.
Defined.

Lemma new_ThomsonSimulation_throws {F : Type} `{Number F} `{Trig F}
    (rnd : nat -> F) (g : Globals F) (k : nat) (w : World F) :
  g_populationSize g = 0 -> new_ThomsonSimulation rnd g k w = Throw.
Proof.
  intros HP. unfold new_ThomsonSimulation, initPopulation. simpl. by rewrite HP.
Qed.

(** X13.  [updateBest] changes nothing when it is called on the simulation
    as the constructor or [step] left it: the population is in order
    already and its first individual is not below the best record. *)
Theorem updateBest_idempotent {T : Trig float} (rnd : nat -> float)
    (g : Globals float) (k : nat) (gs : list (Globals float))
    (w0 w : World float) (sim : ThomsonSimulation float) :
  reached rnd g k gs w0 sim w -> updateBest sim w = Done sim w.
Proof.
  intros Hr. destruct (reached_settled rnd g k gs w0 sim w Hr) as (Hset & _ & HP).
  pose proof (settled_energies sim w Hset) as Hnonneg.
  assert (Hnum : Forall (fun ind => (energy ind <=? energy ind)%float = true)
                   (population sim)).
  { eapply Forall_impl; [exact Hnonneg|]. intros ind. apply float_nonneg_number. }
  destruct Hset as [[Hsize _ _] [pop0 Hpop] Hhead].
  assert (Hnum0 : Forall (fun ind => (energy ind <=? energy ind)%float = true) pop0).
  { rewrite Hpop in Hnum. unfold sort_by_energy in Hnum.
    by rewrite (sort_by_Permutation energy) in Hnum. }
  pose proof (sort_by_sorted (H := float_Number) energy float_sub_positive
                float_ltb_irrefl float_ltb_trans float_lt_le_trans pop0 Hnum0) as Hs.
  fold (sort_by_energy pop0) in Hs. rewrite <- Hpop in Hs.
  pose proof (sort_by_sorted_id (H := float_Number) energy float_sub_positive _ Hs) as Hid.
  unfold updateBest, sort_by_energy. rewrite Hid.
  destruct Hr as (sim0 & w1 & Hnew & Hrun).
  destruct sim as [n P pop best be]. simpl in Hhead, Hid, Hsize, HP; simpl.
  destruct pop as [|first pop].
  - simpl in Hsize. rewrite new_ThomsonSimulation_throws in Hnew; [done | congruence].
  - unfold bind, at_index. simpl. unfold ret at 1.
    specialize (Hhead first eq_refl). simpl in Hhead.
    change (@num_ltb float float_Number) with PrimFloat.ltb. by rewrite Hhead.
Qed.

Lemma updateBest_idempotent_witness :
  updateBest example_sim example_world = Done example_sim example_world.
Proof.
  exact (updateBest_idempotent (T := example_trig) (fun _ => 0%float)
           example_globals 1 [example_globals] (mkWorld [] 0) example_world
           example_sim example_reached).
Defined.

(** * The lengths of the edge groups *)

Section AbsSym.
Local Open Scope Z_scope.

Lemma binary_round_abs m e :
  SFabs (binary_round prec emax true m e) = SFabs (binary_round prec emax false m e).
Proof.
  unfold binary_round. destruct (shl_align m e _) as [mz ez].
  unfold binary_round_aux.
  destruct (shr_fexp prec emax (Z.pos mz) ez loc_Exact) as [mrs' e'].
  destruct (shr_fexp prec emax _ e' loc_Exact) as [mrs'' e''].
  destruct (shr_m mrs''); [done | by destruct (_ <=? _) | done].
Qed.

Lemma binary_normalize_abs m e :
  SFabs (binary_normalize prec emax (- m) e false)
  = SFabs (binary_normalize prec emax m e false).
Proof.
  unfold binary_normalize. destruct m; simpl; [done | |]; by rewrite binary_round_abs.
Qed.

Lemma SFsub_abs_sym x y :
  SFabs (SFsub prec emax x y) = SFabs (SFsub prec emax y x).
Proof.
  destruct x as [sx|sx| |sx mx ex], y as [sy|sy| |sy my ey]; try done;
    try (by destruct sx, sy).
  unfold SFsub. change IntDef.Z.min with Z.min. rewrite (Z.min_comm ey ex). cbv zeta.
  rewrite <- binary_normalize_abs. f_equal. f_equal. lia.
Qed.

End AbsSym.

Lemma float_abs_sub_sym (a b : float) : abs (a - b) = abs (b - a).
Proof.
  apply Prim2SF_inj. rewrite !abs_spec, !sub_spec. apply SFsub_abs_sym.
Qed.

Section Separation.
Context {F : Type} `{Number F}.

(** A group that is made later starts with an edge that fitted none of the
    groups made before it. *)
Lemma groupEdges_separated (edges : list (Edge F)) i j gi gj :
  i < j -> groupEdges edges !! i = Some gi -> groupEdges edges !! j = Some gj ->
  (num_abs (g_len gi -. g_len gj) <. lit_1e_2) = false.
Proof.
  intros Hlt Hi Hj. destruct (groupEdges_first_fit edges) as [Hgroup Hfirst _ _].
  destruct (Hgroup gj) as (e0 & rest & Hed & Hl & _);
    [by eapply list_elem_of_lookup_2|].
  rewrite Hl. apply (Hfirst j gj e0 i gi); [done | | done | done].
  rewrite Hed. left.
Qed.

End Separation.


(** X14.  The groups [calculateEdgeGroups] returns are apart: the lengths
    of two different groups are never within the threshold 0.01 of each
    other, so no group could have taken the first edge of another. *)
Theorem edge_groups_apart {TF : ToFixed float}
    (hull : list (Vector3 float) -> M float (list float)) (pts : list loc)
    (vals : list (Vector3 float)) (w w' : World float) (vertices : list float) :
  4 <= length pts -> stores w pts vals -> hull vals w = Done vertices w' ->
  exists groups,
    calculateEdgeGroups (Some hull) pts w = Done groups w'
    /\ forall i j gi gj,
         i <> j -> groups !! i = Some gi -> groups !! j = Some gj ->
         (abs (g_len gi - g_len gj) <? lit_1e_2)%float = false.
Proof.
  intros Hlen Hst Hhull. eexists. split.
  - unfold calculateEdgeGroups.
    destruct (length pts <? 4)%nat eqn:Hlt; [apply Nat.ltb_lt in Hlt; lia|].
    unfold bind. rewrite (read_points_run pts vals []) by done.
    simpl. by rewrite Hhull.
  - set (created := groupEdges _).
    pose proof (sort_by_Permutation g_len created) as Hperm.
    apply Permutation_inj in Hperm as (_ & f & Hinj & Hf).
    intros i j gi gj Hne Hi Hj. rewrite Hf in Hi, Hj.
    assert (Hfne : f i <> f j) by (intros Heq; by apply Hne, Hinj).
    destruct (decide (f i < f j)) as [Hlt | Hge].
    + exact (groupEdges_separated (H := float_Number) _ (f i) (f j) gi gj Hlt Hi Hj).
    + rewrite float_abs_sub_sym.
      exact (groupEdges_separated (H := float_Number) _ (f j) (f i) gj gi
               ltac:(lia) Hj Hi).
Qed.

Lemma edge_groups_apart_witness :
  exists groups,
    calculateEdgeGroups (H0 := float_ToFixed) (Some example_ConvexGeometry) [0; 1; 2; 3]
      (mkWorld example_points 0) = Done groups (mkWorld example_points 4)
    /\ forall i j gi gj,
         i <> j -> groups !! i = Some gi -> groups !! j = Some gj ->
         (abs (g_len gi - g_len gj) <? lit_1e_2)%float = false.
Proof.
  apply (edge_groups_apart (TF := float_ToFixed) example_ConvexGeometry [0; 1; 2; 3]
           example_points (mkWorld example_points 0) (mkWorld example_points 4)
           (example_hull example_points)).
  - simpl. lia.
  - repeat constructor.
  - reflexivity.
Defined.

(** * Frames of [animate] *)

Section PageFrames.
Context {F : Type} `{Number F} `{Trig F} `{ToFixed F}.
Variable ConvexGeometry : option (list (Vector3 F) -> M F (list F)).
Variable rnd : nat -> F.
Variable three : ThreeCall F -> M F unit.

(** The step a running frame makes, and what it does to [isRunning]. *)
Lemma animate_step g sim (w : World F) (page : Page F) (shown : list (Shown F)) w' :
  animate ConvexGeometry rnd three g (mkPage true (Some sim)) w = Done (page, shown) w' ->
  exists r w1,
    step rnd g sim w = Done r w1
    /\ simulation page = Some (snd r)
    /\ isRunning page = negb (fst r <. g_convergenceThreshold g).
Proof.
  unfold animate. cbn [isRunning simulation]. unfold bind at 1.
  destruct (step rnd g sim w) as [r w1| |]; [|done..].
  intros Hrun. exists r, w1. split; [done|].
  unfold bind at 1 in Hrun.
  destruct (updateVisualization ConvexGeometry three (Some (snd r)) w1)
    as [[] w2| |]; [|done..].
  destruct (fst r <. g_convergenceThreshold g).
  - unfold bind at 1 in Hrun.
    destruct (renderEdgeList ConvexGeometry (Some (snd r)) w2) as [list w3| |]; [|done..].
    unfold bind in Hrun. destruct (three render_frame w3) as [[] w4| |]; [|done..].
    unfold ret in Hrun. by injection Hrun as <- _ _.
  - unfold bind in Hrun. destruct (three render_frame w2) as [[] w4| |]; [|done..].
    unfold ret in Hrun. by injection Hrun as <- _ _.
Qed.

End PageFrames.

Lemma float_abs_lt_positive (x t : float) :
  (abs x <? t)%float = true -> (0 <? t)%float = true.
Proof.
  rewrite !ltb_spec, abs_spec. change (Prim2SF 0%float) with (S754_zero false).
  destruct (Prim2SF x) as [sx|sx| |sx mx ex], (Prim2SF t) as [[]|[]| |[] mt et];
    try done; unfold SFltb, SFcompare; simpl; try done.
  all: by destruct (_ ?= _)%Z.
Qed.

(** The library for the worked frames: every call into three.js makes four
    calls of [Math.random]. *)
Definition example_three (call : ThreeCall float) : M float unit :=
  fun w => Done tt (mkWorld (heap w) (draws w + 4)).

(** X17.  With a convergence threshold above zero the run goes on only
    while it makes progress: after a frame of a running simulation that has
    a best configuration, either [isRunning] is false or the best energy is
    strictly lower than before the frame. *)
Theorem animate_stops_without_progress {T : Trig float} {TF : ToFixed float}
    (ConvexGeometry : option (list (Vector3 float) -> M float (list float)))
    (rnd : nat -> float) (three : ThreeCall float -> M float unit)
    (g : Globals float) (k : nat) (gs : list (Globals float))
    (w0 w w' : World float) (sim : ThomsonSimulation float) (g' : Globals float)
    (page : Page float) (shown : list (Shown float)) :
  reached rnd g k gs w0 sim w ->
  bestConfig sim <> None ->
  (0 <? g_convergenceThreshold g')%float = true ->
  animate ConvexGeometry rnd three g' (mkPage true (Some sim)) w
  = Done (page, shown) w' ->
  isRunning page = false
  \/ exists sim', simulation page = Some sim'
       /\ (bestEnergy sim' <? bestEnergy sim)%float = true.
Proof.
  intros Hr Hsome Hthr Hframe.
  destruct (animate_step _ _ _ _ _ _ _ _ _ Hframe) as (r & w1 & Hstep & Hsim & Hrunning).
  destruct (reached_settled rnd g k gs w0 sim w Hr) as (Hset & _).
  pose proof (wpx_done _ _ _ _ _ _
    (wpx_step (H := float_Number) rnd False float_ltb_irrefl float_ltb_trans
       (fun _ => True) ltac:(done)
       g' sim w (set_coherent _ _ Hset) ltac:(done) ltac:(done) ltac:(done)) Hstep)
    as [_ _ _ Hdelta _ _ Hbest _].
  destruct Hbest as [[Hbe Hbc] | Hlt].
  - left. rewrite Hrunning, Hdelta, Hbe.
    destruct Hset as [[_ [_ Hv _ _] Hb] _ _]. apply valid_app in Hv as [_ Hvb].
    unfold best_consistent, best_locs in Hb, Hvb.
    destruct (bestConfig sim) as [best|]; [|done]. simpl in Hvb.
    destruct Hb as (_ & He & Hinf).
    destruct (valid_stores _ _ Hvb) as [vals Hst].
    rewrite (calculateEnergy_energy_sum _ _ _ Hst) in He. injection He as He.
    change (@num_abs float float_Number) with abs.
    change (@num_sub float float_Number) with PrimFloat.sub.
    rewrite float_abs_sub_diag; [|by rewrite <- He; apply energy_sum_nonneg|done].
    change (@num_ltb float float_Number) with PrimFloat.ltb. by rewrite Hthr.
  - right. by exists (snd r).
Qed.

Lemma example_frame :
  exists shown,
    animate (H0 := example_trig) (H1 := float_ToFixed) None (fun _ => 0%float)
      example_three example_globals (mkPage true (Some example_sim)) example_world
    = Done (mkPage false (Some example_step_result), shown)
        (mkWorld (replicate 5 (mkVector3 0x1.1a62633145c07p-53 0 (-1))%float) 30).
Proof. eexists. vm_compute. reflexivity. Qed.

Lemma animate_stops_without_progress_witness :
  isRunning (F := float) (mkPage false (Some example_step_result)) = false
  \/ exists sim', simulation (mkPage false (Some example_step_result)) = Some sim'
       /\ (bestEnergy sim' <? bestEnergy example_sim)%float = true.
Proof.
  destruct example_frame as [shown Hframe].
  apply (animate_stops_without_progress (T := example_trig) (TF := float_ToFixed)
           None (fun _ => 0%float) example_three example_globals 1 [example_globals]
           (mkWorld [] 0) example_world _ example_sim example_globals _ shown
           example_reached ltac:(done) ltac:(vm_compute; reflexivity) Hframe).
Defined.

(** What [step] returns is [Math.abs(initialBestEnergy - this.bestEnergy)]. *)
Lemma step_delta {F : Type} `{Number F} `{Trig F} (rnd : nat -> F)
    (g : Globals F) (sim : ThomsonSimulation F) (w w' : World F)
    (r : F * ThomsonSimulation F) :
  step rnd g sim w = Done r w' ->
  fst r = num_abs (bestEnergy sim -. bestEnergy (snd r)).
Proof.
  unfold step. unfold bind at 1. destruct (refineAll g _ w) as [pop w1| |]; [|done..].
  unfold bind at 1. destruct (updateBest _ w1) as [sim1 w2| |]; [|done..].
  unfold bind at 1. destruct (recombination rnd g sim1 w2) as [rr w3| |]; [|done..].
  unfold bind at 1. destruct (updateBest _ w3) as [sim2 w4| |]; [|done..].
  unfold ret. by intros [= <- _].
Qed.

(** X18.  With a convergence threshold that is zero, negative or NaN (as
    [Math.pow(10, -parseInt(...))] is for an input that is no number), a
    frame never stops the run: [isRunning] is still true after it. *)
Theorem animate_keeps_running {T : Trig float} {TF : ToFixed float}
    (ConvexGeometry : option (list (Vector3 float) -> M float (list float)))
    (rnd : nat -> float) (three : ThreeCall float -> M float unit)
    (g : Globals float) (sim : ThomsonSimulation float)
    (w w' : World float) (page : Page float) (shown : list (Shown float)) :
  (0 <? g_convergenceThreshold g)%float = false ->
  animate ConvexGeometry rnd three g (mkPage true (Some sim)) w
  = Done (page, shown) w' ->
  isRunning page = true.
Proof.
  intros Hthr Hframe.
  destruct (animate_step _ _ _ _ _ _ _ _ _ Hframe) as (r & w1 & Hstep & _ & ->).
  rewrite (step_delta _ _ _ _ _ _ Hstep).
  change (@num_abs float float_Number) with abs.
  change (@num_ltb float float_Number) with PrimFloat.ltb.
  destruct (abs _ <? _)%float eqn:Hlt; [|done].
  apply float_abs_lt_positive in Hlt. congruence.
Qed.

Lemma animate_keeps_running_witness :
  isRunning (F := float) (mkPage true (Some example_step_result)) = true.
Proof.
  apply (animate_keeps_running (T := example_trig) (TF := float_ToFixed) None
           (fun _ => 0%float) example_three
           (mkGlobals 2 0 lit_1e_2 nan)%float example_sim
           example_world
           (mkWorld (replicate 5 (mkVector3 0x1.1a62633145c07p-53 0 (-1))%float) 30)
           (mkPage true (Some example_step_result))
           [frame_requested; energy_display "0.000000"]);
    vm_compute; reflexivity.
Defined.

(** * The norm of a normalized vector

    [Vector3.normalize()] divides a vector by its computed length: three
    products, two sums, a square root, one division and three more products,
    each rounded to binary64.  This part bounds the rounding error of each
    operation from its definition in [SpecFloat] and derives that the result
    has Euclidean norm 1 within [1e-6], whenever the computed squared length is a number from [2 ^ -1000] on and
    below [Infinity].  Outside that range [normalize()] does not bring a
    vector to the sphere: it leaves the zero vector and [NaN]s as they are,
    and multiplies by [1 / Infinity] when the squared length overflows. *)

(** ** Rounding errors of binary64 *)

Section Pow2.
Local Open Scope R_scope.









End Pow2.

Section RoundZ.
Local Open Scope Z_scope.







End RoundZ.

Section RoundR.
Local Open Scope R_scope.




End RoundR.

Section Values.
Local Open Scope R_scope.











End Values.

Section Operations.
Local Open Scope R_scope.






End Operations.

Section Roots.
Local Open Scope R_scope.



End Roots.

Section Quotients.
Local Open Scope R_scope.


End Quotients.

Section NoOverflow.
Local Open Scope Z_scope.





End NoOverflow.

Section DigitsAndValues.
Local Open Scope Z_scope.







End DigitsAndValues.

Section FiniteRoots.
Local Open Scope Z_scope.


End FiniteRoots.

Section FiniteQuotients.
Local Open Scope Z_scope.



End FiniteQuotients.

Section FiniteProducts.
Local Open Scope Z_scope.


End FiniteProducts.

Section RealAnalysis.
Local Open Scope R_scope.












End RealAnalysis.

Section FloatValues.
Local Open Scope R_scope.

















End FloatValues.

Section UnitNorm.
Local Open Scope R_scope.






End UnitNorm.

Section Normalize.
Local Open Scope R_scope.







End Normalize.

Section NormalizeUnit.
Local Open Scope R_scope.


End NormalizeUnit.


(** * Where the optimiser leaves the points *)

Section MovedPoints.
Context {F : Type} `{Number F}.
Local Abbreviation World := (World F).





End MovedPoints.

Section OnSphere.








Context {T : Trig float}.
Variable rnd : nat -> float.







End OnSphere.







